(** * Steam collage layout engine (pages/index.tsx): a shallow embedding

    The page computes, from a list of owned games, a list of rectangles to
    draw.  The source file carries two versions of [layoutGames]:

    - the _tiered_ one (discrete size tiers, a free-rectangle packer that
      prefers the top-left void, then a shelf fill-in pass over the voids
      that are left), modelled in [Module Tiered];
    - the _naive_ one (size linear in playtime, best-area-fit packer with a
      guillotine split, no second pass), modelled in [Module Naive].

    Numbers.  JavaScript numbers are IEEE doubles.

    - In the tiered version every quantity the packer touches is an
      integer: the multiplier comes out of [Math.round] and [Math.max],
      the unit cell out of [Math.floor] and [Math.round], the canvas is
      integral, and coordinates are sums and differences of those, far
      below 2^53, where doubles are exact.  They are modelled in [Z], and
      the packer is the source's, step by step.
    - Where the source reaches such an integer through [Math.sqrt], the
      model takes the floor or the rounding of the exact root
      ([floorSqrt], [roundSqrt]); a double computation can differ from it
      only when the exact value is an integer or half-way between two.
      The packer takes the sized items as they come, so what is proved of
      it holds for whatever multipliers and unit cell the doubles give.
    - The naive version works on fractional sizes, and there rounding
      shows.  [Module NaiveD] is that version on doubles, the size formula
      included: Rocq's primitive binary64 numbers, with their correctly
      rounded operations.  [Module Naive] is the same packer on exact
      rationals and [Module LinearSize] the size formula over the reals;
      they serve where rounding plays no part.
    - [Math.sin] is not computed.  The packer takes the jitter as a
      function of the id; [Module Jitter] writes that function as the
      source does, from the sine of the engine.
    - Arrays are values, except in [Module Run], where the array the memo
      is given lives in a heap. *)

From Stdlib Require Import Reals Lra.
From Stdlib Require Import ZArith QArith Qminmax Qround Lqa List Bool Lia Permutation.
From Stdlib Require Import Sorted.
From Stdlib Require Import String DecimalString Ascii NArith.
From Stdlib Require PrimFloat FloatOps SpecFloat FloatAxioms.
Import ListNotations.

Local Open Scope Z_scope.

(** ** Shared data model *)

(** [type SteamGame = { appid; name; playtime_forever }] *)
Record SteamGame : Type := mkGame {
  appid : Z;
  name : string;
  playtime_forever : Z
}.

(** [buildAlbumUrl]: the template string with the decimal rendering of the
    id spliced in. *)
Definition buildAlbumUrl (id : Z) : string :=
  ("https://steamcdn-a.akamaihd.net/steam/apps/"
     ++ NilZero.string_of_int (Z.to_int id)
     ++ "/library_600x900_2x.jpg")%string.

(** ** [Array.prototype.sort]

    The sort is stable (ECMAScript 2019) and takes a comparator whose sign
    orders two elements.  The comparator is modelled by its sign; on a
    consistent comparator every stable sort returns the list below. *)
Section JsSort.
Context {A : Type}.
Variable cmp : A -> A -> comparison.

Fixpoint insertBy (a : A) (l : list A) : list A :=
  match l with
  | [] => [a]
  | b :: l' =>
      match cmp a b with
      | Gt => b :: insertBy a l'
      | _ => a :: l
      end
  end.

Definition sortBy (l : list A) : list A := fold_right insertBy [] l.
End JsSort.

(** Sign of a number, as a comparator result is read. *)
Definition sgn (z : Z) : comparison := z ?= 0.
Definition sgnQ (q : Q) : comparison := (q ?= 0)%Q.

(** [a || b] on two comparator results: the first non-zero one. *)
Definition orElse (c d : comparison) : comparison :=
  match c with Eq => d | _ => c end.

(** [Math.round]: the nearest integer, a tie going up. *)
Definition jsRound (q : Q) : Z := Qfloor (q + (1 # 2)).

(** [Array.prototype.splice(i, 1)] *)
Fixpoint removeAt {A : Type} (i : nat) (l : list A) : list A :=
  match l with
  | [] => []
  | a :: l' => match i with O => l' | S i' => a :: removeAt i' l' end
  end.

(** ** Lists of pairwise related elements *)
Section Pairwise.
Context {A : Type}.
Variable R : A -> A -> Prop.

Fixpoint pairwise (l : list A) : Prop :=
  match l with
  | [] => True
  | a :: l' => Forall (R a) l' /\ pairwise l'
  end.

(** [l'] is [l] with some elements taken out, up to order. *)
Definition subPerm (l' l : list A) : Prop :=
  exists dropped, Permutation l (l' ++ dropped).

End Pairwise.

(** ** Square roots

    The source takes [Math.sqrt] of a quotient and at once floors or rounds
    the result.  For integers [n >= 0] and [d > 0] the two functions below
    are [Math.floor(Math.sqrt(n / d))] and [Math.round(Math.sqrt(n / d))]
    computed on the exact real value of the root ([floorSqrt_exact] and
    [roundSqrt_exact] below).  A double computation can differ from them
    only when the real value sits exactly on an integer, or half-way between
    two. *)
Definition floorSqrt (n d : Z) : Z := Z.sqrt (n / d).

Definition roundSqrt (n d : Z) : Z := (floorSqrt (4 * n) d + 1) / 2.

(** ** [calculateCanvasDimensions]

    [width = Math.sqrt(totalArea * 9/16)] and [height = width / (9/16)], so
    [width / 100] is the root of [totalArea * 9 / (16 * 10000)] and
    [height / 100] the root of [totalArea * 16 / (9 * 10000)]. *)
Definition calculateCanvasDimensions (gameCount : Z) : Z * Z :=
  if gameCount =? 0 then (1080, 1920)
  else
    let baseArea := 1080 * 1920 in
    let additionalAreaPerGame := 50000 in
    let totalArea :=
      baseArea + (if 10 <? gameCount
                  then (gameCount - 10) * additionalAreaPerGame else 0) in
    let finalWidth :=
      Z.max 1080
        (Z.min 4320 (roundSqrt (totalArea * 9) (16 * 10000) * 100)) in
    let finalHeight :=
      Z.max 1920
        (Z.min 7680 (roundSqrt (totalArea * 16) (9 * 10000) * 100)) in
    (finalWidth, finalHeight).

(** * The tiered version *)
Module Tiered.

(** [type Rect = { x; y; width; height }] *)
Record Rect : Type := mkRect {
  x : Z;
  y : Z;
  width : Z;
  height : Z
}.

(** [type LayoutGame = SteamGame & { x; y; width; height; albumUrl }] *)
Record LayoutGame : Type := mkLayout {
  lg_game : SteamGame;
  lg_x : Z;
  lg_y : Z;
  lg_width : Z;
  lg_height : Z;
  albumUrl : string
}.

Definition rectOf (g : LayoutGame) : Rect :=
  mkRect (lg_x g) (lg_y g) (lg_width g) (lg_height g).

(** The elements of [items]: [{ game, mult }]. *)
Record TierItem : Type := mkItem {
  game : SteamGame;
  mult : Z
}.

(** The elements of [prepared]: [{ ...it, width, height, rnd }]. *)
Record Prepared : Type := mkPrepared {
  it_game : SteamGame;
  it_mult : Z;
  it_width : Z;
  it_height : Z;
  it_rnd : Q
}.

(** A rectangle object in [freeRects].  [indexOf] finds an object by
    identity, so each one carries the serial number it was created with. *)
Record FreeRect : Type := mkFree {
  oid : nat;
  shape : Rect
}.

(** The array [freeRects] with the next serial number. *)
Record Store : Type := mkStore {
  freeRects : list FreeRect;
  nextOid : nat
}.

(** *** Size tiers *)

Definition TIER_MAX : Z := 8.

(** [Math.max(...times, 1)] with [times = baseList.map(g => Math.max(g.playtime_forever, 1))] *)
Definition maxTimeOf (baseList : list SteamGame) : Z :=
  fold_right Z.max 1 (map (fun g => Z.max (playtime_forever g) 1) baseList).

(** [Math.round(Math.sqrt(t) / Math.sqrt(maxTime) * TIER_MAX)]: the
    expression under [Math.round] is the root of
    [TIER_MAX^2 * t / maxTime]. *)
Definition roundTier (t maxTime : Z) : Z :=
  roundSqrt (TIER_MAX * TIER_MAX * t) maxTime.

(** The body of [baseList.map((game) => ...)]. *)
Definition multOf (maxTime playtime : Z) : Z :=
  let mult := Z.max 1 (roundTier (Z.max playtime 1) maxTime) in
  let hours := (inject_Z playtime / 60)%Q in
  if Qle_bool 10 hours then Z.max mult 2 else 1.

Definition byPlaytimeDesc (a b : SteamGame) : comparison :=
  sgn (playtime_forever b - playtime_forever a).

Definition byPlaytimeThenMult (a b : TierItem) : comparison :=
  let t := playtime_forever (game b) - playtime_forever (game a) in
  if negb (t =? 0) then sgn t else sgn (mult b - mult a).

Definition tierItems (initialGames : list SteamGame) : list TierItem :=
  let sorted := sortBy byPlaytimeDesc initialGames in
  let baseList := sorted in
  let maxTime := maxTimeOf baseList in
  sortBy byPlaytimeThenMult
    (map (fun g => mkItem g (multOf maxTime (playtime_forever g))) baseList).

(** *** Base unit

    [totalUnits], [maxMult], and the quantised unit cell.  With
    [A = W * H] and [T = max(totalUnits, 1)] the source first computes the
    fractional unit width [u0 = sqrt(A / T / (2/3)) * (2/3)], replaces it by
    [W / maxMult] when [maxMult * u0 > W], and then takes
    [gridCols = max(1, floor(W / max(u, 1)))].  Since [W / u0] is the root
    of [3 * T * W / (2 * H)], this is, for a positive canvas, the closed
    form below. *)
Definition totalUnitsOf (items : list TierItem) : Z :=
  fold_left (fun acc it => acc + mult it * mult it) items 0.

Definition maxMultOf (items : list TierItem) : Z :=
  match items with
  | [] => 1
  | it :: rest => fold_left Z.max (map mult rest) (mult it)
  end.

Definition gridColsOf (W H totalUnits maxMult : Z) : Z :=
  let T := Z.max totalUnits 1 in
  Z.max 1 (Z.min W (Z.max (floorSqrt (3 * T * W) (2 * H)) maxMult)).

(** The argument of [Math.floor] in [gridCols], as the source computes it,
    over the reals. *)
Definition gridColsExpr (W H totalUnits maxMult : Z) : R :=
  let canvasArea := IZR (W * H) in
  let baseUnitArea := (canvasArea / IZR (Z.max totalUnits 1))%R in
  let baseUnitHeight := sqrt (baseUnitArea / (2 / 3)) in
  let baseUnitWidth := (baseUnitHeight * (2 / 3))%R in
  let maxItemWidth := (IZR maxMult * baseUnitWidth)%R in
  let baseUnitWidth :=
    if Rlt_dec (IZR W) maxItemWidth
    then (baseUnitWidth * (IZR W / maxItemWidth))%R
    else baseUnitWidth in
  (IZR W / Rmax baseUnitWidth 1)%R.

(** [Math.max(1, Math.floor(LAYOUT_WIDTH / gridCols))] *)
Definition baseUnitWidthOf (W H totalUnits maxMult : Z) : Z :=
  Z.max 1 (W / gridColsOf W H totalUnits maxMult).

Definition ASPECT_RATIO : Q := 2 # 3.

(** [Math.max(1, Math.round(baseUnitWidth / ASPECT_RATIO))] *)
Definition baseUnitHeightOf (baseUnitWidth : Z) : Z :=
  Z.max 1 (jsRound (inject_Z baseUnitWidth / ASPECT_RATIO)).

(** [Math.max(60, Math.round(Math.min(LAYOUT_HEIGHT * 0.06, 100)))] *)
Definition headerInfoHeightOf (LAYOUT_HEIGHT : Z) : Z :=
  Z.max 60 (jsRound (Qmin (inject_Z LAYOUT_HEIGHT * (6 # 100)) 100)).

(** *** Free-rectangle bookkeeping *)

Definition contains (a b : Rect) : bool :=
  (x a <=? x b) && (y a <=? y b)
  && (x b + width b <=? x a + width a)
  && (y b + height b <=? y a + height a).

(** [pruneFreeRects]: index [i] walks the array; the element at [i] is
    spliced out (and [i] stays) as soon as some other element contains it.
    [kept] is the part before [i], [rest] the part from [i] on. *)
Fixpoint pruneLoop (kept rest : list FreeRect) : list FreeRect :=
  match rest with
  | [] => kept
  | ri :: rest' =>
      if existsb (fun rj => contains (shape rj) (shape ri)) (kept ++ rest')
      then pruneLoop kept rest'
      else pruneLoop (kept ++ [ri]) rest'
  end.

Definition pruneFreeRects (st : Store) : Store :=
  mkStore (pruneLoop [] (freeRects st)) (nextOid st).

(** [freeRects.push(r)], [r] being a new object *)
Definition push (r : Rect) (st : Store) : Store :=
  mkStore (freeRects st ++ [mkFree (nextOid st) r]) (S (nextOid st)).

Definition addFreeRect (r : Rect) (st : Store) : Store :=
  if (width r <=? 0) || (height r <=? 0) then st else push r st.

(** [const idx = freeRects.indexOf(fr); if (idx >= 0) freeRects.splice(idx, 1)] *)
Fixpoint spliceOut (o : nat) (l : list FreeRect) : list FreeRect :=
  match l with
  | [] => []
  | f :: l' => if Nat.eqb (oid f) o then l' else f :: spliceOut o l'
  end.

Definition forget (fr : FreeRect) (st : Store) : Store :=
  mkStore (spliceOut (oid fr) (freeRects st)) (nextOid st).

Section Packer.
(** The closure variables of the packing code. *)
Variable LAYOUT_WIDTH LAYOUT_HEIGHT : Z.
Variable baseUnitWidth baseUnitHeight : Z.
(** [appid => Math.abs(Math.sin(appid * RANDOM_SEED))] *)
Variable jitter : Z -> Q.

Definition headerInfoHeight : Z := headerInfoHeightOf LAYOUT_HEIGHT.

Definition initialStore : Store :=
  mkStore
    [mkFree 0 (mkRect 0 headerInfoHeight LAYOUT_WIDTH
                 (Z.max 0 (LAYOUT_HEIGHT - headerInfoHeight)))]
    1.

Definition prepare (it : TierItem) : Prepared :=
  mkPrepared (game it) (mult it)
    (mult it * baseUnitWidth) (mult it * baseUnitHeight)
    (jitter (appid (game it))).

(** The score of an eligible free rectangle in [chooseBestRect]. *)
Definition fitScore (w h : Z) (fr : Rect) : Z :=
  let exactW := width fr =? w in
  let exactH := height fr =? h in
  y fr * LAYOUT_WIDTH + x fr
  + (if exactW && exactH then -1000000
     else if exactW || exactH then -500000 else 0).

(** One turn of the [for (const fr of freeRects)] loop; [None] stands
    for [best = null, bestScore = +Infinity]. *)
Definition chooseStep (w h : Z) (best : option (Z * FreeRect)) (fr : FreeRect)
  : option (Z * FreeRect) :=
  if (w <=? width (shape fr)) && (h <=? height (shape fr)) then
    let score := fitScore w h (shape fr) in
    match best with
    | None => Some (score, fr)
    | Some (bestScore, _) =>
        if score <? bestScore then Some (score, fr) else best
    end
  else best.

Definition chooseBestRect (frs : list FreeRect) (w h : Z) : option FreeRect :=
  option_map snd (fold_left (chooseStep w h) frs None).

Definition splitFreeRect (fr : FreeRect) (placed : Rect) (st : Store) : Store :=
  let st := forget fr st in
  let right :=
    mkRect (x placed + width placed) (y (shape fr))
           (width (shape fr) - width placed) (height placed) in
  let bottom :=
    mkRect (x (shape fr)) (y placed + height placed)
           (width (shape fr)) (height (shape fr) - height placed) in
  pruneFreeRects (addFreeRect bottom (addFreeRect right st)).

(** *** Phase 1 *)

Definition RANDOM_JITTER : Q := 2 # 10.

Definition jitterKey (it : Prepared) : Q :=
  (inject_Z (- it_mult it) + (it_rnd it - (1 # 2)) * RANDOM_JITTER)%Q.

Definition byJitteredMult (a b : Prepared) : comparison :=
  sgnQ (jitterKey a - jitterKey b)%Q.

Record Pack : Type := mkPack {
  store : Store;
  results : list LayoutGame;
  overflow : list Prepared
}.

Definition place (it : Prepared) (px py : Z) : LayoutGame :=
  mkLayout (it_game it) px py (it_width it) (it_height it)
           (buildAlbumUrl (appid (it_game it))).

(** The body of [for (const it of remainingDesc)]. *)
Definition placeStep (st : Pack) (it : Prepared) : Pack :=
  let w := it_width it in
  let h := it_height it in
  match chooseBestRect (freeRects (store st)) w h with
  | None => mkPack (store st) (results st) (overflow st ++ [it])
  | Some target =>
      let placed := mkRect (x (shape target)) (y (shape target)) w h in
      mkPack (splitFreeRect target placed (store st))
             (results st ++ [place it (x placed) (y placed)])
             (overflow st)
  end.

Definition phase1 (prepared : list Prepared) : Pack :=
  fold_left placeStep (sortBy byJitteredMult prepared)
            (mkPack initialStore [] []).

(** *** Phase 2 *)

Definition byTopLeft (a b : FreeRect) : comparison :=
  orElse (sgn (y (shape a) - y (shape b))) (sgn (x (shape a) - x (shape b))).

Definition byMultAsc (a b : Prepared) : comparison :=
  sgn (it_mult a - it_mult b).

(** The scan [for (let i = 0; i < remainingAsc.length; i++)]: the first
    of the narrowest items that fit the space left on the shelf, with its
    index.  [found] is [(foundIndex, remainingAsc[foundIndex])], and
    [None] is [foundIndex = -1, foundWidth = +Infinity]. *)
Fixpoint findNarrowest (spaceW rowHeight : Z) (l : list Prepared) (i : nat)
    (found : option (nat * Prepared)) : option (nat * Prepared) :=
  match l with
  | [] => found
  | it :: l' =>
      let found' :=
        if (it_width it <=? spaceW) && (it_height it <=? rowHeight) then
          match found with
          | None => Some (i, it)
          | Some (_, f) =>
              if it_width it <? it_width f then Some (i, it) else found
          end
        else found in
      findNarrowest spaceW rowHeight l' (S i) found'
  end.

(** The variables of one shelf row, with the two arrays it updates. *)
Record Row : Type := mkRow {
  localX : Z;
  spaceW : Z;
  rowMaxH : Z;
  rowPlaced : nat;
  row_results : list LayoutGame;
  row_remaining : list Prepared
}.

(** The inner [for (;;)].  Every turn that goes on removes an element of
    [remainingAsc]; [fuel] bounds the turns. *)
Fixpoint fillRow (fuel : nat) (rectY rowHeight : Z) (r : Row) : Row :=
  match fuel with
  | O => r
  | S fuel' =>
      match findNarrowest (spaceW r) rowHeight (row_remaining r) 0 None with
      | None => r
      | Some (foundIndex, it) =>
          let r' :=
            mkRow (localX r + it_width it)
                  (spaceW r - it_width it)
                  (Z.max (rowMaxH r) (it_height it))
                  (S (rowPlaced r))
                  (row_results r ++ [place it (localX r) rectY])
                  (removeAt foundIndex (row_remaining r)) in
          if spaceW r' <? baseUnitWidth then r'
          else fillRow fuel' rectY rowHeight r'
      end
  end.

(** The variables of [fillRectWithShelf]. *)
Record Shelf : Type := mkShelf {
  rect : Rect;
  placedAny : bool;
  sh_store : Store;
  sh_results : list LayoutGame;
  sh_remaining : list Prepared
}.

Definition fitsRect (r : Rect) (it : Prepared) : bool :=
  (it_height it <=? height r) && (it_width it <=? width r).

(** [while (rect.height >= baseUnitHeight)]; every turn that goes on has
    placed an item. *)
Fixpoint shelfLoop (fuel : nat) (s : Shelf) : Shelf :=
  match fuel with
  | O => s
  | S fuel' =>
      if baseUnitHeight <=? height (rect s) then
        match filter (fitsRect (rect s)) (sh_remaining s) with
        | [] => s
        | c :: cs =>
            let rowHeight := fold_left Z.min (map it_height cs) (it_height c) in
            let r :=
              fillRow (S (List.length (sh_remaining s))) (y (rect s)) rowHeight
                (mkRow (x (rect s)) (width (rect s)) 0 0
                       (sh_results s) (sh_remaining s)) in
            match rowPlaced r with
            | O => mkShelf (rect s) (placedAny s) (sh_store s)
                           (row_results r) (row_remaining r)
            | S _ =>
                let st :=
                  if 0 <? spaceW r
                  then addFreeRect
                         (mkRect (localX r) (y (rect s)) (spaceW r) (rowMaxH r))
                         (sh_store s)
                  else sh_store s in
                let rect' :=
                  mkRect (x (rect s)) (y (rect s) + rowMaxH r)
                         (width (rect s)) (height (rect s) - rowMaxH r) in
                shelfLoop fuel'
                  (mkShelf rect' true (pruneFreeRects st)
                           (row_results r) (row_remaining r))
            end
        end
      else s
  end.

(** The state of phase 2: [freeRects], [results], [remainingAsc]. *)
Record Fill : Type := mkFill {
  f_store : Store;
  f_results : list LayoutGame;
  remainingAsc : list Prepared
}.

Definition fillRectWithShelf (st : Fill) (fr : FreeRect) : Fill :=
  let s :=
    shelfLoop (S (List.length (remainingAsc st)))
      (mkShelf (shape fr) false (forget fr (f_store st))
               (f_results st) (remainingAsc st)) in
  let st' :=
    if (0 <? height (rect s)) && (0 <? width (rect s))
    then pruneFreeRects (addFreeRect (rect s) (sh_store s))
    else sh_store s in
  mkFill st' (sh_results s) (sh_remaining s).

(** Phase 2 from the state phase 1 left: sort [freeRects] in place, sort
    the overflow, and fill every rectangle of the snapshot
    [freeRects.slice()]. *)
Definition phase2 (p : Pack) : Fill :=
  let sortedFree := sortBy byTopLeft (freeRects (store p)) in
  fold_left fillRectWithShelf sortedFree
    (mkFill (mkStore sortedFree (nextOid (store p)))
            (results p)
            (sortBy byMultAsc (overflow p))).

(** The two phases on the sized items [prepared]. *)
Definition packPrepared (prepared : list Prepared) : Fill :=
  phase2 (phase1 prepared).

(** The packing part of [layoutGames], from [freeRects] on. *)
Definition pack (items : list TierItem) : Fill :=
  packPrepared (map prepare items).

End Packer.

(** [baseUnitWidth] and [baseUnitHeight] of a run. *)
Definition unitCell (items : list TierItem) (canvasDimensions : Z * Z) : Z * Z :=
  let '(LAYOUT_WIDTH, LAYOUT_HEIGHT) := canvasDimensions in
  let totalUnits := totalUnitsOf items in
  let maxMult := maxMultOf items in
  let baseUnitWidth :=
    baseUnitWidthOf LAYOUT_WIDTH LAYOUT_HEIGHT totalUnits maxMult in
  let baseUnitHeight := baseUnitHeightOf baseUnitWidth in
  (baseUnitWidth, baseUnitHeight).

(** The array [prepared] of a run: the sized items handed to the packer. *)
Definition preparedOf (jitter : Z -> Q) (initialGames : list SteamGame)
    (canvasDimensions : Z * Z) : list Prepared :=
  let items := tierItems initialGames in
  let '(baseUnitWidth, baseUnitHeight) := unitCell items canvasDimensions in
  map (prepare baseUnitWidth baseUnitHeight jitter) items.

(** The memo body of [layoutGames] past the empty-input guard, up to the
    state the fill-in pass leaves. *)
Definition layoutFill (jitter : Z -> Q) (initialGames : list SteamGame)
    (canvasDimensions : Z * Z) : Fill :=
  let items := tierItems initialGames in
  let '(baseUnitWidth, baseUnitHeight) := unitCell items canvasDimensions in
  pack (fst canvasDimensions) (snd canvasDimensions)
       baseUnitWidth baseUnitHeight jitter items.

(** [layoutGames]: the [results] array. *)
Definition layoutGames (jitter : Z -> Q) (initialGames : list SteamGame)
    (canvasDimensions : Z * Z) : list LayoutGame :=
  match initialGames with
  | [] => []
  | _ :: _ => f_results (layoutFill jitter initialGames canvasDimensions)
  end.

(** What is still in [remainingAsc] when [layoutGames] returns: the games
    that are not drawn. *)
Definition droppedGames (jitter : Z -> Q) (initialGames : list SteamGame)
    (canvasDimensions : Z * Z) : list SteamGame :=
  match initialGames with
  | [] => []
  | _ :: _ =>
      map it_game (remainingAsc (layoutFill jitter initialGames canvasDimensions))
  end.

(** *** Vocabulary of the properties *)

(** Two rectangles are kept apart by a vertical or a horizontal line
    (they may share an edge). *)
Definition separated (a b : Rect) : Prop :=
  x a + width a <= x b \/ x b + width b <= x a \/
  y a + height a <= y b \/ y b + height b <= y a.

(** A point of the plane lies strictly inside a rectangle. *)
Definition interior (r : Rect) (px py : Q) : Prop :=
  (inject_Z (x r) < px /\ px < inject_Z (x r + width r) /\
   inject_Z (y r) < py /\ py < inject_Z (y r + height r))%Q.

Definition interiorsMeet (a b : Rect) : Prop :=
  exists px py : Q, interior a px py /\ interior b px py.

(** [inner] lies within [outer]. *)
Definition inside (outer inner : Rect) : Prop :=
  x outer <= x inner /\ y outer <= y inner /\
  x inner + width inner <= x outer + width outer /\
  y inner + height inner <= y outer + height outer.

Definition NoOverlap (l : list LayoutGame) : Prop :=
  forall i j a b, i <> j ->
    nth_error l i = Some a -> nth_error l j = Some b ->
    ~ interiorsMeet (rectOf a) (rectOf b).

Definition InBounds (W H : Z) (g : LayoutGame) : Prop :=
  0 <= lg_x g /\ 0 <= lg_y g /\
  lg_x g + lg_width g <= W /\ lg_y g + lg_height g <= H.

(** The item of size [w] by [h] fits the free rectangle. *)
Definition eligible (w h : Z) (fr : FreeRect) : Prop :=
  w <= width (shape fr) /\ h <= height (shape fr).

(** The remainders of a free rectangle [fr] after an item of [w] by [h]
    is put in its corner, cut along the bottom edge of the item: the right
    one as high as the item, the bottom one of the full width. *)
Definition remainders (fr : Rect) (w h : Z) : list Rect :=
  (if w <? width fr
   then [mkRect (x fr + w) (y fr) (width fr - w) h] else [])
  ++
  (if h <? height fr
   then [mkRect (x fr) (y fr + h) (width fr) (height fr - h)] else []).


(** *** What the packer keeps true *)

(** Serial numbers in the store are distinct and below the next one. *)
Definition idsOk (st : Store) : Prop :=
  NoDup (map oid (freeRects st)) /\
  Forall (fun f => (oid f < nextOid st)%nat) (freeRects st).

Section Invariants.
Variable LAYOUT_WIDTH LAYOUT_HEIGHT : Z.

(** [best] is the first rectangle of least score among the eligible ones
    of [l] (nothing, when none is eligible). *)
Definition firstBest (w h : Z) (l : list FreeRect)
    (best : option (Z * FreeRect)) : Prop :=
  match best with
  | None => forall u, In u l -> ~ eligible w h u
  | Some (s, t) =>
      s = fitScore LAYOUT_WIDTH w h (shape t) /\
      exists i, nth_error l i = Some t /\ eligible w h t /\
        forall j u, nth_error l j = Some u -> eligible w h u ->
          s <= fitScore LAYOUT_WIDTH w h (shape u) /\
          ((j < i)%nat -> s < fitScore LAYOUT_WIDTH w h (shape u))
  end.

(** [region] is the canvas below the header strip.  A family of voids and
    the rectangles laid out so far form a [tiling] when they are pairwise
    separated and lie in the region, every laid-out rectangle having
    positive sides. *)
Definition region : Rect :=
  mkRect 0 (headerInfoHeight LAYOUT_HEIGHT) LAYOUT_WIDTH
         (Z.max 0 (LAYOUT_HEIGHT - headerInfoHeight LAYOUT_HEIGHT)).

Definition positive (g : LayoutGame) : Prop := 0 < lg_width g /\ 0 < lg_height g.

Definition positiveItem (it : Prepared) : Prop :=
  0 < it_width it /\ 0 < it_height it.

Definition tiling (voids : list Rect) (res : list LayoutGame) : Prop :=
  pairwise separated (voids ++ map rectOf res) /\
  Forall (inside region) (voids ++ map rectOf res) /\
  Forall positive res.

(** Phase 1. *)
Definition packOk (st : Pack) : Prop :=
  idsOk (store st) /\
  tiling (map shape (freeRects (store st))) (results st) /\
  Forall positiveItem (overflow st).

(** The void below a shelf of height [m] in the rectangle [r0], and the
    part of the shelf still to fill. *)
Definition nextRect (r0 : Rect) (m : Z) : Rect :=
  mkRect (x r0) (y r0 + m) (width r0) (height r0 - m).

Definition cell (r0 : Rect) (r : Row) : Rect :=
  mkRect (localX r) (y r0) (spaceW r) (height r0).

(** One shelf row in the rectangle [r0], beside the voids [others]. *)
Definition rowOk (r0 : Rect) (others : list Rect) (r : Row) : Prop :=
  tiling (cell r0 r :: others) (row_results r) /\
  Forall (fun q => separated q (nextRect r0 (rowMaxH r)))
         (others ++ map rectOf (row_results r)) /\
  0 <= rowMaxH r /\
  Forall positiveItem (row_remaining r).

(** The shelf loop, before and after. *)
Definition shelfOk (others : list Rect) (s : Shelf) : Prop :=
  tiling (rect s :: others) (sh_results s) /\
  Forall positiveItem (sh_remaining s).

Definition shelfDone (others : list Rect) (s : Shelf) : Prop :=
  tiling others (sh_results s) /\
  Forall positiveItem (sh_remaining s).

(** Phase 2, with the rectangles of the snapshot still to fill. *)
Definition fillOk (pending : list FreeRect) (st : Fill) : Prop :=
  tiling (map shape pending) (f_results st) /\
  Forall positiveItem (remainingAsc st).

End Invariants.

End Tiered.

(** * The naive version, on exact rationals *)
Module Naive.

Local Open Scope Q_scope.

(** [type Rect = { x; y; width; height }] *)
Record Rect : Type := mkRect {
  x : Q;
  y : Q;
  width : Q;
  height : Q
}.

(** The elements of [items]: [{ ...game, width, height, albumUrl }]. *)
Record SizedGame : Type := mkSized {
  sg_game : SteamGame;
  sg_width : Q;
  sg_height : Q;
  sg_albumUrl : string
}.

(** [type LayoutGame = SteamGame & { x; y; width; height; albumUrl }] *)
Record LayoutGame : Type := mkLayout {
  lg_item : SizedGame;
  lg_x : Q;
  lg_y : Q
}.

Definition lg_width (g : LayoutGame) : Q := sg_width (lg_item g).
Definition lg_height (g : LayoutGame) : Q := sg_height (lg_item g).

Definition rectOf (g : LayoutGame) : Rect :=
  mkRect (lg_x g) (lg_y g) (lg_width g) (lg_height g).

Definition Qltb (a b : Q) : bool := negb (Qle_bool b a).

Definition byHeightDesc (a b : SizedGame) : comparison :=
  sgnQ (sg_height b - sg_height a).

Definition fits (g : SizedGame) (fr : Rect) : bool :=
  Qle_bool (sg_width g) (width fr) && Qle_bool (sg_height g) (height fr).

Definition score (g : SizedGame) (fr : Rect) : Q :=
  width fr * height fr - sg_width g * sg_height g.

(** The scan [for (let i = 0; i < freeRects.length; i++)].  [best] is
    [(bestScore, bestRectIndex, freeRects[bestRectIndex])]; [None] stands
    for [bestScore = Infinity, bestRectIndex = -1, bestNode = null]. *)
Fixpoint scan (g : SizedGame) (frs : list Rect) (i : nat)
    (best : option (Q * nat * Rect)) : option (Q * nat * Rect) :=
  match frs with
  | [] => best
  | freeRect :: frs' =>
      let best' :=
        if fits g freeRect then
          let s := score g freeRect in
          match best with
          | None => Some (s, i, freeRect)
          | Some (bestScore, _, _) =>
              if Qltb s bestScore then Some (s, i, freeRect) else best
          end
        else best in
      scan g frs' (S i) best'
  end.

Definition bestNodeOf (g : SizedGame) (freeRect : Rect) : Rect :=
  mkRect (x freeRect) (y freeRect) (sg_width g) (sg_height g).

(** The rectangles pushed after a placement. *)
Definition newFreeRects (bestNode toSplit : Rect) : list Rect :=
  let canSplitHorizontally := Qltb (width bestNode) (width toSplit) in
  let canSplitVertically := Qltb (height bestNode) (height toSplit) in
  (if canSplitHorizontally
   then [mkRect (x toSplit + width bestNode) (y toSplit)
                (width toSplit - width bestNode) (height toSplit)]
   else [])
  ++
  (if canSplitVertically
   then [mkRect (x toSplit) (y toSplit + height bestNode)
                (if canSplitHorizontally then width bestNode else width toSplit)
                (height toSplit - height bestNode)]
   else []).

Record Pack : Type := mkPack {
  freeRects : list Rect;
  results : list LayoutGame
}.

(** The body of [for (const game of items)]. *)
Definition placeStep (st : Pack) (g : SizedGame) : Pack :=
  match scan g (freeRects st) 0 None with
  | None => st
  | Some (_, bestRectIndex, toSplit) =>
      let bestNode := bestNodeOf g toSplit in
      mkPack (removeAt bestRectIndex (freeRects st)
                ++ newFreeRects bestNode toSplit)
             (results st ++ [mkLayout g (x bestNode) (y bestNode)])
  end.

(** [layoutGames] from [items.sort] on, for the sized [items]. *)
Definition packSized (items : list SizedGame) (LAYOUT_WIDTH LAYOUT_HEIGHT : Q)
    : Pack :=
  fold_left placeStep (sortBy byHeightDesc items)
    (mkPack [mkRect 0 0 LAYOUT_WIDTH LAYOUT_HEIGHT] []).

Definition layoutSized (items : list SizedGame) (canvasDimensions : Q * Q)
    : list LayoutGame :=
  match items with
  | [] => []
  | _ :: _ => results (packSized items (fst canvasDimensions) (snd canvasDimensions))
  end.

(** *** Vocabulary of the properties *)

Definition separated (a b : Rect) : Prop :=
  x a + width a <= x b \/ x b + width b <= x a \/
  y a + height a <= y b \/ y b + height b <= y a.

Definition interior (r : Rect) (px py : Q) : Prop :=
  x r < px /\ px < x r + width r /\ y r < py /\ py < y r + height r.

Definition interiorsMeet (a b : Rect) : Prop :=
  exists px py : Q, interior a px py /\ interior b px py.

Definition inside (outer inner : Rect) : Prop :=
  x outer <= x inner /\ y outer <= y inner /\
  x inner + width inner <= x outer + width outer /\
  y inner + height inner <= y outer + height outer.

Definition NoOverlap (l : list LayoutGame) : Prop :=
  forall i j a b, i <> j ->
    nth_error l i = Some a -> nth_error l j = Some b ->
    ~ interiorsMeet (rectOf a) (rectOf b).

Definition InBounds (W H : Q) (g : LayoutGame) : Prop :=
  0 <= lg_x g /\ 0 <= lg_y g /\
  lg_x g + lg_width g <= W /\ lg_y g + lg_height g <= H.

Definition nonNegative (g : SizedGame) : Prop :=
  0 <= sg_width g /\ 0 <= sg_height g.



(** *** What the packer keeps true *)

(** [best] is the first rectangle of least score among those of [l] the
    item fits (nothing, when it fits none). *)
Definition firstBest (g : SizedGame) (l : list Rect)
    (best : option (Q * nat * Rect)) : Prop :=
  match best with
  | None => forall u, In u l -> fits g u = false
  | Some (s, i, t) =>
      s = score g t /\ nth_error l i = Some t /\ fits g t = true /\
      forall j u, nth_error l j = Some u -> fits g u = true ->
        s <= score g u /\ ((j < i)%nat -> s < score g u)
  end.

Definition canvasRect (LAYOUT_WIDTH LAYOUT_HEIGHT : Q) : Rect :=
  mkRect 0 0 LAYOUT_WIDTH LAYOUT_HEIGHT.

(** The free rectangles and the rectangles laid out are pairwise
    separated and lie in the canvas. *)
Definition tiling (LAYOUT_WIDTH LAYOUT_HEIGHT : Q) (st : Pack) : Prop :=
  pairwise separated (freeRects st ++ map rectOf (results st)) /\
  Forall (inside (canvasRect LAYOUT_WIDTH LAYOUT_HEIGHT))
         (freeRects st ++ map rectOf (results st)).

End Naive.

(** ** The size formula of the naive version

    [area = playtime_forever / 100 * 20], [height = sqrt(area / (2/3))],
    [width = height * (2/3)], over the reals.  [Math.sqrt] of a negative
    number is [NaN], here [None]. *)
Module LinearSize.

Local Open Scope R_scope.

Definition aspectRatio : R := 2 / 3.

Definition areaOf (playtime_forever : Z) : R := IZR playtime_forever / 100 * 20.

Definition sizeOf (playtime_forever : Z) : option (R * R) :=
  if (playtime_forever <? 0)%Z then None
  else
    let height := sqrt (areaOf playtime_forever / aspectRatio) in
    let width := height * aspectRatio in
    Some (width, height).

Definition rectArea (size : R * R) : R := fst size * snd size.

End LinearSize.

(** * Two libraries used as examples *)
Module Scenario.

(** [Math.abs(Math.sin(appid * 1337.123))] for the ids 1 to 8, to sixteen
    decimals. *)
Definition jitter (id : Z) : Q :=
  match id with
  | 1 => (9303882051828822 # 10000000000000000)%Q
  | 2 => (6821155264061931 # 10000000000000000)%Q
  | 3 => (4302941704858930 # 10000000000000000)%Q
  | 4 => (9975863513537289 # 10000000000000000)%Q
  | 5 => (3010877788963244 # 10000000000000000)%Q
  | 6 => (7768433887360293 # 10000000000000000)%Q
  | 7 => (8706316898053192 # 10000000000000000)%Q
  | 8 => (1385384423823925 # 10000000000000000)%Q
  | _ => 0%Q
  end.

(** Eight games for the tiered version, with its canvas. *)
Definition library : list SteamGame :=
  [ mkGame 1 "one" 6000; mkGame 2 "two" 1500; mkGame 3 "three" 1500;
    mkGame 4 "four" 1500; mkGame 5 "five" 700; mkGame 6 "six" 700;
    mkGame 7 "seven" 700; mkGame 8 "eight" 0 ].

Definition canvas : Z * Z :=
  calculateCanvasDimensions (Z.of_nat (List.length library)).



(** Four games for the naive version: a playtime of [30 * k * k] minutes
    gives a rectangle of [2 * k] by [3 * k]. *)
Definition sized (id k : Z) : Naive.SizedGame :=
  Naive.mkSized (mkGame id "game" (30 * k * k))
    (inject_Z (2 * k)) (inject_Z (3 * k)) (buildAlbumUrl id).

Definition shelf : list Naive.SizedGame :=
  [sized 1 370; sized 2 180; sized 3 130; sized 4 30].

Definition shelfCanvas : Q * Q := (inject_Z 1100, inject_Z 1920).


End Scenario.


(** * JavaScript strings

    A string is its sequence of UTF-16 code units. *)
Module Js.

Definition str : Type := list N.

(** A literal of the source all of whose characters are ASCII. *)
Definition lit (s : string) : str := map N_of_ascii (list_ascii_of_string s).

(** [Boolean(s)]: the empty string is the only falsy one. *)
Definition truthy (s : str) : bool :=
  match s with [] => false | _ :: _ => true end.

(** [a || b] on two strings *)
Definition orStr (a b : str) : str := if truthy a then a else b.

(** The code units [String.prototype.trim] strips: WhiteSpace (tab, VT, FF,
    space, no-break space, BOM and the space separators) and
    LineTerminator (LF, CR, LS, PS). *)
Definition isWhite (c : N) : bool :=
  ((c =? 9) || (c =? 10) || (c =? 11) || (c =? 12) || (c =? 13) || (c =? 32)
   || (c =? 160) || (c =? 5760) || ((8192 <=? c) && (c <=? 8202))
   || (c =? 8232) || (c =? 8233) || (c =? 8239) || (c =? 8287)
   || (c =? 12288) || (c =? 65279))%N.

Fixpoint trimStart (s : str) : str :=
  match s with
  | [] => []
  | c :: s' => if isWhite c then trimStart s' else s
  end.

Definition trimEnd (s : str) : str := rev (trimStart (rev s)).

(** [String.prototype.trim] *)
Definition trim (s : str) : str := trimEnd (trimStart s).

Fixpoint startsWith (p s : str) : bool :=
  match p, s with
  | [], _ => true
  | _ :: _, [] => false
  | a :: p', b :: s' => (a =? b)%N && startsWith p' s'
  end.

(** [String.prototype.includes] *)
Fixpoint includes (s needle : str) : bool :=
  startsWith needle s ||
  match s with
  | [] => false
  | _ :: s' => includes s' needle
  end.

(** [Array.prototype.join] *)
Fixpoint join (sep : str) (l : list str) : str :=
  match l with
  | [] => []
  | [a] => a
  | a :: l' => a ++ sep ++ join sep l'
  end.

(** [/^\d+$/.test(s)] *)
Definition isDigit (c : N) : bool := ((48 <=? c) && (c <=? 57))%N.

Definition allDigits (s : str) : bool := truthy s && forallb isDigit s.

End Js.

(** * [getServerSideProps]

    What the server does with the query before the page is drawn.  The
    network is outside: every awaited request enters as the outcome it
    had. *)
Module Server.
Import Js.

(** ** [resolveOne] *)

(** The outcome of the [ResolveVanityURL] request inside its [try]: the
    request failed, or the body had [response.success === 1] or not and a
    [response.steamid] that is a string or not. *)
Inductive Lookup : Type :=
| LookupThrew
| LookupSaid (successIs1 : bool) (steamid : option str).

(** What [await resolveOne(...)] gives: a value ([null] is [None]) or an
    exception. *)
Inductive Resolution : Type :=
| ResolvedTo (id : option str)
| ResolveThrows.

(** The longest prefix without [/], [?] and [#]: the group [([^\/?#]+)]. *)
Fixpoint segment (s : str) : str :=
  match s with
  | [] => []
  | c :: s' =>
      if ((c =? 47) || (c =? 63) || (c =? 35))%N then [] else c :: segment s'
  end.

Fixpoint stripPrefix (p s : str) : option str :=
  match p, s with
  | [], _ => Some s
  | _ :: _, [] => None
  | a :: p', b :: s' => if (a =? b)%N then stripPrefix p' s' else None
  end.

Inductive Kind : Type := KindId | KindProfiles.

(** [input.match(/^https?:\/\/steamcommunity\.com\/(id|profiles)\/([^\/?#]+)/)]:
    the two groups of the match. *)
Definition urlMatch (input : str) : option (Kind * str) :=
  match stripPrefix (lit "http") input with
  | None => None
  | Some rest =>
      let rest :=
        match stripPrefix (lit "s://") rest with
        | Some r => Some r
        | None => stripPrefix (lit "://") rest
        end in
      match rest with
      | None => None
      | Some rest =>
          match stripPrefix (lit "steamcommunity.com/") rest with
          | None => None
          | Some rest =>
              let group (kind : Kind) (r : str) :=
                match segment r with
                | [] => None
                | value => Some (kind, value)
                end in
              match stripPrefix (lit "id/") rest with
              | Some r => group KindId r
              | None =>
                  match stripPrefix (lit "profiles/") rest with
                  | Some r => group KindProfiles r
                  | None => None
                  end
              end
          end
      end
  end.

(** [/^\d{17}$/.test(s)] *)
Definition digits17 (s : str) : bool :=
  Nat.eqb (List.length s) 17 && forallb isDigit s.

(** The part after the request: [success === 1], [typeof maybeId ===
    "string"] and [/^\d+$/.test(maybeId)], else [null]; [null] too when the
    request threw. *)
Definition readVanity (l : Lookup) : option str :=
  match l with
  | LookupSaid true (Some maybeId) =>
      if allDigits maybeId then Some maybeId else None
  | _ => None
  end.

Section ResolveOne.
(** The two built-ins, which throw [URIError] on some strings ([None]). *)
Variable decodeURIComponent encodeURIComponent : str -> option str.
(** The outcome of the request, by its URL. *)
Variable lookup : str -> Lookup.

(** The template string of the endpoint; it is built outside the [try]. *)
Definition vanityEndpoint (apiKeyParam value : str) : option str :=
  match encodeURIComponent apiKeyParam with
  | None => None
  | Some k =>
      match encodeURIComponent value with
      | None => None
      | Some v =>
          Some (lit "https://api.steampowered.com/ISteamUser/ResolveVanityURL/v0001/?key="
                  ++ k ++ lit "&vanityurl=" ++ v)
      end
  end.

Definition viaVanity (apiKeyParam value : str) : Resolution :=
  match vanityEndpoint apiKeyParam value with
  | None => ResolveThrows
  | Some endpoint => ResolvedTo (readVanity (lookup endpoint))
  end.

Definition resolveOne (input apiKeyParam : str) : Resolution :=
  match urlMatch input with
  | Some (kind, group) =>
      match decodeURIComponent group with
      | None => ResolveThrows
      | Some value =>
          match kind with
          | KindProfiles =>
              ResolvedTo (if digits17 value then Some value else None)
          | KindId => viaVanity apiKeyParam value
          end
      end
  | None =>
      if digits17 input then ResolvedTo (Some input)
      else if allDigits input then ResolvedTo (Some input)
      else viaVanity apiKeyParam input
  end.

End ResolveOne.

(** ** The query *)

(** A value of [context.query]: missing, a string, or an array. *)
Inductive QueryValue : Type :=
| Absent
| One (s : str)
| Many (l : list str).

Definition asList (raw : QueryValue) : list str :=
  match raw with
  | One s => [s]
  | Many l => l
  | Absent => []
  end.

Record Account : Type := mkAccount {
  acc_steamId : str;
  acc_apiKey : str
}.

(** [apiKeys[idx] || apiKeys[0] || ""]; a missing element is falsy as the
    empty string is. *)
Definition keyFor (apiKeys : list str) (idx : nat) : str :=
  orStr (orStr (nth idx apiKeys []) (nth 0 apiKeys [])) [].

(** [steamIds.map((id, idx) => ...)] *)
Fixpoint mapi {A B : Type} (f : A -> nat -> B) (idx : nat) (l : list A) : list B :=
  match l with
  | [] => []
  | a :: l' => f a idx :: mapi f (S idx) l'
  end.

Definition initialAccountsOf (steamIds apiKeys : list str) : list Account :=
  mapi (fun id idx => mkAccount (orStr id []) (keyFor apiKeys idx)) 0 steamIds.

Record Pair : Type := mkPair {
  pair_input : str;
  pair_key : str
}.

Definition pairsOf (steamIds apiKeys : list str) : list Pair :=
  filter (fun p => truthy (pair_input p) && truthy (pair_key p))
    (mapi (fun id idx => mkPair (trim (orStr id [])) (trim (keyFor apiKeys idx)))
       0 steamIds).

(** ** Resolving the accounts *)

Record Resolved : Type := mkResolved {
  rp_id : str;
  rp_key : str
}.

(** [`无法解析: ${p.input}`] *)
Definition cannotResolve (input : str) : str :=
  [26080; 27861; 35299; 26512; 58; 32]%N ++ input.

(** The loop [for (const p of pairs)]; [None] when a [resolveOne] threw.
    [resolution k] is what [resolveOne] gave for the pair at index [k]. *)
Fixpoint resolveAll (resolution : nat -> Resolution) (k : nat) (pairs : list Pair)
    (resolvedPairs : list Resolved) (resolveErrors : list str)
  : option (list Resolved * list str) :=
  match pairs with
  | [] => Some (resolvedPairs, resolveErrors)
  | p :: pairs' =>
      match resolution k with
      | ResolveThrows => None
      | ResolvedTo id =>
          match id with
          | Some (c :: id') =>
              resolveAll resolution (S k) pairs'
                (resolvedPairs ++ [mkResolved (c :: id') (pair_key p)])
                resolveErrors
          | _ =>
              resolveAll resolution (S k) pairs' resolvedPairs
                (resolveErrors ++ [cannotResolve (pair_input p)])
          end
      end
  end.

(** ** The libraries *)

(** An element of [response.games]; [playtime_forever] may be missing. *)
Record RawGame : Type := mkRaw {
  raw_appid : Z;
  raw_name : string;
  raw_playtime : option Z
}.

(** What the request of [fetchOwned] came to: an exception with its
    [message], if it has one, or a body whose [response.games] is an array
    or not. *)
Inductive Fetched : Type :=
| FetchThrew (message : option str)
| FetchGave (games : option (list RawGame)).

(** An element of the array [Promise.allSettled] resolves to. *)
Inductive Settled : Type :=
| Fulfilled (value : list SteamGame)
| Rejected (message : option str).

Definition fetchOwned (f : Fetched) : Settled :=
  match f with
  | FetchThrew message => Rejected message
  | FetchGave None => Fulfilled []
  | FetchGave (Some games) =>
      Fulfilled
        (map (fun g =>
                mkGame (raw_appid g) (raw_name g)
                  (match raw_playtime g with Some p => p | None => 0 end))
           games)
  end.

(** The [Map] [aggregated], in insertion order.  A game whose id is there
    adds its playtime to the entry; a new id is appended. *)
Fixpoint absorb (g : SteamGame) (aggregated : list SteamGame) : list SteamGame :=
  match aggregated with
  | [] => [mkGame (appid g) (name g) (playtime_forever g)]
  | prev :: rest =>
      if appid prev =? appid g
      then mkGame (appid prev) (name prev)
             (playtime_forever prev + playtime_forever g) :: rest
      else prev :: absorb g rest
  end.

Definition absorbAll (games : list SteamGame) (aggregated : list SteamGame)
  : list SteamGame :=
  fold_left (fun agg g => absorb g agg) games aggregated.

(** [`账号 ${sid} 查询失败: ${msg}`] with
    [msg = String(reason?.message || "查询失败")] *)
Definition fetchFailed (sid : str) (message : option str) : str :=
  let msg :=
    match message with
    | Some (c :: m) => c :: m
    | _ => [26597; 35810; 22833; 36133]%N
    end in
  [36134; 21495; 32]%N ++ sid ++ [32; 26597; 35810; 22833; 36133; 58; 32]%N ++ msg.

(** [results.forEach((res, idx) => ...)] *)
Fixpoint collect (results : list Settled) (idx : nat) (resolvedPairs : list Resolved)
    (aggregated : list SteamGame) (fetchErrors : list str)
  : list SteamGame * list str :=
  match results with
  | [] => (aggregated, fetchErrors)
  | res :: results' =>
      let sid :=
        match nth_error resolvedPairs idx with
        | Some rp => rp_id rp
        | None => lit "undefined"
        end in
      match res with
      | Fulfilled games =>
          collect results' (S idx) resolvedPairs (absorbAll games aggregated)
            fetchErrors
      | Rejected message =>
          collect results' (S idx) resolvedPairs aggregated
            (fetchErrors ++ [fetchFailed sid message])
      end
  end.

(** ** Games with every achievement *)

Definition CONCURRENCY : nat := 6.

Definition LIMIT (aggregatedGames : list SteamGame) : nat :=
  Nat.min 50 (List.length aggregatedGames).

Definition MAX_REQUESTS (aggregatedGames : list SteamGame)
    (resolvedPairs : list Resolved) : nat :=
  Nat.min (LIMIT aggregatedGames * List.length resolvedPairs) 200.

Definition topGames (aggregatedGames : list SteamGame) : list SteamGame :=
  firstn (LIMIT aggregatedGames)
    (sortBy Tiered.byPlaytimeDesc aggregatedGames).

(** The array [tasks], each task with its index. *)
Definition tasksOf (aggregatedGames : list SteamGame)
    (resolvedPairs : list Resolved) : list (nat * (Z * Resolved)) :=
  let tasks :=
    flat_map (fun g => map (fun rp => (appid g, rp)) resolvedPairs)
      (topGames aggregatedGames) in
  combine (seq 0 (List.length tasks)) tasks.

(** [Set.prototype.add] *)
Definition addTo (a : Z) (s : list Z) : list Z :=
  if existsb (Z.eqb a) s then s else s ++ [a].

Record Gold : Type := mkGold {
  gold_i : nat;
  issued : nat;
  goldSet : list Z;
  seenApps : list Z
}.

(** The [while] loop.  [ok k] says that the check of the task at index
    [k] was fulfilled with [true].  Every turn adds [CONCURRENCY] to [i];
    [fuel] bounds the turns. *)
Fixpoint goldLoop (ok : nat -> bool) (tasks : list (nat * (Z * Resolved)))
    (maxRequests : nat) (fuel : nat) (st : Gold) : Gold :=
  match fuel with
  | O => st
  | S fuel' =>
      if (gold_i st <? List.length tasks)%nat && (issued st <? maxRequests)%nat
      then
        let batch :=
          filter (fun t => negb (existsb (Z.eqb (fst (snd t))) (seenApps st)))
            (firstn CONCURRENCY (skipn (gold_i st) tasks)) in
        let found := map (fun t => fst (snd t)) (filter (fun t => ok (fst t)) batch) in
        goldLoop ok tasks maxRequests fuel'
          (mkGold (gold_i st + CONCURRENCY)
                  (issued st + List.length batch)
                  (fold_left (fun s a => addTo a s) found (goldSet st))
                  (fold_left (fun s a => addTo a s) found (seenApps st)))
      else st
  end.

Definition goldAppidsOf (ok : nat -> bool) (aggregatedGames : list SteamGame)
    (resolvedPairs : list Resolved) : Gold :=
  let tasks := tasksOf aggregatedGames resolvedPairs in
  goldLoop ok tasks (MAX_REQUESTS aggregatedGames resolvedPairs)
    (S (List.length tasks)) (mkGold 0 0 [] []).

(** ** The props *)

Record Profile : Type := mkProfile {
  avatar : str;
  personaname : str
}.

Record Props : Type := mkProps {
  initialGames : list SteamGame;
  error : option str;
  initialSteamId : str;
  initialApiKey : str;
  initialAccounts : list Account;
  initialProfile : option Profile;
  goldAppids : list Z
}.

Section GetServerSideProps.
(** What [resolveOne] gave for the pair at an index, what the request of
    [fetchOwned] came to for the resolved account at an index, the profile
    the summary request gave, if any, and the achievement checks that were
    fulfilled with [true], by the index of the task. *)
Variable resolution : nat -> Resolution.
Variable fetched : nat -> Fetched.
Variable profile : option Profile.
Variable ok : nat -> bool.

(** [None]: the promise is rejected. *)
Definition getServerSideProps (rawSteamId rawApiKey : QueryValue) : option Props :=
  let steamIds := asList rawSteamId in
  let apiKeys := asList rawApiKey in
  let initialAccounts := initialAccountsOf steamIds apiKeys in
  let props (games : list SteamGame) (error : option str)
        (initialProfile : option Profile) (goldAppids : list Z) :=
    mkProps games error
      (match initialAccounts with a :: _ => orStr (acc_steamId a) [] | [] => [] end)
      (match initialAccounts with a :: _ => orStr (acc_apiKey a) [] | [] => [] end)
      initialAccounts initialProfile goldAppids in
  if (List.length steamIds =? 0)%nat || (List.length apiKeys =? 0)%nat
  then Some (props [] None None [])
  else
    let pairs := pairsOf steamIds apiKeys in
    match pairs with
    | [] =>
        Some (props []
                (Some [26410; 25552; 20379; 26377; 25928; 30340;
                       83; 116; 101; 97; 109; 36134; 21495]%N)
                None [])
    | _ :: _ =>
        match resolveAll resolution 0 pairs [] [] with
        | None => None
        | Some (resolvedPairs, resolveErrors) =>
            match resolvedPairs with
            | [] =>
                Some (props []
                        (Some (match resolveErrors with
                               | _ :: _ => join (lit "; ") resolveErrors
                               | [] =>
                                   [26080; 27861; 35299; 26512; 20219; 20309;
                                    83; 116; 101; 97; 109; 32; 73; 68]%N
                               end))
                        None [])
            | _ :: _ =>
                let results :=
                  mapi (fun _ idx => fetchOwned (fetched idx)) 0 resolvedPairs in
                let '(aggregatedGames, fetchErrors) :=
                  collect results 0 resolvedPairs [] [] in
                match aggregatedGames with
                | [] =>
                    Some (props []
                            (Some (match fetchErrors with
                                   | _ :: _ => join (lit "; ") fetchErrors
                                   | [] =>
                                       [26410; 25214; 21040; 20219; 20309;
                                        36134; 21495; 30340; 28216; 25103;
                                        65292; 35831; 26816; 26597; 38544;
                                        31169; 35774; 32622; 19982; 32593;
                                        32476; 12290]%N
                                   end))
                            None [])
                | _ :: _ =>
                    let error :=
                      match resolveErrors ++ fetchErrors with
                      | [] => None
                      | errors => Some (join (lit "; ") errors)
                      end in
                    Some (props aggregatedGames error profile
                            (goldSet (goldAppidsOf ok aggregatedGames resolvedPairs)))
                end
            end
        end
    end.

End GetServerSideProps.

(** *** Vocabulary of the properties *)

(** The games of the accounts whose request came through, in order. *)
Definition fulfilledGames (results : list Settled) : list SteamGame :=
  flat_map (fun res => match res with Fulfilled games => games | Rejected _ => [] end)
    results.

(** The minutes played of the game [id] in a list, all its entries added
    up, and the name of its first entry. *)
Definition playtimeOf (id : Z) (games : list SteamGame) : Z :=
  fold_right Z.add 0
    (map playtime_forever (filter (fun g => appid g =? id) games)).

Definition nameOf (id : Z) (games : list SteamGame) : option string :=
  option_map name (find (fun g => appid g =? id) games).

(** The ids of a list, each once, in the order they first come. *)
Definition idsOnce (ids : list Z) : list Z :=
  fold_left (fun s a => addTo a s) ids [].

Definition totalPlaytime (games : list SteamGame) : Z :=
  fold_right Z.add 0 (map playtime_forever games).

End Server.

(** * [fetchJsonWithRetry]

    The requests are outside: the loop is run on what each of them came
    to. *)
Module Retry.
Import Js.

Section Retry.
(** The type of a parsed body. *)
Variable J : Type.

(** What one turn of the loop met: [fetch] or [res.json()] threw an error
    [e], of which [e?.message] is kept; the response was not [ok]; or the
    body was parsed. *)
Inductive Attempt : Type :=
| Threw (message : option str)
| NotOk (status : Z) (statusText : str)
| Body (json : J).

(** How [fetchJsonWithRetry] ends: with the body, or throwing an error,
    kept as its message, or throwing [lastError] that is still [null]. *)
Inductive Outcome : Type :=
| Returned (json : J)
| Thrown (message : option str)
| ThrownNull.

(** [`HTTP ${res.status} ${res.statusText}`] *)
Definition httpMessage (status : Z) (statusText : str) : str :=
  lit "HTTP " ++ lit (NilZero.string_of_int (Z.to_int status))
    ++ lit " " ++ statusText.

(** [String(e?.message || "")] *)
Definition messageOf (message : option str) : str :=
  match message with Some m => orStr m [] | None => [] end.

Definition isTransient (msg : str) : bool :=
  includes msg (lit "AbortError") ||
  includes msg (lit "ECONNRESET") ||
  includes msg (lit "ETIMEDOUT") ||
  includes msg (lit "ENOTFOUND") ||
  includes msg (lit "network") ||
  includes msg (lit "NetworkError").

(** The error a failed turn catches, as its message. *)
Definition caught (a : Attempt) : option (option str) :=
  match a with
  | Threw message => Some message
  | NotOk status statusText => Some (Some (httpMessage status statusText))
  | Body _ => None
  end.

Record Run : Type := mkRun {
  outcome : Outcome;
  fetches : nat;
  sleeps : nat
}.

Variable attemptAt : Z -> Attempt.
Variable retries : Z.

(** The loop [for (let attempt = 0; attempt <= retries; attempt++)] from
    [attempt] on, with the number of requests made and of waits of 800 ms
    so far.  Every turn that goes on adds one to [attempt]; [fuel] bounds
    the turns. *)
Fixpoint loop (fuel : nat) (attempt : Z) (lastError : option (option str))
    (fetches sleeps : nat) : Run :=
  match fuel with
  | O =>
      mkRun (match lastError with Some m => Thrown m | None => ThrownNull end)
            fetches sleeps
  | S fuel' =>
      if attempt <=? retries then
        match attemptAt attempt with
        | Body json => mkRun (Returned json) (S fetches) sleeps
        | failed =>
            let e := match failed with
                     | Threw message => message
                     | NotOk status statusText =>
                         Some (httpMessage status statusText)
                     | Body _ => None
                     end in
            let msg := messageOf e in
            if negb (isTransient msg) || (attempt =? retries)
            then mkRun (Thrown e) (S fetches) sleeps
            else loop fuel' (attempt + 1) (Some e) (S fetches) (S sleeps)
        end
      else
        mkRun (match lastError with Some m => Thrown m | None => ThrownNull end)
              fetches sleeps
  end.

Definition fetchJsonWithRetry : Run :=
  loop (S (Z.to_nat (retries + 1))) 0 None 0 0.

(** [attempt] failed with an error the loop takes for a passing one. *)
Definition transientAt (attempt : Z) : Prop :=
  exists e, caught (attemptAt attempt) = Some e /\
            isTransient (messageOf e) = true.

End Retry.

End Retry.

(** * [drawCollage]: where things are drawn

    The numbers of the drawing code, in exact arithmetic. *)
Module Draw.
Local Open Scope Q_scope.

Definition Qlt_bool (a b : Q) : bool := negb (Qle_bool b a).

(** ** The cover, cropped to the cell *)



(** ** The playtime badge *)

(** [Math.round((game.playtime_forever || 0) / 60)] *)
Definition hoursOf (playtime_forever : Z) : Z :=
  jsRound (inject_Z playtime_forever / 60).

Definition showsBadge (playtime_forever : Z) : bool :=
  (500 <=? hoursOf playtime_forever)%Z.

Record Badge : Type := mkBadge {
  fontSize : Z;
  padding : Z;
  margin : Z;
  badgeW : Z;
  badgeH : Z;
  bx : Q;
  by_ : Q
}.

(** The badge of the cell at [(x, y)] of [cellW] by [cellH]; [textW] is
    [Math.ceil(metrics.width)], the measured width of the text. *)
Definition badge (x y cellW cellH : Q) (textW : Z) : Badge :=
  let base := Qmin cellW cellH in
  let fontSize := jsRound (Qmax 12 (Qmin 24 (base * (8 # 100)))) in
  let padding := jsRound (Qmax 4 (Qmin 12 (base * (3 # 100)))) in
  let badgeW := (textW + padding * 2)%Z in
  let badgeH := jsRound (inject_Z fontSize + inject_Z padding * (12 # 10)) in
  let margin := jsRound (Qmax 4 (base * (2 # 100))) in
  let centerX := x + cellW / 2 in
  let centerY := y + cellH * (66 # 100) in
  let bx := inject_Z (jsRound (centerX - inject_Z badgeW / 2)) in
  let by_ := inject_Z (jsRound (centerY - inject_Z badgeH / 2)) in
  let bx := if Qlt_bool bx (x + inject_Z margin) then x + inject_Z margin else bx in
  let bx :=
    if Qlt_bool (x + cellW - inject_Z margin) (bx + inject_Z badgeW)
    then x + cellW - inject_Z margin - inject_Z badgeW else bx in
  let by_ := if Qlt_bool by_ (y + inject_Z margin) then y + inject_Z margin else by_ in
  let by_ :=
    if Qlt_bool (y + cellH - inject_Z margin) (by_ + inject_Z badgeH)
    then y + cellH - inject_Z margin - inject_Z badgeH else by_ in
  mkBadge fontSize padding margin badgeW badgeH bx by_.

(** ** The gold frame *)

(** [lineWidth] and the rectangle given to [strokeRect]. *)
Record Frame : Type := mkFrame {
  lineWidth : Z;
  frameX : Q;
  frameY : Q;
  frameW : Q;
  frameH : Q
}.

Definition goldFrame (x y cellW cellH : Q) : Frame :=
  let t := Z.max 2 (jsRound (Qmin cellW cellH * (2 # 100))) in
  let inset := (t / 2 + 2)%Z in
  mkFrame t (x + inject_Z inset) (y + inject_Z inset)
    (cellW - inject_Z inset * 2) (cellH - inject_Z inset * 2).

(** ** The header bar *)

Definition pad : Z := 10.

(** [Math.max(40, headerInfoHeight - pad * 2)] *)
Definition avatarSize (headerInfoHeight : Z) : Z :=
  Z.max 40 (headerInfoHeight - pad * 2).

(** The top edge of the avatar: [(headerInfoHeight - avatarSize) / 2]. *)
Definition avatarY (headerInfoHeight : Z) : Q :=
  inject_Z (headerInfoHeight - avatarSize headerInfoHeight) / 2.

(** [textX = pad * 2 + avatarSize] *)
Definition textX (headerInfoHeight : Z) : Z :=
  (pad * 2 + avatarSize headerInfoHeight)%Z.

(** The [Map] [uniqueGames], in insertion order: the first rectangle of
    every id, with its album URL and name. *)
Definition remember (game : Tiered.LayoutGame)
    (uniqueGames : list (Z * (string * string))) : list (Z * (string * string)) :=
  if existsb (fun entry => (fst entry =? appid (Tiered.lg_game game))%Z) uniqueGames
  then uniqueGames
  else uniqueGames
         ++ [(appid (Tiered.lg_game game),
              (Tiered.albumUrl game, name (Tiered.lg_game game)))].

Definition entriesOf (layoutGames : list Tiered.LayoutGame)
  : list (Z * (string * string)) :=
  fold_left (fun uniqueGames game => remember game uniqueGames) layoutGames [].

(** [uniqueCount], the number of games the header shows *)
Definition uniqueCount (layoutGames : list Tiered.LayoutGame) : nat :=
  List.length (entriesOf layoutGames).

(** [initialGames.reduce((acc, g) => acc + (g.playtime_forever || 0), 0)] *)
Definition totalPlayMinutes (initialGames : list SteamGame) : Z :=
  fold_left (fun acc g => (acc + playtime_forever g)%Z) initialGames 0%Z.

(** [Math.round(totalPlayMinutes / 60)] *)
Definition totalHours (initialGames : list SteamGame) : Z :=
  jsRound (inject_Z (totalPlayMinutes initialGames) / 60).

End Draw.

(** * The form *)
Module Form.
Import Js.

(** The state [accounts]: the [steamId] of every row.  It starts from the
    accounts of the props when there are any, else from one row. *)
Definition initialState (initialAccounts : option (list Server.Account))
    (initialSteamId : str) : list str :=
  match initialAccounts with
  | Some (a :: l) => map Server.acc_steamId (a :: l)
  | _ => [orStr initialSteamId []]
  end.

Definition addAccount (accounts : list str) : list str := accounts ++ [[]].

(** [accounts.filter((_, i) => i !== idx)], from index [i] on *)
Fixpoint removeFrom (i idx : nat) (accounts : list str) : list str :=
  match accounts with
  | [] => []
  | a :: l =>
      if Nat.eqb i idx then removeFrom (S i) idx l
      else a :: removeFrom (S i) idx l
  end.

Definition removeAccount (idx : nat) (accounts : list str) : list str :=
  removeFrom 0 idx accounts.

Definition updateAccount (idx : nat) (value : str) (accounts : list str)
  : list str :=
  Server.mapi (fun a i => if Nat.eqb i idx then value else a) 0 accounts.

Definition canSubmit (globalApiKey : str) (accounts : list str) : bool :=
  truthy (trim globalApiKey)
  && (0 <? List.length accounts)%nat
  && forallb (fun a => truthy (trim a)) accounts.

(** What [handleSubmit] does: it shows a message and returns, or it
    pushes the route with the query. *)
Inductive Submitted : Type :=
| Refused
| Pushed (steamId : list str) (apiKey : str).

Definition handleSubmit (globalApiKey : str) (accounts : list str) : Submitted :=
  let normalizedSteamIds := filter truthy (map trim accounts) in
  let key := trim globalApiKey in
  if (List.length normalizedSteamIds =? 0)%nat || negb (truthy key)
  then Refused
  else Pushed normalizedSteamIds key.

(** What the user can do to the rows: the button that removes a row is
    drawn for the rows after the first. *)
Inductive Action : Type :=
| Add
| Remove (idx : nat)
| Update (idx : nat) (value : str).

Definition offered (accounts : list str) (a : Action) : bool :=
  match a with
  | Add => true
  | Remove idx => (0 <? idx)%nat && (idx <? List.length accounts)%nat
  | Update idx _ => (idx <? List.length accounts)%nat
  end.

Definition act (accounts : list str) (a : Action) : list str :=
  match a with
  | Add => addAccount accounts
  | Remove idx => removeAccount idx accounts
  | Update idx value => updateAccount idx value accounts
  end.

(** The actions of a list are offered one after the other. *)
Fixpoint allOffered (accounts : list str) (actions : list Action) : bool :=
  match actions with
  | [] => true
  | a :: actions' => offered accounts a && allOffered (act accounts a) actions'
  end.

End Form.

(** * Order *)

(** [l'] is [l] with some elements taken out, the rest in their order. *)
Inductive subseq {A : Type} : list A -> list A -> Prop :=
| subseq_nil : subseq [] []
| subseq_skip (a : A) (l' l : list A) : subseq l' l -> subseq l' (a :: l)
| subseq_take (a : A) (l' l : list A) : subseq l' l -> subseq (a :: l') (a :: l).

(** * The tiered packer: more vocabulary *)
Module Grid.
Import Tiered.

(** What a drawn rectangle shows of the sized item it was made from, and
    the same read off the item: the game, the two sides, and the album URL
    of the id. *)
Definition drawnAs (g : LayoutGame) : SteamGame * Z * Z * string :=
  (lg_game g, lg_width g, lg_height g, albumUrl g).

Definition toDraw (it : Prepared) : SteamGame * Z * Z * string :=
  (it_game it, it_width it, it_height it, buildAlbumUrl (appid (it_game it))).

Section Grid.
Variable bw bh hdr : Z.

(** The corner of a rectangle sits on the grid of unit cells hung below
    the header strip. *)
Definition aligned (r : Rect) : Prop := (bw | x r) /\ (bh | y r - hdr).

(** The sides of an item are whole numbers of unit cells. *)
Definition unitSized (it : Prepared) : Prop :=
  (bw | it_width it) /\ (bh | it_height it).

End Grid.

(** No rectangle of the list lies within another one of the list. *)
Definition noneContained (l : list FreeRect) : Prop :=
  forall l1 a l2, l = l1 ++ a :: l2 ->
    existsb (fun rj => contains (shape rj) (shape a)) (l1 ++ l2) = false.

End Grid.


(** * Doubles

    JavaScript numbers are IEEE 754 binary64 numbers.  Where the rounding
    of a sum, a difference, a product, a quotient or a root decides what
    the code does, the model computes on Rocq's primitive floats: the same
    numbers, with the same correctly rounded operations and the same
    comparisons ([NaN] compares false with everything). *)
Module Doubles.

Abbreviation float := PrimFloat.float.

(** An integer as a number: the double nearest to it. *)
Definition ofZ (z : Z) : float :=
  FloatOps.SF2Prim
    (SpecFloat.binary_normalize FloatOps.prec FloatOps.emax z 0 false).

(** The rational a double is, when it is a number: [None] for [NaN] and the
    two infinities. *)
Definition exact (f : float) : option Q :=
  match FloatOps.Prim2SF f with
  | SpecFloat.S754_zero _ => Some 0%Q
  | SpecFloat.S754_finite s m e =>
      Some (Qred ((if s then -1 else 1) * inject_Z (Zpos m) * Qpower 2 e))%Q
  | SpecFloat.S754_infinity _ => None
  | SpecFloat.S754_nan => None
  end.

(** How [Array.prototype.sort] reads what a comparator returns: negative,
    positive, or neither ([NaN] counts as zero). *)
Definition sgnD (v : float) : comparison :=
  if PrimFloat.ltb v (ofZ 0) then Lt
  else if PrimFloat.ltb (ofZ 0) v then Gt
  else Eq.

End Doubles.

(** * The naive version, in doubles

    The second [layoutGames] of the file, line by line, on doubles: the
    size formula with its [Math.sqrt], the sort, the scan for the best free
    rectangle and the split.  [Module Naive] above is the same packer on
    exact rationals. *)
Module NaiveD.
Import Doubles.
Import PrimFloat.PrimFloatNotations.
Local Open Scope float_scope.

(** [type Rect = { x; y; width; height }] *)
Record Rect : Type := mkRect {
  x : float;
  y : float;
  width : float;
  height : float
}.

(** The elements of [items]: [{ ...game, width, height, albumUrl }]. *)
Record SizedGame : Type := mkSized {
  sg_game : SteamGame;
  sg_width : float;
  sg_height : float;
  sg_albumUrl : string
}.

(** The elements of [results]: [{ ...game, x, y }]. *)
Record LayoutGame : Type := mkLayout {
  lg_item : SizedGame;
  lg_x : float;
  lg_y : float
}.

(** The body of [initialGames.map(game => ...)]. *)
Definition sizeOf (game : SteamGame) : SizedGame :=
  let aspectRatio := ofZ 2 / ofZ 3 in
  let area := (ofZ (playtime_forever game) / ofZ 100) * ofZ 20 in
  let height := PrimFloat.sqrt (area / aspectRatio) in
  let width := height * aspectRatio in
  mkSized game width height (buildAlbumUrl (appid game)).

(** [(a, b) => b.height - a.height] *)
Definition byHeightDesc (a b : SizedGame) : comparison :=
  sgnD (sg_height b - sg_height a).

(** The scan [for (let i = 0; i < freeRects.length; i++)].  [best] is
    [bestScore] with [(bestRectIndex, bestNode)]; the latter is [None] for
    [bestRectIndex = -1, bestNode = null]. *)
Fixpoint scan (game : SizedGame) (frs : list Rect) (i : nat)
    (best : float * option (nat * Rect)) : float * option (nat * Rect) :=
  match frs with
  | [] => best
  | freeRect :: frs' =>
      let best' :=
        if (sg_width game <=? width freeRect)
           && (sg_height game <=? height freeRect)
        then
          let score :=
            width freeRect * height freeRect - sg_width game * sg_height game in
          if score <? fst best
          then (score,
                Some (i, mkRect (x freeRect) (y freeRect)
                           (sg_width game) (sg_height game)))
          else best
        else best in
      scan game frs' (S i) best'
  end.

(** [let bestScore = Infinity; let bestRectIndex = -1; let bestNode = null],
    then the scan. *)
Definition chosen (game : SizedGame) (frs : list Rect) : option (nat * Rect) :=
  snd (scan game frs 0 (PrimFloat.infinity, None)).

(** The rectangles pushed after a placement. *)
Definition newFreeRects (bestNode toSplit : Rect) : list Rect :=
  let canSplitHorizontally := width bestNode <? width toSplit in
  let canSplitVertically := height bestNode <? height toSplit in
  (if canSplitHorizontally
   then [mkRect (x toSplit + width bestNode) (y toSplit)
                (width toSplit - width bestNode) (height toSplit)]
   else [])
  ++
  (if canSplitVertically
   then [mkRect (x toSplit) (y toSplit + height bestNode)
                (if canSplitHorizontally then width bestNode else width toSplit)
                (height toSplit - height bestNode)]
   else []).

Record Pack : Type := mkPack {
  freeRects : list Rect;
  results : list LayoutGame
}.

(** The body of [for (const game of items)].  [freeRects.splice(i, 1)[0]]
    is the element at [i]; the scan only returns an index of the array. *)
Definition placeStep (st : Pack) (game : SizedGame) : Pack :=
  match chosen game (freeRects st) with
  | None => st
  | Some (bestRectIndex, bestNode) =>
      match nth_error (freeRects st) bestRectIndex with
      | None => st
      | Some toSplit =>
          mkPack (removeAt bestRectIndex (freeRects st)
                    ++ newFreeRects bestNode toSplit)
                 (results st ++ [mkLayout game (x bestNode) (y bestNode)])
      end
  end.

(** The loop over [items], in the order the sort left them. *)
Definition packLoop (items : list SizedGame) (LAYOUT_WIDTH LAYOUT_HEIGHT : float)
    : Pack :=
  fold_left placeStep items
    (mkPack [mkRect (ofZ 0) (ofZ 0) LAYOUT_WIDTH LAYOUT_HEIGHT] []).

(** [layoutGames].  The comparator of the sort is consistent when no height
    is [NaN], that is when no playtime is negative; the sort is then the
    stable sort [sortBy]. *)
Definition layoutGames (initialGames : list SteamGame)
    (canvasDimensions : Z * Z) : list LayoutGame :=
  match initialGames with
  | [] => []
  | _ :: _ =>
      let LAYOUT_WIDTH := ofZ (fst canvasDimensions) in
      let LAYOUT_HEIGHT := ofZ (snd canvasDimensions) in
      let items := sortBy byHeightDesc (map sizeOf initialGames) in
      results (packLoop items LAYOUT_WIDTH LAYOUT_HEIGHT)
  end.

(** *** Vocabulary of the properties *)

(** The remainders of a free rectangle [fr] after an item of [w] by [h]
    is put in its corner: the right one [(x + w, y, W - w, H)], of the full
    height, when [w < W]; the bottom one [(x, y + h, w', H - h)] when
    [h < H], as wide as the item when there is a right one and of the full
    width otherwise.  Sums and differences are those of doubles. *)
Definition remainders (fr : Rect) (w h : float) : list Rect :=
  (if w <? width fr
   then [mkRect (x fr + w) (y fr) (width fr - w) (height fr)] else [])
  ++
  (if h <? height fr
   then [mkRect (x fr) (y fr + h)
                (if w <? width fr then w else width fr)
                (height fr - h)]
   else []).

(** A rectangle of doubles as the rectangle of rationals it is. *)
Definition exactRect (r : Rect) : option Naive.Rect :=
  match exact (x r), exact (y r), exact (width r), exact (height r) with
  | Some a, Some b, Some c, Some d => Some (Naive.mkRect a b c d)
  | _, _, _, _ => None
  end.

Definition rectOf (g : LayoutGame) : Rect :=
  mkRect (lg_x g) (lg_y g) (sg_width (lg_item g)) (sg_height (lg_item g)).

End NaiveD.

(** * The jitter of the first phase

    [rnd: Math.abs(Math.sin((it.game.appid || 0) * RANDOM_SEED))] with
    [RANDOM_SEED = 1337.123].  The product is that of doubles.  [Math.sin]
    is the engine's: a function from doubles to doubles, which the model
    takes as it is given.  An id is an integer here, so [appid || 0] is the
    id. *)
Module Jitter.
Import PrimFloat.
Import Doubles.

#[warnings="-inexact-float"]
Definition RANDOM_SEED : float := Eval cbv in 1337.123%float.

Section Engine.
Variable Math_sin : float -> float.

Definition rndOf (appid : Z) : float :=
  PrimFloat.abs (Math_sin (PrimFloat.mul (ofZ appid) RANDOM_SEED)).

(** [rnd] as the rational it is; the sine of a number is a number. *)
Definition rnd (appid : Z) : Q :=
  match exact (rndOf appid) with
  | Some q => q
  | None => 0%Q
  end.

End Engine.
End Jitter.

(** * [layoutGames] and the array it is given

    [initialGames] is an array object that the page holds and hands to
    every run of the memo; arrays are mutable, and [sort] sorts in place.
    Arrays of games live in a heap and are named by reference; the run is
    a function of the heap that returns the heap it leaves. *)
Module Run.

Definition Ref : Type := nat.
Definition Heap : Type := list (list SteamGame).

Definition deref (h : Heap) (r : Ref) : list SteamGame := nth r h [].

Fixpoint assign (r : Ref) (a : list SteamGame) (h : Heap) : Heap :=
  match h, r with
  | [], _ => []
  | _ :: h', O => a :: h'
  | b :: h', S r' => b :: assign r' a h'
  end.

(** A computation on the heap. *)
Definition M (A : Type) : Type := Heap -> A * Heap.

Definition ret {A : Type} (a : A) : M A := fun h => (a, h).

Definition bind {A B : Type} (m : M A) (f : A -> M B) : M B :=
  fun h => let (a, h') := m h in f a h'.

Notation "x <- m ;; f" := (bind m (fun x => f))
  (at level 61, m at next level, right associativity).

(** Reading the elements of an array. *)
Definition elements (r : Ref) : M (list SteamGame) := fun h => (deref h r, h).

(** [[...a]]: a new array with the elements of [a]. *)
Definition spread (r : Ref) : M Ref :=
  fun h => (List.length h, h ++ [deref h r]).

(** [a.sort(cmp)]: sorts [a] in place and returns [a]. *)
Definition sortInPlace (cmp : SteamGame -> SteamGame -> comparison) (r : Ref)
  : M Ref :=
  fun h => (r, assign r (sortBy cmp (deref h r)) h).

(** [items] from [baseList]: the tiers, sorted. *)
Definition tierItemsOf (baseList : list SteamGame) : list Tiered.TierItem :=
  let maxTime := Tiered.maxTimeOf baseList in
  sortBy Tiered.byPlaytimeThenMult
    (map (fun g => Tiered.mkItem g (Tiered.multOf maxTime (playtime_forever g)))
       baseList).

(** The memo body from [baseList] on; it builds arrays of its own and
    reads the games of [baseList] only. *)
Definition fromBaseList (jitter : Z -> Q) (baseList : list SteamGame)
    (canvasDimensions : Z * Z) : list Tiered.LayoutGame :=
  match baseList with
  | [] => []
  | _ :: _ =>
      let items := tierItemsOf baseList in
      let '(baseUnitWidth, baseUnitHeight) :=
        Tiered.unitCell items canvasDimensions in
      Tiered.f_results
        (Tiered.pack (fst canvasDimensions) (snd canvasDimensions)
           baseUnitWidth baseUnitHeight jitter items)
  end.

(** The memo body of [layoutGames]. *)
Definition layoutGames (jitter : Z -> Q) (initialGames : Ref)
    (canvasDimensions : Z * Z) : M (list Tiered.LayoutGame) :=
  games <- elements initialGames ;;
  match games with
  | [] => ret []
  | _ :: _ =>
      copy <- spread initialGames ;;
      sorted <- sortInPlace Tiered.byPlaytimeDesc copy ;;
      baseList <- elements sorted ;;
      ret (fromBaseList jitter baseList canvasDimensions)
  end.

(** Two runs, one after the other, on the heap the first one left. *)
Definition twice (jitter : Z -> Q) (initialGames : Ref)
    (canvasDimensions : Z * Z)
  : M (list Tiered.LayoutGame * list Tiered.LayoutGame) :=
  first <- layoutGames jitter initialGames canvasDimensions ;;
  second <- layoutGames jitter initialGames canvasDimensions ;;
  ret (first, second).

End Run.

(** * Libraries on which rounding shows *)
Module Rounding.

(** Three games, and ten, each on the canvas of its number of games. *)
Definition three : list SteamGame :=
  [ mkGame 1 "one" 32355; mkGame 2 "two" 3864; mkGame 3 "three" 14301 ].

Definition ten : list SteamGame :=
  [ mkGame 1 "one" 144406; mkGame 2 "two" 143534; mkGame 3 "three" 131629;
    mkGame 4 "four" 131284; mkGame 5 "five" 130186; mkGame 6 "six" 127488;
    mkGame 7 "seven" 127251; mkGame 8 "eight" 126495; mkGame 9 "nine" 92447;
    mkGame 10 "ten" 82436 ].

Definition canvasOf (games : list SteamGame) : Z * Z :=
  calculateCanvasDimensions (Z.of_nat (List.length games)).

End Rounding.


(** * Facts about lists *)

Section PairwiseFacts.
Context {A : Type}.
Variable R : A -> A -> Prop.
Hypothesis R_sym : forall a b, R a b -> R b a.

Lemma pairwise_app (l1 l2 : list A) :
  pairwise R (l1 ++ l2) <->
  pairwise R l1 /\ pairwise R l2 /\ Forall (fun a => Forall (R a) l2) l1.
Proof.
  induction l1 as [|a l1 IH]; simpl.
  - intuition.
  - rewrite Forall_app, IH. split.
    + intros [[H1 H2] (H3 & H4 & H5)]. repeat split; auto.
    + intros ((H1 & H2) & H3 & H4). inversion H4; subst. repeat split; auto.
Qed.

Lemma pairwise_Permutation (l l' : list A) :
  Permutation l l' -> pairwise R l -> pairwise R l'.
Proof.
  induction 1 as [|a l l' Hp IH|a b l|l l' l'' _ IH1 _ IH2]; simpl; auto.
  - intros [H1 H2]. split; auto. eapply Permutation_Forall; eauto.
  - intros [H1 [H2 H3]]. inversion H1; subst. repeat split; auto.
Qed.

Lemma pairwise_subPerm (l l' : list A) :
  subPerm l' l -> pairwise R l -> pairwise R l'.
Proof.
  intros [d Hd] H. apply (pairwise_Permutation _ _ Hd) in H.
  apply pairwise_app in H. tauto.
Qed.

Lemma pairwise_nth_error (l : list A) :
  pairwise R l ->
  forall i j a b, i <> j ->
    nth_error l i = Some a -> nth_error l j = Some b -> R a b.
Proof.
  induction l as [|c l IH]; intros Hl i j a b Hij Hi Hj.
  - destruct i; discriminate.
  - destruct Hl as [Hc Hl]. rewrite Forall_forall in Hc.
    destruct i as [|i], j as [|j]; simpl in Hi, Hj.
    + congruence.
    + inversion Hi; subst. apply Hc. eapply nth_error_In; eauto.
    + inversion Hj; subst. apply R_sym, Hc. eapply nth_error_In; eauto.
    + apply (IH Hl i j); auto.
Qed.

End PairwiseFacts.

Section SubPermFacts.
Context {A : Type}.

Lemma subPerm_refl (l : list A) : subPerm l l.
Proof. exists []. now rewrite app_nil_r. Qed.

Lemma subPerm_perm (l l' : list A) : Permutation l l' -> subPerm l' l.
Proof. intros H. exists []. now rewrite app_nil_r. Qed.

Lemma subPerm_trans (l1 l2 l3 : list A) :
  subPerm l1 l2 -> subPerm l2 l3 -> subPerm l1 l3.
Proof.
  intros [d1 H1] [d2 H2]. exists (d1 ++ d2).
  rewrite H2, H1. now rewrite app_assoc.
Qed.

Lemma subPerm_app (l1 l1' l2 l2' : list A) :
  subPerm l1' l1 -> subPerm l2' l2 -> subPerm (l1' ++ l2') (l1 ++ l2).
Proof.
  intros [d1 H1] [d2 H2]. exists (d1 ++ d2).
  rewrite H1, H2. rewrite <- !app_assoc. apply Permutation_app_head.
  rewrite !app_assoc. apply Permutation_app_tail. apply Permutation_app_comm.
Qed.

Lemma subPerm_nil (l : list A) : subPerm [] l.
Proof. exists l. reflexivity. Qed.

Lemma subPerm_Forall (P : A -> Prop) (l l' : list A) :
  subPerm l' l -> Forall P l -> Forall P l'.
Proof.
  intros [d Hd] H. apply (Permutation_Forall Hd) in H.
  apply Forall_app in H. tauto.
Qed.

Lemma subPerm_map {B : Type} (f : A -> B) (l l' : list A) :
  subPerm l' l -> subPerm (map f l') (map f l).
Proof.
  intros [d Hd]. exists (map f d). rewrite <- map_app. now apply Permutation_map.
Qed.

Lemma subPerm_NoDup (l l' : list A) : subPerm l' l -> NoDup l -> NoDup l'.
Proof.
  intros [d Hd] H. apply (Permutation_NoDup Hd) in H.
  now apply NoDup_app_remove_r in H.
Qed.

Lemma removeAt_Permutation (l : list A) :
  forall i a, nth_error l i = Some a -> Permutation l (a :: removeAt i l).
Proof.
  induction l as [|b l IH]; intros [|i] a H; simpl in *; try discriminate.
  - inversion H; subst. reflexivity.
  - rewrite (IH i a H) at 1. apply perm_swap.
Qed.

Lemma removeAt_length (l : list A) :
  forall i a, nth_error l i = Some a -> S (List.length (removeAt i l)) = List.length l.
Proof.
  intros i a H. apply removeAt_Permutation in H.
  apply Permutation_length in H. simpl in H. congruence.
Qed.

End SubPermFacts.

Section SortFacts.
Context {A : Type}.
Variable cmp : A -> A -> comparison.

Lemma insertBy_Permutation (a : A) (l : list A) :
  Permutation (insertBy cmp a l) (a :: l).
Proof.
  induction l as [|b l IH]; simpl; auto.
  destruct (cmp a b); auto.
  rewrite IH. apply perm_swap.
Qed.

Lemma sortBy_Permutation (l : list A) : Permutation (sortBy cmp l) l.
Proof.
  induction l as [|a l IH]; simpl; auto.
  rewrite insertBy_Permutation. now constructor.
Qed.

End SortFacts.

(** * The tiered version: geometry and bookkeeping *)
Module TieredFacts.
Import Tiered.

Lemma separated_sym (a b : Rect) : separated a b -> separated b a.
Proof. unfold separated. tauto. Qed.

Lemma separated_inside (outer inner c : Rect) :
  inside outer inner -> separated outer c -> separated inner c.
Proof. unfold inside, separated. lia. Qed.

Lemma inside_refl (r : Rect) : inside r r.
Proof. unfold inside. lia. Qed.

Lemma inside_trans (a b c : Rect) : inside a b -> inside b c -> inside a c.
Proof. unfold inside. lia. Qed.

Lemma separated_apart (a b : Rect) : separated a b -> ~ interiorsMeet a b.
Proof.
  intros Hs (px & py & (A1 & A2 & A3 & A4) & (B1 & B2 & B3 & B4)).
  destruct Hs as [Hs|[Hs|[Hs|Hs]]]; rewrite Zle_Qle in Hs.
  - apply (Qlt_irrefl px). eapply Qlt_trans; [apply A2|].
    eapply Qle_lt_trans; eauto.
  - apply (Qlt_irrefl px). eapply Qlt_trans; [apply B2|].
    eapply Qle_lt_trans; eauto.
  - apply (Qlt_irrefl py). eapply Qlt_trans; [apply A4|].
    eapply Qle_lt_trans; eauto.
  - apply (Qlt_irrefl py). eapply Qlt_trans; [apply B4|].
    eapply Qle_lt_trans; eauto.
Qed.

(** Splitting one member of a pairwise separated family into separated
    pieces keeps the family pairwise separated. *)
Lemma pairwise_refine (t : Rect) (pieces l : list Rect) :
  pairwise separated (t :: l) ->
  Forall (inside t) pieces ->
  pairwise separated pieces ->
  pairwise separated (pieces ++ l).
Proof.
  intros [Ht Hl] Hin Hp. apply pairwise_app. repeat split; auto.
  rewrite Forall_forall in Hin, Ht. apply Forall_forall. intros p Hp'.
  apply Forall_forall. intros c Hc.
  eapply separated_inside; eauto.
Qed.

(** ** The store *)

Lemma pruneLoop_subPerm (rest : list FreeRect) :
  forall kept, subPerm (pruneLoop kept rest) (kept ++ rest).
Proof.
  induction rest as [|ri rest IH]; intros kept; simpl.
  - rewrite app_nil_r. apply subPerm_refl.
  - destruct (existsb _ _).
    + eapply subPerm_trans; [apply IH|].
      exists [ri]. rewrite <- app_assoc. apply Permutation_app_head.
      change (ri :: rest) with ([ri] ++ rest). apply Permutation_app_comm.
    + specialize (IH (kept ++ [ri])). now rewrite <- app_assoc in IH.
Qed.

Lemma pruneFreeRects_subPerm (st : Store) :
  subPerm (freeRects (pruneFreeRects st)) (freeRects st).
Proof. apply (pruneLoop_subPerm (freeRects st) []). Qed.

Lemma addFreeRect_cases (r : Rect) (st : Store) :
  addFreeRect r st = st \/
  (0 < width r /\ 0 < height r /\
   addFreeRect r st = mkStore (freeRects st ++ [mkFree (nextOid st) r]) (S (nextOid st))).
Proof.
  unfold addFreeRect, push.
  destruct (width r <=? 0) eqn:E1; simpl; auto.
  destruct (height r <=? 0) eqn:E2; simpl; auto.
  right. repeat split; lia.
Qed.

Lemma addFreeRect_subPerm (r : Rect) (st : Store) :
  subPerm (map shape (freeRects (addFreeRect r st)))
          (map shape (freeRects st) ++ [r]).
Proof.
  destruct (addFreeRect_cases r st) as [E|(_ & _ & E)]; rewrite E; simpl.
  - exists [r]. reflexivity.
  - rewrite map_app. apply subPerm_refl.
Qed.

Lemma idsOk_sub (l : list FreeRect) (st : Store) :
  subPerm l (freeRects st) -> idsOk st -> idsOk (mkStore l (nextOid st)).
Proof.
  intros Hs [H1 H2]. split; simpl.
  - eapply subPerm_NoDup; [apply subPerm_map; eauto|auto].
  - eapply subPerm_Forall; eauto.
Qed.

Lemma pruneFreeRects_idsOk (st : Store) : idsOk st -> idsOk (pruneFreeRects st).
Proof. apply idsOk_sub, pruneFreeRects_subPerm. Qed.

Lemma addFreeRect_idsOk (r : Rect) (st : Store) :
  idsOk st -> idsOk (addFreeRect r st).
Proof.
  intros [H1 H2].
  destruct (addFreeRect_cases r st) as [E|(_ & _ & E)]; rewrite E; [split; auto|].
  split; simpl.
  - rewrite map_app. simpl.
    apply (Permutation_NoDup (Permutation_app_comm [nextOid st] _)). simpl.
    constructor; auto. rewrite in_map_iff. intros (f & Hf & Hin).
    rewrite Forall_forall in H2. specialize (H2 f Hin). lia.
  - apply Forall_app. split.
    + eapply Forall_impl; [|apply H2]. simpl. intros; lia.
    + repeat constructor.
Qed.

Lemma spliceOut_Permutation (l : list FreeRect) (f : FreeRect) :
  NoDup (map oid l) -> In f l -> Permutation l (f :: spliceOut (oid f) l).
Proof.
  induction l as [|g l IH]; simpl; intros Hn Hin; [tauto|].
  inversion Hn as [|? ? Hg Hn']; subst.
  destruct (Nat.eqb (oid g) (oid f)) eqn:E.
  - apply Nat.eqb_eq in E. destruct Hin as [->|Hin]; auto.
    exfalso. apply Hg. rewrite E. now apply in_map.
  - destruct Hin as [->|Hin].
    + rewrite Nat.eqb_refl in E. discriminate.
    + rewrite (IH Hn' Hin) at 1. apply perm_swap.
Qed.

Lemma spliceOut_subPerm (l : list FreeRect) (o : nat) :
  subPerm (spliceOut o l) l.
Proof.
  induction l as [|g l IH]; simpl.
  - apply subPerm_refl.
  - destruct (Nat.eqb (oid g) o).
    + exists [g]. change (g :: l) with ([g] ++ l). apply Permutation_app_comm.
    + apply (subPerm_app [g] [g] l (spliceOut o l)); auto. apply subPerm_refl.
Qed.

Lemma forget_idsOk (fr : FreeRect) (st : Store) : idsOk st -> idsOk (forget fr st).
Proof. apply idsOk_sub, spliceOut_subPerm. Qed.

(** ** Choosing a free rectangle *)

Section PackerFacts.
Variable LAYOUT_WIDTH LAYOUT_HEIGHT : Z.
Variable baseUnitWidth baseUnitHeight : Z.
Variable jitter : Z -> Q.

Set Default Proof Using "Type".

Abbreviation fitScore := (fitScore LAYOUT_WIDTH).
Abbreviation firstBest := (firstBest LAYOUT_WIDTH).
Abbreviation region := (region LAYOUT_WIDTH LAYOUT_HEIGHT).
Abbreviation tiling := (tiling LAYOUT_WIDTH LAYOUT_HEIGHT).
Abbreviation packOk := (packOk LAYOUT_WIDTH LAYOUT_HEIGHT).
Abbreviation rowOk := (rowOk LAYOUT_WIDTH LAYOUT_HEIGHT).
Abbreviation shelfOk := (shelfOk LAYOUT_WIDTH LAYOUT_HEIGHT).
Abbreviation shelfDone := (shelfDone LAYOUT_WIDTH LAYOUT_HEIGHT).
Abbreviation fillOk := (fillOk LAYOUT_WIDTH LAYOUT_HEIGHT).
Abbreviation chooseStep := (chooseStep LAYOUT_WIDTH).
Abbreviation chooseBestRect := (chooseBestRect LAYOUT_WIDTH).
Abbreviation header := (headerInfoHeight LAYOUT_HEIGHT).
Abbreviation placeStep := (placeStep LAYOUT_WIDTH).
Abbreviation phase1 := (phase1 LAYOUT_WIDTH LAYOUT_HEIGHT).
Abbreviation fillRow := (fillRow baseUnitWidth).
Abbreviation shelfLoop := (shelfLoop baseUnitWidth baseUnitHeight).
Abbreviation fillRectWithShelf := (fillRectWithShelf baseUnitWidth baseUnitHeight).
Abbreviation phase2 := (phase2 baseUnitWidth baseUnitHeight).
Abbreviation packPrepared :=
  (packPrepared LAYOUT_WIDTH LAYOUT_HEIGHT baseUnitWidth baseUnitHeight).
Abbreviation pack :=
  (pack LAYOUT_WIDTH LAYOUT_HEIGHT baseUnitWidth baseUnitHeight jitter).

Lemma chooseStep_eligible (w h : Z) (best : option (Z * FreeRect)) (fr : FreeRect) :
  eligible w h fr ->
  chooseStep w h best fr =
    match best with
    | None => Some (fitScore w h (shape fr), fr)
    | Some (bestScore, _) =>
        if fitScore w h (shape fr) <? bestScore
        then Some (fitScore w h (shape fr), fr) else best
    end.
Proof.
  intros [H1 H2]. unfold Tiered.chooseStep.
  apply Z.leb_le in H1, H2. now rewrite H1, H2.
Qed.

Lemma chooseStep_not_eligible (w h : Z) (best : option (Z * FreeRect)) (fr : FreeRect) :
  ~ eligible w h fr -> chooseStep w h best fr = best.
Proof.
  intros H. unfold Tiered.chooseStep.
  destruct (w <=? width (shape fr)) eqn:E1; auto.
  destruct (h <=? height (shape fr)) eqn:E2; auto.
  exfalso. apply H. split; lia.
Qed.

Lemma eligible_dec (w h : Z) (fr : FreeRect) :
  eligible w h fr \/ ~ eligible w h fr.
Proof. unfold eligible. lia. Qed.

Lemma firstBest_step (w h : Z) (pre : list FreeRect) (best : option (Z * FreeRect))
    (fr : FreeRect) :
  firstBest w h pre best ->
  firstBest w h (pre ++ [fr]) (chooseStep w h best fr).
Proof.
  intros Hb. destruct (eligible_dec w h fr) as [He|He].
  - rewrite chooseStep_eligible by assumption.
    assert (Hnew : forall s, s = fitScore w h (shape fr) ->
              (forall j u, (j < List.length pre)%nat -> nth_error pre j = Some u ->
                 eligible w h u -> s < fitScore w h (shape u)) ->
              firstBest w h (pre ++ [fr]) (Some (s, fr))).
    { intros s -> Hlt. split; auto. exists (List.length pre). split.
      - rewrite nth_error_app2, Nat.sub_diag by lia. reflexivity.
      - split; auto. intros j u Hj Hu.
        destruct (Nat.lt_ge_cases j (List.length pre)) as [Hl|Hl].
        + rewrite nth_error_app1 in Hj by assumption.
          specialize (Hlt j u Hl Hj Hu). lia.
        + rewrite nth_error_app2 in Hj by assumption.
          destruct (j - List.length pre)%nat as [|k] eqn:Ek; simpl in Hj.
          * inversion Hj; subst. lia.
          * destruct k; discriminate. }
    destruct best as [[bs bt]|].
    + destruct Hb as (Hs & i & Hi & Het & Hmin).
      destruct (fitScore w h (shape fr) <? bs) eqn:E.
      * apply Z.ltb_lt in E. apply Hnew; auto.
        intros j u _ Hj Hu. specialize (Hmin j u Hj Hu). lia.
      * apply Z.ltb_ge in E. split; auto. exists i.
        assert (Hil : (i < List.length pre)%nat)
          by (apply nth_error_Some; congruence).
        split; [rewrite nth_error_app1; auto|]. split; auto.
        intros j u Hj Hu.
        destruct (Nat.lt_ge_cases j (List.length pre)) as [Hl|Hl].
        -- rewrite nth_error_app1 in Hj by assumption. auto.
        -- rewrite nth_error_app2 in Hj by assumption.
           destruct (j - List.length pre)%nat as [|k] eqn:Ek; simpl in Hj.
           ++ inversion Hj; subst. split; [lia|]. intros; lia.
           ++ destruct k; discriminate.
    + apply Hnew; auto. intros j u _ Hj Hu. exfalso.
      apply (Hb u); auto. eapply nth_error_In; eauto.
  - rewrite chooseStep_not_eligible by assumption.
    destruct best as [[bs bt]|]; simpl in *.
    + destruct Hb as (Hs & i & Hi & Het & Hmin). split; auto. exists i.
      assert (Hil : (i < List.length pre)%nat)
        by (apply nth_error_Some; congruence).
      split; [rewrite nth_error_app1; auto|]. split; auto.
      intros j u Hj Hu.
      destruct (Nat.lt_ge_cases j (List.length pre)) as [Hl|Hl].
      * rewrite nth_error_app1 in Hj by assumption. auto.
      * rewrite nth_error_app2 in Hj by assumption.
        destruct (j - List.length pre)%nat as [|k] eqn:Ek; simpl in Hj.
        -- inversion Hj; subst. contradiction.
        -- destruct k; discriminate.
    + intros u Hu. apply in_app_or in Hu. destruct Hu as [Hu|[<-|[]]]; auto.
Qed.

Lemma firstBest_fold (w h : Z) (frs : list FreeRect) :
  forall pre best,
    firstBest w h pre best ->
    firstBest w h (pre ++ frs) (fold_left (chooseStep w h) frs best).
Proof.
  induction frs as [|fr frs IH]; intros pre best Hb; simpl.
  - now rewrite app_nil_r.
  - change (fr :: frs) with ([fr] ++ frs). rewrite app_assoc.
    apply IH. now apply firstBest_step.
Qed.

Lemma chooseBestRect_firstBest (w h : Z) (frs : list FreeRect) :
  firstBest w h frs (fold_left (chooseStep w h) frs None).
Proof. apply (firstBest_fold w h frs [] None). intros u []. Qed.

Lemma chooseBestRect_Some (w h : Z) (frs : list FreeRect) (t : FreeRect) :
  chooseBestRect frs w h = Some t -> In t frs /\ eligible w h t.
Proof.
  unfold Tiered.chooseBestRect. intros H.
  pose proof (chooseBestRect_firstBest w h frs) as Hb.
  destruct (fold_left _ frs None) as [[s u]|]; simpl in H; [|discriminate].
  inversion H; subst. destruct Hb as (_ & i & Hi & He & _).
  split; auto. eapply nth_error_In; eauto.
Qed.

(** ** What the packer keeps true *)

Lemma tiling_subPerm (voids voids' : list Rect) (res : list LayoutGame) :
  subPerm voids' voids -> tiling voids res -> tiling voids' res.
Proof.
  intros Hs (H1 & H2 & H3).
  assert (Hs' : subPerm (voids' ++ map rectOf res) (voids ++ map rectOf res))
    by (apply subPerm_app; [assumption|apply subPerm_refl]).
  repeat split; auto.
  - eapply pairwise_subPerm; eauto using separated_sym.
  - eapply subPerm_Forall; eauto.
Qed.

Lemma tiling_Permutation (voids voids' : list Rect) (res : list LayoutGame) :
  Permutation voids voids' -> tiling voids res -> tiling voids' res.
Proof. intros H. apply tiling_subPerm. now apply subPerm_perm. Qed.

(** An item is laid out inside the void [t], and [t] is replaced by
    pieces of itself that are separated from the item and from each other. *)
Lemma tiling_place (t : Rect) (voids pieces : list Rect)
    (res : list LayoutGame) (g : LayoutGame) :
  tiling (t :: voids) res ->
  positive g ->
  Forall (inside t) (rectOf g :: pieces) ->
  pairwise separated (rectOf g :: pieces) ->
  tiling (pieces ++ voids) (res ++ [g]).
Proof.
  intros (H1 & H2 & H3) Hg Hin Hsep.
  assert (Hperm : Permutation ((rectOf g :: pieces) ++ voids ++ map rectOf res)
                              ((pieces ++ voids) ++ map rectOf (res ++ [g]))).
  { rewrite map_app. simpl. rewrite <- !app_assoc.
    change (rectOf g :: pieces ++ voids ++ map rectOf res)
      with ([rectOf g] ++ pieces ++ voids ++ map rectOf res).
    rewrite Permutation_app_comm. rewrite <- !app_assoc. reflexivity. }
  repeat split.
  - apply (pairwise_Permutation _ separated_sym _ _ Hperm).
    eapply pairwise_refine; eauto.
  - apply (Permutation_Forall Hperm). apply Forall_app. split.
    + simpl in H2. inversion H2; subst.
      eapply Forall_impl; [|apply Hin]. intros r Hr.
      eapply inside_trans; eauto.
    + simpl in H2. now inversion H2.
  - apply Forall_app. split; auto.
Qed.

(** *** Phase 1 *)

Lemma splitFreeRect_shapes (fr : FreeRect) (placed : Rect) (st : Store) :
  subPerm (map shape (freeRects (splitFreeRect fr placed st)))
    ([mkRect (x placed + width placed) (y (shape fr))
             (width (shape fr) - width placed) (height placed);
      mkRect (x (shape fr)) (y placed + height placed)
             (width (shape fr)) (height (shape fr) - height placed)]
     ++ map shape (spliceOut (oid fr) (freeRects st))).
Proof.
  unfold Tiered.splitFreeRect.
  eapply subPerm_trans; [apply subPerm_map, pruneFreeRects_subPerm|].
  eapply subPerm_trans; [apply addFreeRect_subPerm|].
  eapply subPerm_trans;
    [apply subPerm_app; [apply addFreeRect_subPerm|apply subPerm_refl]|].
  apply subPerm_perm. rewrite <- app_assoc.
  apply (Permutation_app_comm [_; _] _).
Qed.

Lemma splitFreeRect_idsOk (fr : FreeRect) (placed : Rect) (st : Store) :
  idsOk st -> idsOk (splitFreeRect fr placed st).
Proof.
  intros H. unfold Tiered.splitFreeRect.
  now apply pruneFreeRects_idsOk, addFreeRect_idsOk, addFreeRect_idsOk, forget_idsOk.
Qed.

Lemma placeStep_ok (st : Pack) (it : Prepared) :
  positiveItem it -> packOk st -> packOk (placeStep st it).
Proof.
  intros [Hw Hh] (Hids & Htil & Hov). unfold Tiered.placeStep.
  destruct (chooseBestRect _ _ _) as [target|] eqn:E.
  - apply chooseBestRect_Some in E. destruct E as [Hin [Ew Eh]].
    split; [|split]; cbn [store results overflow]; auto using splitFreeRect_idsOk.
    eapply tiling_subPerm; [apply splitFreeRect_shapes|].
    cbn [x y width height app].
    assert (Hp : Permutation (map shape (freeRects (store st)))
                   (shape target :: map shape (spliceOut (oid target) (freeRects (store st))))).
    { destruct Hids as [Hnd _].
      apply (Permutation_map shape (spliceOut_Permutation _ _ Hnd Hin)). }
    apply (tiling_Permutation _ _ _ Hp) in Htil.
    match goal with |- tiling (?a :: ?b :: ?l) _ =>
      apply (tiling_place (shape target) l [a; b]) end; auto.
    + split; simpl; assumption.
    + repeat constructor; unfold inside, rectOf; simpl; lia.
    + simpl. repeat constructor; unfold separated, rectOf; simpl; lia.
  - split; [|split]; simpl; auto.
    apply Forall_app. split; auto. repeat constructor; assumption.
Qed.

Lemma initial_ok : packOk (mkPack (initialStore LAYOUT_WIDTH LAYOUT_HEIGHT) [] []).
Proof.
  split; [|split]; simpl.
  - split; simpl; repeat constructor; simpl; auto.
  - repeat split; simpl; repeat constructor; simpl; lia.
  - constructor.
Qed.

Lemma fold_placeStep_ok (l : list Prepared) :
  forall st, Forall positiveItem l -> packOk st -> packOk (fold_left placeStep l st).
Proof.
  induction l as [|it l IH]; intros st Hl Hst; simpl; auto.
  inversion Hl; subst. apply IH; auto. now apply placeStep_ok.
Qed.

Lemma phase1_ok (prepared : list Prepared) :
  Forall positiveItem prepared -> packOk (phase1 prepared).
Proof.
  intros H. apply fold_placeStep_ok; [|apply initial_ok].
  eapply Permutation_Forall; [|apply H].
  symmetry. apply sortBy_Permutation.
Qed.

(** *** Phase 2 *)

Lemma findNarrowest_Some (spaceW rowHeight : Z) (l : list Prepared) :
  forall i found k it,
    findNarrowest spaceW rowHeight l i found = Some (k, it) ->
    found = Some (k, it) \/
    ((i <= k)%nat /\ nth_error l (k - i) = Some it /\
     it_width it <= spaceW /\ it_height it <= rowHeight).
Proof.
  induction l as [|a l IH]; intros i found k it H; simpl in H; auto.
  apply IH in H. destruct H as [H|(Hk & Hn & Hfit)].
  - destruct ((it_width a <=? spaceW) && (it_height a <=? rowHeight)) eqn:E; auto.
    apply andb_prop in E. destruct E as [E1 E2].
    assert (Ha : Some (i, a) = Some (k, it) ->
                 (i <= k)%nat /\ nth_error (a :: l) (k - i) = Some it /\
                 it_width it <= spaceW /\ it_height it <= rowHeight).
    { intros Heq. inversion Heq; subst. rewrite Nat.sub_diag. simpl.
      repeat split; auto; lia. }
    destruct found as [[j f]|]; auto.
    destruct (it_width a <? it_width f); auto.
  - right. split; [lia|]. split; auto.
    replace (k - i)%nat with (S (k - S i)) by lia. assumption.
Qed.

Lemma findNarrowest_found (spaceW rowHeight : Z) (l : list Prepared) (k : nat)
    (it : Prepared) :
  findNarrowest spaceW rowHeight l 0 None = Some (k, it) ->
  nth_error l k = Some it /\ it_width it <= spaceW /\ it_height it <= rowHeight.
Proof.
  intros H. apply findNarrowest_Some in H. destruct H as [H|H]; [discriminate|].
  rewrite Nat.sub_0_r in H. destruct H as (_ & Hn & Hfit). split; assumption.
Qed.

Lemma removeAt_Forall {A : Type} (P : A -> Prop) (l : list A) :
  forall i, Forall P l -> Forall P (removeAt i l).
Proof.
  induction l as [|a l IH]; intros [|i] H; simpl; auto;
    inversion H; subst; auto.
Qed.

Lemma fillRow_ok (r0 : Rect) (others : list Rect) (rowHeight : Z) :
  rowHeight <= height r0 ->
  forall fuel r, rowOk r0 others r ->
    rowOk r0 others (fillRow fuel (y r0) rowHeight r).
Proof.
  intros Hrow. induction fuel as [|fuel IH]; intros r Hr; simpl; auto.
  destruct (findNarrowest _ _ _ _ _) as [[k it]|] eqn:E; auto.
  apply findNarrowest_found in E. destruct E as (Hk & Hw & Hh).
  destruct Hr as (Htil & Hnext & Hm & Hrem).
  assert (Hpos : positiveItem it).
  { rewrite Forall_forall in Hrem. eapply Hrem, nth_error_In; eauto. }
  destruct Hpos as [Pw Ph].
  match goal with |- context [if _ then ?r' else _] =>
    assert (Hr' : rowOk r0 others r') end.
  { split; [|split; [|split]]; cbn [localX spaceW rowMaxH row_results row_remaining].
    - match goal with |- tiling (?c :: _) _ =>
        apply (tiling_place (cell r0 r) others [c]) end; auto.
      + split; simpl; assumption.
      + repeat constructor; unfold inside, rectOf; simpl; lia.
      + simpl. repeat constructor; unfold separated, rectOf; simpl; lia.
    - rewrite map_app, app_assoc. apply Forall_app. split.
      + eapply Forall_impl; [|apply Hnext]. intros q Hq.
        apply separated_sym. apply separated_sym in Hq.
        eapply separated_inside; [|apply Hq].
        unfold inside, nextRect; cbn [x y width height]; lia.
      + apply Forall_cons; [|apply Forall_nil].
        unfold separated, rectOf, nextRect, place;
          cbn [x y width height lg_x lg_y lg_width lg_height]. lia.
    - lia.
    - now apply removeAt_Forall. }
  destruct (_ <? baseUnitWidth); auto.
Qed.

Lemma tiling_cons (t : Rect) (voids : list Rect) (res : list LayoutGame) :
  tiling voids res ->
  inside region t ->
  Forall (fun q => separated q t) (voids ++ map rectOf res) ->
  tiling (t :: voids) res.
Proof.
  intros (H1 & H2 & H3) Ht Hs. repeat split; simpl; auto.
  eapply Forall_impl; [|apply Hs]. intros q. apply separated_sym.
Qed.

Lemma tiling_tail (t : Rect) (voids : list Rect) (res : list LayoutGame) :
  tiling (t :: voids) res -> tiling voids res.
Proof.
  apply tiling_subPerm. exists [t].
  change (t :: voids) with ([t] ++ voids). apply Permutation_app_comm.
Qed.

Lemma tiling_head_inside (t : Rect) (voids : list Rect) (res : list LayoutGame) :
  tiling (t :: voids) res -> inside region t.
Proof. intros (_ & H & _). simpl in H. now inversion H. Qed.

Lemma tiling_head_separated (t : Rect) (voids : list Rect) (res : list LayoutGame) :
  tiling (t :: voids) res ->
  Forall (fun q => separated q t) (voids ++ map rectOf res).
Proof.
  intros ([H _] & _). eapply Forall_impl; [|apply H].
  intros q. apply separated_sym.
Qed.

Lemma fold_min_le (l : list Z) : forall a, fold_left Z.min l a <= a.
Proof.
  induction l as [|b l IH]; intros a; simpl; [lia|].
  specialize (IH (Z.min a b)). lia.
Qed.

Lemma shelfLoop_ok (others : list Rect) :
  forall fuel s, shelfOk others s -> shelfDone others (shelfLoop fuel s).
Proof.
  induction fuel as [|fuel IH]; intros s [Htil Hrem]; cbn [Tiered.shelfLoop].
  - split; eauto using tiling_tail.
  - destruct (baseUnitHeight <=? height (rect s));
      [|split; eauto using tiling_tail].
    destruct (filter _ _) as [|c cs] eqn:Ef;
      [split; eauto using tiling_tail|].
    set (rowHeight := fold_left Z.min (map it_height cs) (it_height c)).
    assert (Hrow : rowHeight <= height (rect s)).
    { assert (Hc : In c (filter (fitsRect (rect s)) (sh_remaining s)))
        by (rewrite Ef; now left).
      apply filter_In in Hc. destruct Hc as [_ Hc].
      unfold fitsRect in Hc. apply andb_prop in Hc.
      pose proof (fold_min_le (map it_height cs) (it_height c)).
      subst rowHeight. lia. }
    match goal with |- context [fillRow ?f ?yy ?rh ?r] =>
      pose proof (fillRow_ok (rect s) others rowHeight Hrow f r) as Hr;
      set (row := fillRow f yy rh r) in * end.
    assert (Hrow_ok : rowOk (rect s) others row).
    { apply Hr. split; [|split; [|split]];
        cbn [localX spaceW rowMaxH row_results row_remaining]; auto; [| |lia].
      - unfold cell. cbn [localX spaceW]. now destruct (rect s).
      - eapply Forall_impl; [|apply (tiling_head_separated _ _ _ Htil)].
        intros q Hq. apply separated_sym. apply separated_sym in Hq.
        eapply separated_inside; [|apply Hq].
        unfold inside, nextRect; simpl; lia. }
    destruct Hrow_ok as (Htil' & Hnext & Hm & Hrem').
    destruct (rowPlaced row).
    + split; cbn [sh_results sh_remaining]; eauto using tiling_tail.
    + apply IH. split; cbn [rect sh_results sh_remaining]; auto.
      apply tiling_cons; eauto using tiling_tail.
      eapply inside_trans; [apply (tiling_head_inside _ _ _ Htil)|].
      unfold inside, nextRect; simpl; lia.
Qed.

Lemma fillRectWithShelf_ok (fr : FreeRect) (pending : list FreeRect) (st : Fill) :
  fillOk (fr :: pending) st -> fillOk pending (fillRectWithShelf st fr).
Proof.
  intros [Htil Hrem]. unfold Tiered.fillRectWithShelf.
  match goal with |- context [shelfLoop ?f ?s] =>
    pose proof (shelfLoop_ok (map shape pending) f s) as H;
    set (s' := shelfLoop f s) in * end.
  destruct H as [H1 H2]; [split; assumption|].
  split; assumption.
Qed.

Lemma fold_fillRectWithShelf_ok (pending : list FreeRect) :
  forall st, fillOk pending st ->
    fillOk [] (fold_left fillRectWithShelf pending st).
Proof.
  induction pending as [|fr pending IH]; intros st H; simpl; auto.
  apply IH. now apply fillRectWithShelf_ok.
Qed.

Lemma phase2_ok (p : Pack) : packOk p -> fillOk [] (phase2 p).
Proof.
  intros (_ & Htil & Hov). apply fold_fillRectWithShelf_ok.
  split; cbn [f_results remainingAsc].
  - eapply tiling_Permutation; [|apply Htil].
    apply Permutation_map. symmetry. apply sortBy_Permutation.
  - eapply Permutation_Forall; [|apply Hov].
    symmetry. apply sortBy_Permutation.
Qed.

(** The geometry of what the two phases return. *)
Lemma packPrepared_tiling (prepared : list Prepared) :
  Forall positiveItem prepared ->
  tiling [] (f_results (packPrepared prepared)).
Proof. intros H. now apply phase2_ok, phase1_ok. Qed.

Lemma pack_tiling (items : list TierItem) :
  1 <= baseUnitWidth -> 1 <= baseUnitHeight ->
  Forall (fun it => 1 <= mult it) items ->
  tiling [] (f_results (pack items)).
Proof.
  intros Hw Hh Hm. apply packPrepared_tiling.
  apply Forall_map. eapply Forall_impl; [|apply Hm].
  intros it Hit. cbv beta in Hit.
  split; cbn [prepare it_width it_height]; apply Z.mul_pos_pos; lia.
Qed.

Lemma tiling_NoOverlap (res : list LayoutGame) : tiling [] res -> NoOverlap res.
Proof.
  intros (Hp & _) i j a b Hij Hi Hj. simpl in Hp.
  apply separated_apart.
  apply (pairwise_nth_error _ separated_sym _ Hp i j); auto;
    now apply map_nth_error.
Qed.

Lemma tiling_InBounds (res : list LayoutGame) :
  tiling [] res -> Forall (InBounds LAYOUT_WIDTH LAYOUT_HEIGHT) res.
Proof.
  intros (_ & Hin & Hpos). simpl in Hin. rewrite Forall_map in Hin.
  rewrite Forall_forall in *. intros g Hg.
  specialize (Hin g Hg). specialize (Hpos g Hg).
  destruct Hpos as [Pw Ph].
  unfold inside, region, rectOf in Hin; cbn [x y width height] in Hin.
  assert (60 <= header) by (unfold headerInfoHeight, headerInfoHeightOf; lia).
  unfold InBounds. lia.
Qed.

Lemma tiling_below_header (res : list LayoutGame) :
  tiling [] res -> Forall (fun g => header <= lg_y g) res.
Proof.
  intros (_ & Hin & _). simpl in Hin. rewrite Forall_map in Hin.
  eapply Forall_impl; [|apply Hin]. intros g Hg.
  unfold inside, region, rectOf in Hg; cbn [x y width height] in Hg. lia.
Qed.

(** *** The loops have fuel to spare *)

Lemma findNarrowest_nil (spaceW rowHeight : Z) (i : nat)
    (found : option (nat * Prepared)) :
  findNarrowest spaceW rowHeight [] i found = found.
Proof. reflexivity. Qed.

Lemma fillRow_fuel (rectY rowHeight : Z) :
  forall fuel fuel' r,
    (List.length (row_remaining r) < fuel)%nat ->
    (List.length (row_remaining r) < fuel')%nat ->
    fillRow fuel rectY rowHeight r = fillRow fuel' rectY rowHeight r.
Proof.
  induction fuel as [|fuel IH]; intros [|fuel'] r H1 H2; try lia.
  cbn [Tiered.fillRow].
  destruct (findNarrowest _ _ _ _ _) as [[k it]|] eqn:E; auto.
  apply findNarrowest_found in E. destruct E as (Hk & _).
  apply removeAt_length in Hk.
  destruct (_ <? baseUnitWidth); auto.
  apply IH; cbn [row_remaining]; lia.
Qed.

Lemma fillRow_count (rectY rowHeight : Z) :
  forall fuel r,
    (List.length (row_remaining (fillRow fuel rectY rowHeight r))
     + rowPlaced (fillRow fuel rectY rowHeight r)
     = List.length (row_remaining r) + rowPlaced r)%nat.
Proof.
  induction fuel as [|fuel IH]; intros r; cbn [Tiered.fillRow]; auto.
  destruct (findNarrowest _ _ _ _ _) as [[k it]|] eqn:E; auto.
  apply findNarrowest_found in E. destruct E as (Hk & _).
  apply removeAt_length in Hk.
  destruct (_ <? baseUnitWidth).
  - cbn [row_remaining rowPlaced]. lia.
  - rewrite IH. cbn [row_remaining rowPlaced]. lia.
Qed.

Lemma shelfLoop_fuel :
  forall fuel fuel' s,
    (List.length (sh_remaining s) < fuel)%nat ->
    (List.length (sh_remaining s) < fuel')%nat ->
    shelfLoop fuel s = shelfLoop fuel' s.
Proof.
  induction fuel as [|fuel IH]; intros [|fuel'] s H1 H2; try lia.
  cbn [Tiered.shelfLoop].
  destruct (baseUnitHeight <=? height (rect s)); auto.
  destruct (filter _ _) as [|c cs]; auto.
  match goal with |- context [fillRow ?f ?yy ?rh ?r] =>
    pose proof (fillRow_count yy rh f r) as Hc;
    set (row := fillRow f yy rh r) in * end.
  cbn [row_remaining rowPlaced] in Hc.
  destruct (rowPlaced row); auto.
  apply IH; cbn [sh_remaining]; lia.
Qed.

(** *** Conservation of the items *)

Lemma fillRow_bag (rectY rowHeight : Z) :
  forall fuel r,
    Permutation
      (map lg_game (row_results (fillRow fuel rectY rowHeight r))
       ++ map it_game (row_remaining (fillRow fuel rectY rowHeight r)))
      (map lg_game (row_results r) ++ map it_game (row_remaining r)).
Proof.
  induction fuel as [|fuel IH]; intros r; cbn [Tiered.fillRow]; auto.
  destruct (findNarrowest _ _ _ _ _) as [[k it]|] eqn:E; auto.
  apply findNarrowest_found in E. destruct E as (Hk & _).
  apply removeAt_Permutation in Hk.
  match goal with |- context [if _ then ?r' else _] =>
    assert (Hr' : Permutation
              (map lg_game (row_results r') ++ map it_game (row_remaining r'))
              (map lg_game (row_results r) ++ map it_game (row_remaining r))) end.
  { cbn [row_results row_remaining]. rewrite map_app, <- app_assoc.
    apply Permutation_app_head. rewrite (Permutation_map it_game Hk).
    reflexivity. }
  destruct (_ <? baseUnitWidth); auto.
  rewrite IH. exact Hr'.
Qed.

Lemma shelfLoop_bag :
  forall fuel s,
    Permutation
      (map lg_game (sh_results (shelfLoop fuel s))
       ++ map it_game (sh_remaining (shelfLoop fuel s)))
      (map lg_game (sh_results s) ++ map it_game (sh_remaining s)).
Proof.
  induction fuel as [|fuel IH]; intros s; cbn [Tiered.shelfLoop]; auto.
  destruct (baseUnitHeight <=? height (rect s)); auto.
  destruct (filter _ _) as [|c cs]; auto.
  match goal with |- context [fillRow ?f ?yy ?rh ?r] =>
    pose proof (fillRow_bag yy rh f r) as Hb;
    set (row := fillRow f yy rh r) in * end.
  cbn [row_results row_remaining] in Hb.
  destruct (rowPlaced row); [exact Hb|].
  rewrite IH. exact Hb.
Qed.

Lemma fold_fillRectWithShelf_bag (pending : list FreeRect) :
  forall st,
    Permutation
      (map lg_game (f_results (fold_left fillRectWithShelf pending st))
       ++ map it_game (remainingAsc (fold_left fillRectWithShelf pending st)))
      (map lg_game (f_results st) ++ map it_game (remainingAsc st)).
Proof.
  induction pending as [|fr pending IH]; intros st; simpl; auto.
  rewrite IH. unfold Tiered.fillRectWithShelf. cbn [f_results remainingAsc].
  apply shelfLoop_bag.
Qed.

Lemma placeStep_bag (st : Pack) (it : Prepared) :
  Permutation
    (map lg_game (results (placeStep st it))
     ++ map it_game (overflow (placeStep st it)))
    (it_game it :: map lg_game (results st) ++ map it_game (overflow st)).
Proof.
  unfold Tiered.placeStep. destruct (chooseBestRect _ _ _); cbn [results overflow].
  - rewrite map_app, <- app_assoc. simpl. symmetry. apply Permutation_middle.
  - rewrite map_app, app_assoc. simpl.
    rewrite Permutation_app_comm. reflexivity.
Qed.

Lemma fold_placeStep_bag (l : list Prepared) :
  forall st,
    Permutation
      (map lg_game (results (fold_left placeStep l st))
       ++ map it_game (overflow (fold_left placeStep l st)))
      (map it_game l ++ map lg_game (results st) ++ map it_game (overflow st)).
Proof.
  induction l as [|it l IH]; intros st; simpl; auto.
  rewrite IH, placeStep_bag. symmetry. apply Permutation_middle.
Qed.

(** Every item handed to the packer ends up drawn or left in
    [remainingAsc], once. *)
Lemma packPrepared_bag (prepared : list Prepared) :
  Permutation
    (map lg_game (f_results (packPrepared prepared))
     ++ map it_game (remainingAsc (packPrepared prepared)))
    (map it_game prepared).
Proof.
  unfold Tiered.packPrepared, Tiered.phase2. rewrite fold_fillRectWithShelf_bag.
  cbn [f_results remainingAsc].
  rewrite (Permutation_map it_game (sortBy_Permutation _ _)).
  unfold Tiered.phase1. rewrite fold_placeStep_bag. simpl. rewrite app_nil_r.
  apply Permutation_map, sortBy_Permutation.
Qed.

Lemma pack_bag (items : list TierItem) :
  Permutation
    (map lg_game (f_results (pack items))
     ++ map it_game (remainingAsc (pack items)))
    (map game items).
Proof.
  unfold Tiered.pack. rewrite packPrepared_bag. rewrite map_map. reflexivity.
Qed.

End PackerFacts.

(** ** The size tiers *)

Lemma multOf_ge_1 (maxTime playtime : Z) : 1 <= multOf maxTime playtime.
Proof. unfold multOf. destruct (Qle_bool _ _); lia. Qed.

Lemma roundTier_mono (maxTime t t' : Z) :
  0 < maxTime -> t <= t' -> roundTier t maxTime <= roundTier t' maxTime.
Proof.
  intros HM Ht. unfold roundTier, roundSqrt, floorSqrt.
  apply Z.div_le_mono; [lia|]. apply Z.add_le_mono_r.
  apply Z.sqrt_le_mono. apply Z.div_le_mono; [lia|].
  unfold TIER_MAX. lia.
Qed.

Lemma multOf_mono (maxTime p p' : Z) :
  0 < maxTime -> p <= p' -> multOf maxTime p <= multOf maxTime p'.
Proof.
  intros HM Hp. unfold multOf.
  assert (H := roundTier_mono maxTime (Z.max p 1) (Z.max p' 1) HM ltac:(lia)).
  destruct (Qle_bool 10 (inject_Z p / 60)) eqn:E1;
    destruct (Qle_bool 10 (inject_Z p' / 60)) eqn:E2; try lia.
  exfalso. apply Qle_bool_iff in E1.
  apply not_true_iff_false in E2. apply E2. apply Qle_bool_iff.
  eapply Qle_trans; [apply E1|].
  apply Qmult_le_compat_r; [now rewrite <- Zle_Qle|discriminate].
Qed.

Lemma maxTimeOf_pos (baseList : list SteamGame) : 0 < maxTimeOf baseList.
Proof.
  unfold maxTimeOf. induction baseList as [|g l IH]; simpl; lia.
Qed.

Lemma tierItems_games (initialGames : list SteamGame) :
  Permutation (map game (tierItems initialGames)) initialGames.
Proof.
  unfold tierItems. rewrite (Permutation_map game (sortBy_Permutation _ _)).
  rewrite map_map. simpl. rewrite map_id. apply sortBy_Permutation.
Qed.

Lemma tierItems_mult (initialGames : list SteamGame) :
  Forall (fun it => mult it = multOf (maxTimeOf (sortBy byPlaytimeDesc initialGames))
                                     (playtime_forever (game it)))
         (tierItems initialGames).
Proof.
  unfold tierItems.
  eapply Permutation_Forall; [symmetry; apply sortBy_Permutation|].
  apply Forall_map. apply Forall_forall. intros g _. reflexivity.
Qed.

Lemma tierItems_ge_1 (initialGames : list SteamGame) :
  Forall (fun it => 1 <= mult it) (tierItems initialGames).
Proof.
  eapply Forall_impl; [|apply tierItems_mult].
  intros it ->. apply multOf_ge_1.
Qed.

Lemma baseUnitWidthOf_ge_1 (W H totalUnits maxMult : Z) :
  1 <= baseUnitWidthOf W H totalUnits maxMult.
Proof. unfold baseUnitWidthOf. lia. Qed.

Lemma baseUnitHeightOf_ge_1 (w : Z) : 1 <= baseUnitHeightOf w.
Proof. unfold baseUnitHeightOf. lia. Qed.

(** ** [layoutGames] end to end *)

Lemma layoutFill_tiling (jitter : Z -> Q) (initialGames : list SteamGame) (W H : Z) :
  tiling W H [] (f_results (layoutFill jitter initialGames (W, H))).
Proof.
  unfold layoutFill, unitCell. cbn [fst snd]. apply pack_tiling.
  - apply baseUnitWidthOf_ge_1.
  - apply baseUnitHeightOf_ge_1.
  - apply tierItems_ge_1.
Qed.

Lemma layoutGames_tiling (jitter : Z -> Q) (initialGames : list SteamGame) (W H : Z) :
  tiling W H [] (layoutGames jitter initialGames (W, H)).
Proof.
  unfold layoutGames. destruct initialGames as [|g l].
  - repeat split; constructor.
  - apply layoutFill_tiling.
Qed.

Lemma layoutGames_bag (jitter : Z -> Q) (initialGames : list SteamGame)
    (canvasDimensions : Z * Z) :
  Permutation
    (map lg_game (layoutGames jitter initialGames canvasDimensions)
     ++ droppedGames jitter initialGames canvasDimensions)
    initialGames.
Proof.
  unfold layoutGames, droppedGames. destruct initialGames as [|g l]; auto.
  unfold layoutFill, unitCell. destruct canvasDimensions as [W H].
  rewrite pack_bag. apply tierItems_games.
Qed.

(** ** The split, rectangle by rectangle *)

Lemma splitFreeRect_pushes (fr : FreeRect) (w h : Z) (st : Store) :
  0 < h -> 0 < width (shape fr) ->
  splitFreeRect fr (mkRect (x (shape fr)) (y (shape fr)) w h) st =
    pruneFreeRects
      (fold_left (fun s r => push r s) (remainders (shape fr) w h)
         (forget fr st)).
Proof.
  intros Hh Hw. unfold splitFreeRect, addFreeRect, remainders.
  cbn [x y width height].
  destruct (w <? width (shape fr)) eqn:E1;
    destruct (h <? height (shape fr)) eqn:E2;
    repeat match goal with
    | |- context [?a <=? 0] =>
        let E := fresh "E" in destruct (a <=? 0) eqn:E; try lia
    end; reflexivity.
Qed.

Lemma addFreeRect_In (r : Rect) (st : Store) (f : FreeRect) :
  In f (freeRects (addFreeRect r st)) ->
  In f (freeRects st) \/ oid f = nextOid st.
Proof.
  destruct (addFreeRect_cases r st) as [E|(_ & _ & E)]; rewrite E; auto.
  simpl. intros H. apply in_app_or in H. destruct H as [H|[<-|[]]]; auto.
Qed.

Lemma addFreeRect_nextOid (r : Rect) (st : Store) :
  (nextOid st <= nextOid (addFreeRect r st))%nat.
Proof.
  destruct (addFreeRect_cases r st) as [E|(_ & _ & E)]; rewrite E; simpl; lia.
Qed.

Lemma subPerm_In {A : Type} (l l' : list A) (a : A) :
  subPerm l' l -> In a l' -> In a l.
Proof.
  intros [d Hd] H. apply (Permutation_in _ (Permutation_sym Hd)).
  apply in_or_app. now left.
Qed.

Lemma splitFreeRect_removes (fr : FreeRect) (placed : Rect) (st : Store) :
  idsOk st -> In fr (freeRects st) ->
  ~ In fr (freeRects (splitFreeRect fr placed st)).
Proof.
  intros [Hnd Hlt] Hin H. unfold splitFreeRect in H.
  apply (subPerm_In _ _ _ (pruneFreeRects_subPerm _)) in H.
  assert (Hfr : (oid fr < nextOid st)%nat)
    by (rewrite Forall_forall in Hlt; now apply Hlt).
  apply addFreeRect_In in H. destruct H as [H|H].
  - apply addFreeRect_In in H. destruct H as [H|H].
    + simpl in H.
      pose proof (spliceOut_Permutation _ _ Hnd Hin) as Hp.
      apply (Permutation_map oid) in Hp. apply (Permutation_NoDup Hp) in Hnd.
      simpl in Hnd. inversion Hnd; subst. now apply (in_map oid) in H.
    + simpl in H. lia.
  - pose proof (addFreeRect_nextOid
                  (mkRect (x placed + width placed) (y (shape fr))
                          (width (shape fr) - width placed) (height placed))
                  (forget fr st)) as Hn.
    simpl in Hn. lia.
Qed.

(** ** The jitter enters through the ids only *)

Lemma layoutGames_jitter_ext (j1 j2 : Z -> Q) (initialGames : list SteamGame)
    (canvasDimensions : Z * Z) :
  (forall g, In g initialGames -> j1 (appid g) = j2 (appid g)) ->
  layoutGames j1 initialGames canvasDimensions
  = layoutGames j2 initialGames canvasDimensions.
Proof.
  intros Hj. unfold layoutGames. destruct initialGames as [|g0 l]; auto.
  f_equal. unfold layoutFill.
  destruct (unitCell _ _) as [bw bh]. unfold pack. f_equal.
  apply map_ext_in. intros it Hit. unfold prepare. f_equal.
  apply Hj. apply (Permutation_in _ (tierItems_games (g0 :: l))).
  now apply in_map.
Qed.

(** ** Sizes within one run *)

Lemma preparedOf_In (jitter : Z -> Q) (initialGames : list SteamGame)
    (canvasDimensions : Z * Z) (a : Prepared) :
  In a (preparedOf jitter initialGames canvasDimensions) ->
  exists bw bh, 1 <= bw /\ 1 <= bh /\
    unitCell (tierItems initialGames) canvasDimensions = (bw, bh) /\
    it_mult a = multOf (maxTimeOf (sortBy byPlaytimeDesc initialGames))
                       (playtime_forever (it_game a)) /\
    it_width a = it_mult a * bw /\ it_height a = it_mult a * bh /\
    it_rnd a = jitter (appid (it_game a)).
Proof.
  unfold preparedOf. intros H.
  destruct (unitCell _ _) as [bw bh] eqn:E. exists bw, bh.
  assert (Hu : 1 <= bw /\ 1 <= bh).
  { unfold unitCell in E. destruct canvasDimensions as [W H0].
    inversion E; subst. split;
      [apply baseUnitWidthOf_ge_1|apply baseUnitHeightOf_ge_1]. }
  apply in_map_iff in H. destruct H as (it & <- & Hit).
  pose proof (tierItems_mult initialGames) as Hm.
  rewrite Forall_forall in Hm. specialize (Hm it Hit).
  simpl. tauto.
Qed.

Lemma preparedOf_positive (jitter : Z -> Q) (initialGames : list SteamGame)
    (canvasDimensions : Z * Z) :
  Forall (fun it => 0 < it_width it /\ 0 < it_height it)
         (preparedOf jitter initialGames canvasDimensions).
Proof.
  apply Forall_forall. intros a Ha. apply preparedOf_In in Ha.
  destruct Ha as (bw & bh & Hw & Hh & _ & Hm & -> & -> & _).
  pose proof (multOf_ge_1 (maxTimeOf (sortBy byPlaytimeDesc initialGames))
                (playtime_forever (it_game a))).
  rewrite Hm. split; apply Z.mul_pos_pos; lia.
Qed.

Lemma preparedOf_monotone (jitter : Z -> Q) (initialGames : list SteamGame)
    (canvasDimensions : Z * Z) (a b : Prepared) :
  In a (preparedOf jitter initialGames canvasDimensions) ->
  In b (preparedOf jitter initialGames canvasDimensions) ->
  playtime_forever (it_game a) < playtime_forever (it_game b) ->
  it_width a * it_height a <= it_width b * it_height b.
Proof.
  intros Ha Hb Hlt. apply preparedOf_In in Ha, Hb.
  destruct Ha as (bw & bh & Hw & Hh & Eu & Hma & -> & -> & _).
  destruct Hb as (bw' & bh' & _ & _ & Eu' & Hmb & -> & -> & _).
  rewrite Eu in Eu'. inversion Eu'; subst bw' bh'.
  set (M := maxTimeOf (sortBy byPlaytimeDesc initialGames)) in *.
  pose proof (maxTimeOf_pos (sortBy byPlaytimeDesc initialGames)) as HM.
  pose proof (multOf_ge_1 M (playtime_forever (it_game a))) as Ha1.
  pose proof (multOf_mono M _ _ HM (Z.lt_le_incl _ _ Hlt)) as Hmono.
  fold M in Hmono. rewrite <- Hma, <- Hmb in *.
  apply Z.mul_le_mono_nonneg; try (apply Z.mul_nonneg_nonneg; lia);
    apply Z.mul_le_mono_nonneg_r; lia.
Qed.

End TieredFacts.

(** * The naive version on exact rationals: geometry and bookkeeping

    On exact numbers the naive packer keeps its rectangles apart and in
    the canvas.  On doubles it does not: see the libraries of
    [Module Rounding]. *)
Module NaiveFacts.
Import Naive.
Local Open Scope Q_scope.

Lemma Qltb_lt (a b : Q) : Qltb a b = true <-> a < b.
Proof.
  unfold Qltb. rewrite negb_true_iff, <- not_true_iff_false, Qle_bool_iff.
  split; [apply Qnot_le_lt|apply Qlt_not_le].
Qed.

Lemma Qltb_ge (a b : Q) : Qltb a b = false <-> b <= a.
Proof.
  unfold Qltb. rewrite negb_false_iff. apply Qle_bool_iff.
Qed.

Lemma fits_iff (g : SizedGame) (fr : Rect) :
  fits g fr = true <-> sg_width g <= width fr /\ sg_height g <= height fr.
Proof. unfold fits. now rewrite andb_true_iff, !Qle_bool_iff. Qed.

Lemma naive_separated_sym (a b : Rect) : separated a b -> separated b a.
Proof. unfold separated. tauto. Qed.

Lemma naive_separated_inside (outer inner c : Rect) :
  inside outer inner -> separated outer c -> separated inner c.
Proof. unfold inside, separated. intros (H1 & H2 & H3 & H4) [H|[H|[H|H]]]; lra. Qed.

Lemma naive_inside_trans (a b c : Rect) : inside a b -> inside b c -> inside a c.
Proof. unfold inside. intros (H1 & H2 & H3 & H4) (H5 & H6 & H7 & H8). lra. Qed.

Lemma naive_separated_apart (a b : Rect) : separated a b -> ~ interiorsMeet a b.
Proof.
  intros Hs (px & py & (A1 & A2 & A3 & A4) & (B1 & B2 & B3 & B4)).
  destruct Hs as [Hs|[Hs|[Hs|Hs]]]; lra.
Qed.

Lemma naive_pairwise_refine (t : Rect) (pieces l : list Rect) :
  pairwise separated (t :: l) ->
  Forall (inside t) pieces ->
  pairwise separated pieces ->
  pairwise separated (pieces ++ l).
Proof.
  intros [Ht Hl] Hin Hp. apply pairwise_app. repeat split; auto.
  rewrite Forall_forall in Hin, Ht. apply Forall_forall. intros p Hp'.
  apply Forall_forall. intros c Hc.
  eapply naive_separated_inside; eauto.
Qed.

(** ** The scan for the best free rectangle *)

Lemma nth_error_snoc {A : Type} (pre : list A) (a u : A) (j : nat) :
  nth_error (pre ++ [a]) j = Some u ->
  ((j < List.length pre)%nat /\ nth_error pre j = Some u) \/
  (j = List.length pre /\ u = a).
Proof.
  intros H. destruct (Nat.lt_ge_cases j (List.length pre)) as [Hl|Hl].
  - left. split; auto. now rewrite nth_error_app1 in H.
  - right. rewrite nth_error_app2 in H by assumption.
    destruct (j - List.length pre)%nat as [|k] eqn:Ek; simpl in H.
    + inversion H. split; auto. lia.
    + destruct k; discriminate.
Qed.

Lemma firstBest_keep (g : SizedGame) (pre : list Rect) (fr : Rect)
    (s : Q) (i : nat) (t : Rect) :
  firstBest g pre (Some (s, i, t)) ->
  (fits g fr = true -> s <= score g fr) ->
  firstBest g (pre ++ [fr]) (Some (s, i, t)).
Proof.
  intros (Hs & Hi & Ht & Hmin) Hfr.
  assert (Hil : (i < List.length pre)%nat) by (apply nth_error_Some; congruence).
  split; auto. split; [rewrite nth_error_app1; auto|]. split; auto.
  intros j u Hj Hu. apply nth_error_snoc in Hj.
  destruct Hj as [[Hl Hj]|[-> ->]]; auto.
  split; auto. intros; lia.
Qed.

Lemma firstBest_take (g : SizedGame) (pre : list Rect) (fr : Rect) :
  fits g fr = true ->
  (forall j u, nth_error pre j = Some u -> fits g u = true ->
     score g fr < score g u) ->
  firstBest g (pre ++ [fr]) (Some (score g fr, List.length pre, fr)).
Proof.
  intros Hfit Hlt. split; auto.
  split; [rewrite nth_error_app2, Nat.sub_diag by lia; reflexivity|].
  split; auto. intros j u Hj Hu. apply nth_error_snoc in Hj.
  destruct Hj as [[Hl Hj]|[-> ->]].
  - specialize (Hlt j u Hj Hu). split; auto. now apply Qlt_le_weak.
  - split; [apply Qle_refl|]. intros; lia.
Qed.

Lemma scan_firstBest (g : SizedGame) (frs : list Rect) :
  forall pre best,
    firstBest g pre best ->
    firstBest g (pre ++ frs) (scan g frs (List.length pre) best).
Proof.
  induction frs as [|fr frs IH]; intros pre best Hb; simpl.
  - now rewrite app_nil_r.
  - change (fr :: frs) with ([fr] ++ frs). rewrite app_assoc.
    replace (S (List.length pre)) with (List.length (pre ++ [fr]))
      by (rewrite length_app; simpl; lia).
    apply IH. destruct (fits g fr) eqn:Ef.
    + destruct best as [[[bs bi] bt]|].
      * destruct (Qltb (score g fr) bs) eqn:E.
        -- apply Qltb_lt in E. apply firstBest_take; auto.
           intros j u Hj Hu. destruct Hb as (_ & _ & _ & Hmin).
           destruct (Hmin j u Hj Hu) as [Hle _].
           eapply Qlt_le_trans; eauto.
        -- apply Qltb_ge in E. apply firstBest_keep; auto.
      * apply firstBest_take; auto. intros j u Hj Hu.
        rewrite (Hb u) in Hu; [discriminate|]. eapply nth_error_In; eauto.
    + destruct best as [[[bs bi] bt]|].
      * apply firstBest_keep; auto. intros Hc. congruence.
      * simpl in *. intros u Hu. apply in_app_or in Hu.
        destruct Hu as [Hu|[<-|[]]]; auto.
Qed.

Lemma scan_spec (g : SizedGame) (frs : list Rect) :
  firstBest g frs (scan g frs 0 None).
Proof. apply (scan_firstBest g frs [] None). intros u []. Qed.

(** ** What the packer keeps true *)

Section PackerFacts.
Variable LAYOUT_WIDTH LAYOUT_HEIGHT : Q.

Set Default Proof Using "Type".

Abbreviation canvas := (canvasRect LAYOUT_WIDTH LAYOUT_HEIGHT).
Abbreviation tiling := (tiling LAYOUT_WIDTH LAYOUT_HEIGHT).

Lemma newFreeRects_pieces (g : SizedGame) (toSplit : Rect) (px py : Q) :
  nonNegative g -> fits g toSplit = true ->
  px = x toSplit -> py = y toSplit ->
  let placed := rectOf (mkLayout g px py) in
  let pieces := newFreeRects (bestNodeOf g toSplit) toSplit in
  Forall (inside toSplit) (placed :: pieces) /\
  pairwise separated (placed :: pieces).
Proof.
  intros [Hw Hh] Hfit -> ->. apply fits_iff in Hfit. destruct Hfit as [Fw Fh].
  unfold newFreeRects, bestNodeOf, rectOf, lg_width, lg_height.
  cbn [x y width height lg_item lg_x lg_y].
  destruct (Qltb (sg_width g) (width toSplit)) eqn:E1;
    destruct (Qltb (sg_height g) (height toSplit)) eqn:E2;
    cbn [app pairwise];
    (split; [repeat (apply Forall_cons || apply Forall_nil);
               unfold inside; cbn [x y width height]; repeat split; lra
            |repeat split;
               repeat (apply Forall_cons || apply Forall_nil);
               unfold separated; cbn [x y width height]; lra]).
Qed.

Lemma placeStep_tiling (st : Pack) (g : SizedGame) :
  nonNegative g -> tiling st -> tiling (placeStep st g).
Proof.
  intros Hg [Hsep Hin]. unfold placeStep.
  pose proof (scan_spec g (freeRects st)) as Hb.
  destruct (scan g (freeRects st) 0 None) as [[[s i] t]|]; [|split; assumption].
  destruct Hb as (_ & Hi & Hfit & _).
  destruct (newFreeRects_pieces g t (x (bestNodeOf g t)) (y (bestNodeOf g t))
              Hg Hfit eq_refl eq_refl) as [Pin Psep].
  set (placed := mkLayout g (x (bestNodeOf g t)) (y (bestNodeOf g t))) in *.
  set (pieces := newFreeRects (bestNodeOf g t) t) in *.
  cbv zeta in Pin, Psep.
  pose proof (removeAt_Permutation _ _ _ Hi) as Hperm.
  assert (Hall : Permutation
            ((rectOf placed :: pieces) ++ removeAt i (freeRects st)
               ++ map rectOf (results st))
            ((removeAt i (freeRects st) ++ pieces)
               ++ map rectOf (results st ++ [placed]))).
  { rewrite map_app. cbn [map app].
    rewrite (app_assoc _ (map rectOf (results st)) [rectOf placed]).
    etransitivity; [apply Permutation_cons_append|]. apply Permutation_app_tail.
    rewrite app_assoc. apply Permutation_app_tail. apply Permutation_app_comm. }
  assert (Hold : Permutation (freeRects st ++ map rectOf (results st))
                   (t :: removeAt i (freeRects st) ++ map rectOf (results st))).
  { rewrite Hperm at 1. reflexivity. }
  split; cbn [freeRects results].
  - apply (pairwise_Permutation _ naive_separated_sym _ _ Hall).
    eapply naive_pairwise_refine; eauto.
    apply (pairwise_Permutation _ naive_separated_sym _ _ Hold). assumption.
  - apply (Permutation_Forall Hall).
    apply (Permutation_Forall Hold) in Hin. inversion Hin; subst.
    apply Forall_app. split; auto.
    eapply Forall_impl; [|apply Pin]. intros r Hr.
    eapply naive_inside_trans; eauto.
Qed.

Lemma fold_placeStep_tiling (l : list SizedGame) :
  forall st, Forall nonNegative l -> tiling st -> tiling (fold_left placeStep l st).
Proof.
  induction l as [|g l IH]; intros st Hl Hst; simpl; auto.
  inversion Hl; subst. apply IH; auto. now apply placeStep_tiling.
Qed.

Lemma packSized_tiling (items : list SizedGame) :
  Forall nonNegative items ->
  tiling (packSized items LAYOUT_WIDTH LAYOUT_HEIGHT).
Proof.
  intros H. apply fold_placeStep_tiling.
  - eapply Permutation_Forall; [symmetry; apply sortBy_Permutation|assumption].
  - split; simpl.
    + repeat constructor.
    + repeat constructor; unfold inside; simpl; lra.
Qed.

Lemma naive_tiling_NoOverlap (st : Pack) : tiling st -> NoOverlap (results st).
Proof.
  intros [Hp _] i j a b Hij Hi Hj.
  apply pairwise_app in Hp. destruct Hp as (_ & Hp & _).
  apply naive_separated_apart.
  apply (pairwise_nth_error _ naive_separated_sym _ Hp i j); auto;
    now apply map_nth_error.
Qed.

Lemma naive_tiling_InBounds (st : Pack) :
  tiling st -> Forall (InBounds LAYOUT_WIDTH LAYOUT_HEIGHT) (results st).
Proof.
  intros [_ Hin]. apply Forall_app in Hin. destruct Hin as [_ Hin].
  rewrite Forall_map in Hin. eapply Forall_impl; [|apply Hin].
  intros g (H1 & H2 & H3 & H4). unfold InBounds.
  unfold canvas, rectOf in *. cbn [x y width height] in *. repeat split; lra.
Qed.

End PackerFacts.

End NaiveFacts.

(** * The size formula of the naive version *)
Module LinearFacts.
Import LinearSize.
Local Open Scope R_scope.

Lemma areaOf_mono (p p' : Z) : (p <= p')%Z -> areaOf p <= areaOf p'.
Proof. intros H. apply IZR_le in H. unfold areaOf. Lra.lra. Qed.

Lemma sizeOf_area (p : Z) :
  (0 <= p)%Z -> exists s, sizeOf p = Some s /\ rectArea s = areaOf p.
Proof.
  intros Hp. unfold sizeOf.
  destruct (p <? 0)%Z eqn:E; [apply Z.ltb_lt in E; lia|].
  eexists. split; [reflexivity|]. unfold rectArea. cbn [fst snd].
  assert (Ha : 0 <= areaOf p / aspectRatio).
  { pose proof (areaOf_mono 0 p Hp) as H0. unfold areaOf, aspectRatio in *.
    Lra.lra. }
  rewrite Rmult_assoc, (Rmult_comm aspectRatio), <- Rmult_assoc.
  rewrite (sqrt_sqrt _ Ha). unfold aspectRatio. field.
Qed.

Lemma sizeOf_zero : sizeOf 0 = Some (0, 0).
Proof.
  unfold sizeOf, areaOf, aspectRatio. cbn [Z.ltb Z.compare].
  replace (0 / 100 * 20 / (2 / 3)) with 0 by field.
  rewrite sqrt_0. do 2 f_equal. Lra.lra.
Qed.

Lemma sizeOf_negative (p : Z) : (p < 0)%Z -> sizeOf p = None.
Proof. intros H. unfold sizeOf. apply Z.ltb_lt in H. now rewrite H. Qed.

Lemma sizeOf_positive (p : Z) :
  (0 < p)%Z -> exists w h, sizeOf p = Some (w, h) /\ 0 < w /\ 0 < h.
Proof.
  intros Hp. unfold sizeOf.
  destruct (p <? 0)%Z eqn:E; [apply Z.ltb_lt in E; lia|].
  do 2 eexists. split; [reflexivity|].
  assert (Ha : 0 < areaOf p / aspectRatio).
  { apply IZR_lt in Hp. unfold areaOf, aspectRatio. Lra.lra. }
  apply sqrt_lt_R0 in Ha. set (h := sqrt _) in *.
  unfold aspectRatio. split; Lra.lra.
Qed.

End LinearFacts.


(** * Square roots: the closed forms are the exact roots *)
Module RootFacts.
Local Open Scope R_scope.

Lemma quotient_bounds (n d : Z) :
  (0 < d)%Z ->
  IZR (n / d) <= IZR n / IZR d < IZR (n / d) + 1.
Proof.
  intros Hd.
  pose proof (Z.mul_div_le n d Hd) as H1.
  pose proof (Z.mul_succ_div_gt n d Hd) as H2.
  apply IZR_le in H1. apply IZR_lt in H2. apply IZR_lt in Hd.
  unfold Z.succ in H2. rewrite mult_IZR in H1. rewrite mult_IZR, plus_IZR in H2.
  split.
  - apply Rmult_le_reg_l with (IZR d); auto.
    replace (IZR d * (IZR n / IZR d)) with (IZR n) by (field; Lra.lra). auto.
  - apply Rmult_lt_reg_l with (IZR d); auto.
    replace (IZR d * (IZR n / IZR d)) with (IZR n) by (field; Lra.lra). auto.
Qed.

Lemma floorSqrt_exact (n d : Z) :
  (0 <= n)%Z -> (0 < d)%Z ->
  IZR (floorSqrt n d) <= sqrt (IZR n / IZR d) < IZR (floorSqrt n d) + 1.
Proof.
  intros Hn Hd. unfold floorSqrt.
  assert (Hq : (0 <= n / d)%Z) by (apply Z.div_pos; lia).
  destruct (Z.sqrt_spec _ Hq) as [S1 S2].
  pose proof (Z.sqrt_nonneg (n / d)) as S0.
  set (s := Z.sqrt (n / d)) in *.
  destruct (quotient_bounds n d Hd) as [Q1 Q2].
  assert (S3 : (n / d + 1 <= (s + 1) * (s + 1))%Z) by lia.
  apply IZR_le in S1, S0, S3.
  rewrite mult_IZR in S1. rewrite mult_IZR, !plus_IZR in S3.
  split.
  - rewrite <- (sqrt_square (IZR s)) at 1 by assumption.
    apply sqrt_le_1_alt. Lra.lra.
  - rewrite <- (sqrt_square (IZR s + 1)) by Lra.lra.
    apply sqrt_lt_1_alt. split; [|Lra.lra].
    apply Rle_trans with (IZR (n / d)); [apply IZR_le; lia|assumption].
Qed.

Lemma roundSqrt_exact (n d : Z) :
  (0 <= n)%Z -> (0 < d)%Z ->
  IZR (roundSqrt n d) <= sqrt (IZR n / IZR d) + 1 / 2 < IZR (roundSqrt n d) + 1.
Proof.
  intros Hn Hd. unfold roundSqrt.
  destruct (floorSqrt_exact (4 * n) d ltac:(lia) Hd) as [F1 F2].
  set (m := floorSqrt (4 * n) d) in *.
  assert (E : sqrt (IZR (4 * n) / IZR d) = 2 * sqrt (IZR n / IZR d)).
  { rewrite mult_IZR. replace (4 * IZR n / IZR d) with ((2 * 2) * (IZR n / IZR d)).
    - rewrite sqrt_mult_alt by Lra.lra. rewrite sqrt_square by Lra.lra. reflexivity.
    - apply IZR_lt in Hd. field. Lra.lra. }
  rewrite E in F1, F2.
  pose proof (Z.mul_div_le (m + 1) 2 ltac:(lia)) as K1.
  pose proof (Z.mul_succ_div_gt (m + 1) 2 ltac:(lia)) as K2.
  set (k := ((m + 1) / 2)%Z) in *.
  assert (K1' : (2 * k - 1 <= m)%Z) by lia.
  assert (K2' : (m + 1 <= 2 * k + 1)%Z) by lia.
  apply IZR_le in K1', K2'.
  rewrite minus_IZR, mult_IZR in K1'. rewrite !plus_IZR, mult_IZR in K2'.
  split; Lra.lra.
Qed.

(** The expression under [Math.round] in the tier computation. *)
Lemma tier_root (t maxTime : Z) :
  (0 <= t)%Z -> (0 < maxTime)%Z ->
  sqrt (IZR t) / sqrt (IZR maxTime) * IZR Tiered.TIER_MAX
  = sqrt (IZR (Tiered.TIER_MAX * Tiered.TIER_MAX * t) / IZR maxTime).
Proof.
  intros Ht HM. apply IZR_le in Ht. apply IZR_lt in HM.
  unfold Tiered.TIER_MAX. rewrite !mult_IZR.
  rewrite sqrt_div_alt by assumption.
  rewrite sqrt_mult_alt by Lra.lra. rewrite sqrt_square by Lra.lra.
  assert (0 < sqrt (IZR maxTime)) by now apply sqrt_lt_R0.
  field. Lra.lra.
Qed.

Lemma roundTier_exact (t maxTime : Z) :
  (0 <= t)%Z -> (0 < maxTime)%Z ->
  IZR (Tiered.roundTier t maxTime)
    <= sqrt (IZR t) / sqrt (IZR maxTime) * IZR Tiered.TIER_MAX + 1 / 2
    < IZR (Tiered.roundTier t maxTime) + 1.
Proof.
  intros Ht HM. rewrite tier_root by assumption.
  apply roundSqrt_exact; [unfold Tiered.TIER_MAX; lia|assumption].
Qed.

(** The expressions under [Math.round] in [calculateCanvasDimensions]. *)
Lemma canvas_width_root (totalArea : Z) :
  (0 <= totalArea)%Z ->
  sqrt (IZR totalArea * (9 / 16)) / 100
  = sqrt (IZR (totalArea * 9) / IZR (16 * 10000)).
Proof.
  intros Ht. apply IZR_le in Ht. rewrite !mult_IZR.
  replace (IZR totalArea * 9 / (16 * 10000))
    with (IZR totalArea * (9 / 16) / (100 * 100)) by field.
  rewrite sqrt_div_alt by Lra.lra. rewrite sqrt_square by Lra.lra. reflexivity.
Qed.

Lemma canvas_height_root (totalArea : Z) :
  (0 <= totalArea)%Z ->
  sqrt (IZR totalArea * (9 / 16)) / (9 / 16) / 100
  = sqrt (IZR (totalArea * 16) / IZR (9 * 10000)).
Proof.
  intros Ht. apply IZR_le in Ht. rewrite !mult_IZR.
  replace (IZR totalArea * 16 / (9 * 10000))
    with (IZR totalArea * (9 / 16) / ((9 / 16 * 100) * (9 / 16 * 100))) by field.
  rewrite sqrt_div_alt by Lra.lra. rewrite sqrt_square by Lra.lra.
  field.
Qed.

(** [gridColsOf] is [Math.max(1, Math.floor(...))] of the source's
    expression. *)
Lemma gridCols_exact (W H totalUnits maxMult : Z) :
  (0 < W)%Z -> (0 < H)%Z -> (1 <= maxMult)%Z ->
  exists g : Z,
    Tiered.gridColsOf W H totalUnits maxMult = Z.max 1 g /\
    IZR g <= Tiered.gridColsExpr W H totalUnits maxMult < IZR g + 1.
Proof.
  intros HW HH Hmm.
  set (T := Z.max totalUnits 1).
  assert (HT : (1 <= T)%Z) by (subst T; lia).
  set (fs := floorSqrt (3 * T * W) (2 * H)).
  exists (Z.min W (Z.max fs maxMult)). split; [reflexivity|].
  destruct (floorSqrt_exact (3 * T * W) (2 * H) ltac:(nia) ltac:(lia)) as [F1 F2].
  fold fs in F1, F2.
  set (rho := sqrt (IZR (3 * T * W) / IZR (2 * H))) in *.
  unfold Tiered.gridColsExpr. fold T.
  set (u0 := sqrt (IZR (W * H) / IZR T / (2 / 3)) * (2 / 3)).
  assert (RW : 0 < IZR W) by now apply IZR_lt.
  assert (RH : 0 < IZR H) by now apply IZR_lt.
  assert (RT : 1 <= IZR T) by now apply IZR_le.
  assert (Rm : 1 <= IZR maxMult) by now apply IZR_le.
  assert (Hu0 : 0 < u0).
  { subst u0. apply Rmult_lt_0_compat; [|Lra.lra]. apply sqrt_lt_R0.
    rewrite mult_IZR. apply Rdiv_lt_0_compat; [|Lra.lra].
    apply Rdiv_lt_0_compat; [|Lra.lra]. now apply Rmult_lt_0_compat. }
  assert (Hprod : u0 * rho = IZR W).
  { subst u0 rho. rewrite Rmult_assoc, (Rmult_comm (2 / 3)), <- Rmult_assoc.
    rewrite <- sqrt_mult_alt.
    - replace (IZR (W * H) / IZR T / (2 / 3) * (IZR (3 * T * W) / IZR (2 * H)))
        with ((3 / 2 * IZR W) * (3 / 2 * IZR W)).
      + rewrite sqrt_square by Lra.lra. field.
      + rewrite !mult_IZR. field. split; Lra.lra.
    - rewrite mult_IZR. apply Rlt_le. apply Rdiv_lt_0_compat; [|Lra.lra].
      apply Rdiv_lt_0_compat; [|Lra.lra]. now apply Rmult_lt_0_compat. }
  assert (Hrho : 0 <= rho) by (subst rho; apply sqrt_pos).
  assert (Hw : forall z : Z, IZR z < IZR fs + 1 -> (z <= fs)%Z).
  { intros z Hz. apply Z.lt_succ_r. apply lt_IZR.
    unfold Z.succ. now rewrite plus_IZR. }
  destruct (Rlt_dec (IZR W) (IZR maxMult * u0)) as [Hsc|Hsc].
  - (* the widest item would not fit: the unit is W / maxMult *)
    assert (Hlt : rho < IZR maxMult).
    { apply Rmult_lt_reg_l with u0; auto. rewrite Hprod.
      now rewrite Rmult_comm. }
    assert (Hfs : (fs <= maxMult)%Z).
    { apply le_IZR. Lra.lra. }
    replace (u0 * (IZR W / (IZR maxMult * u0))) with (IZR W / IZR maxMult)
      by (field; split; Lra.lra).
    rewrite Z.max_r by assumption.
    destruct (Z.le_gt_cases maxMult W) as [Hle|Hgt].
    + rewrite Z.min_r by assumption.
      assert (1 <= IZR W / IZR maxMult).
      { apply IZR_le in Hle. apply Rmult_le_reg_r with (IZR maxMult); [Lra.lra|].
        replace (IZR W / IZR maxMult * IZR maxMult) with (IZR W)
          by (field; Lra.lra). Lra.lra. }
      rewrite Rmax_left by assumption.
      replace (IZR W / (IZR W / IZR maxMult)) with (IZR maxMult)
        by (field; split; Lra.lra).
      Lra.lra.
    + rewrite Z.min_l by lia.
      assert (IZR W / IZR maxMult <= 1).
      { apply IZR_lt in Hgt. apply Rmult_le_reg_r with (IZR maxMult); [Lra.lra|].
        replace (IZR W / IZR maxMult * IZR maxMult) with (IZR W)
          by (field; Lra.lra). Lra.lra. }
      rewrite Rmax_right by assumption.
      replace (IZR W / 1) with (IZR W) by field. Lra.lra.
  - (* the unit is u0 *)
    assert (Hge : IZR maxMult <= rho).
    { apply Rnot_lt_le in Hsc. apply Rmult_le_reg_l with u0; auto.
      rewrite Hprod. now rewrite Rmult_comm. }
    assert (Hfs : (maxMult <= fs)%Z) by (apply Hw; Lra.lra).
    rewrite Z.max_l by assumption.
    destruct (Rle_lt_dec 1 u0) as [H1|H1].
    + rewrite Rmax_left by assumption.
      replace (IZR W / u0) with rho by (rewrite <- Hprod; field; Lra.lra).
      assert (rho <= IZR W).
      { rewrite <- Hprod. rewrite <- (Rmult_1_l rho) at 1.
        apply Rmult_le_compat_r; assumption. }
      assert ((fs <= W)%Z) by (apply le_IZR; Lra.lra).
      rewrite Z.min_r by assumption. split; assumption.
    + rewrite Rmax_right by Lra.lra.
      replace (IZR W / 1) with (IZR W) by field.
      assert (IZR W <= rho).
      { rewrite <- Hprod. rewrite <- (Rmult_1_l rho) at 2.
        apply Rmult_le_compat_r; Lra.lra. }
      assert ((W <= fs)%Z) by (apply Hw; Lra.lra).
      rewrite Z.min_l by assumption. Lra.lra.
Qed.

End RootFacts.

(** * The examples are runs of the page *)

Lemma layoutFill_packPrepared (jitter : Z -> Q) (initialGames : list SteamGame)
    (canvas : Z * Z) :
  Tiered.layoutFill jitter initialGames canvas
  = Tiered.packPrepared (fst canvas) (snd canvas)
      (fst (Tiered.unitCell (Tiered.tierItems initialGames) canvas))
      (snd (Tiered.unitCell (Tiered.tierItems initialGames) canvas))
      (Tiered.preparedOf jitter initialGames canvas).
Proof.
  unfold Tiered.layoutFill, Tiered.preparedOf.
  destruct (Tiered.unitCell _ _) as [bw bh]. reflexivity.
Qed.

Lemma library_run :
  Scenario.canvas = (1100, 1920) /\
  Tiered.unitCell (Tiered.tierItems Scenario.library) Scenario.canvas = (110, 165) /\
  Tiered.layoutGames Scenario.jitter Scenario.library Scenario.canvas
  = Tiered.f_results
      (Tiered.packPrepared 1100 1920 110 165
         (Tiered.preparedOf Scenario.jitter Scenario.library Scenario.canvas)).
Proof. repeat split; vm_compute; reflexivity. Qed.

(** A playtime of [30 * k * k] minutes is given, by the size formula of
    the naive version, the rectangle of [2 * k] by [3 * k]. *)
Lemma sizeOf_square (k : Z) :
  0 <= k ->
  LinearSize.sizeOf (30 * k * k) = Some (IZR (2 * k), IZR (3 * k)).
Proof.
  intros Hk. unfold LinearSize.sizeOf.
  destruct (30 * k * k <? 0) eqn:E; [apply Z.ltb_lt in E; nia|].
  apply IZR_le in Hk.
  assert (Hh : sqrt (LinearSize.areaOf (30 * k * k) / LinearSize.aspectRatio)
               = IZR (3 * k)).
  { unfold LinearSize.areaOf, LinearSize.aspectRatio. rewrite !mult_IZR.
    replace (30 * IZR k * IZR k / 100 * 20 / (2 / 3))%R
      with ((3 * IZR k) * (3 * IZR k))%R by field.
    apply sqrt_square. Lra.lra. }
  cbv zeta. rewrite Hh. f_equal. f_equal.
  unfold LinearSize.aspectRatio. rewrite !mult_IZR. field.
Qed.

Lemma shelf_sizes :
  Forall (fun g =>
            exists k, 0 <= k /\
              playtime_forever (Naive.sg_game g) = 30 * k * k /\
              Naive.sg_width g = inject_Z (2 * k) /\
              Naive.sg_height g = inject_Z (3 * k))
         Scenario.shelf.
Proof.
  repeat constructor;
    [exists 370|exists 180|exists 130|exists 30];
    repeat split; lia.
Qed.

(** * Doubles: differences and order

    From the specification of the primitive operations in the Standard
    Library ([FloatAxioms], over [SpecFloat]): the difference of two
    doubles, rounded, is more than zero when the first is the larger. *)
Module DoubleFacts.
Import SpecFloat.

Abbreviation prec := FloatOps.prec.
Abbreviation emax := FloatOps.emax.

(** A double that is more than zero: a positive number or [+Infinity]. *)
Definition positiveSF (x : spec_float) : Prop :=
  match x with
  | S754_infinity false => True
  | S754_finite false _ _ => True
  | _ => False
  end.

Lemma digits2_pos_bounds (p : positive) :
  2 ^ (Zpos (digits2_pos p) - 1) <= Zpos p < 2 ^ Zpos (digits2_pos p).
Proof.
  induction p as [p IH|p IH|]; cbn [digits2_pos].
  - rewrite Pos2Z.inj_succ.
    replace (Z.succ (Zpos (digits2_pos p)) - 1) with (Z.succ (Zpos (digits2_pos p) - 1)) by lia.
    rewrite !Z.pow_succ_r by lia. lia.
  - rewrite Pos2Z.inj_succ.
    replace (Z.succ (Zpos (digits2_pos p)) - 1) with (Z.succ (Zpos (digits2_pos p) - 1)) by lia.
    rewrite !Z.pow_succ_r by lia. lia.
  - simpl. lia.
Qed.

Lemma valid_finite (s : bool) (m : positive) (e : Z) :
  valid_binary prec emax (S754_finite s m e) = true ->
  -1074 <= e /\ Zpos (digits2_pos m) <= 53 /\
  (-1074 < e -> Zpos (digits2_pos m) = 53).
Proof.
  cbn [valid_binary]. unfold bounded, canonical_mantissa, fexp, emin.
  change prec with 53. change emax with 1024.
  intros H. apply andb_prop in H. destruct H as [H _].
  apply Z.eqb_eq in H. lia.
Qed.

Lemma iter_xO (m d : positive) : Zpos (Pos.iter xO m d) = Zpos m * 2 ^ Zpos d.
Proof.
  induction d as [|d IH] using Pos.peano_ind.
  - simpl. lia.
  - rewrite Pos.iter_succ, Pos2Z.inj_succ, Z.pow_succ_r by lia.
    rewrite Pos2Z.inj_xO, IH. lia.
Qed.

Lemma shl_align_value (m : positive) (e e' : Z) :
  e' <= e ->
  Zpos (fst (shl_align m e e')) = Zpos m * 2 ^ (e - e').
Proof.
  intros H. unfold shl_align.
  destruct (e' - e) as [|d|d] eqn:E; try lia.
  - replace (e - e') with 0 by lia. simpl. lia.
  - cbn [fst]. rewrite iter_xO. f_equal. f_equal. lia.
Qed.

(** Shifting right. *)
Lemma shr_1_m (mrs : shr_record) :
  0 <= shr_m mrs -> shr_m (shr_1 mrs) = shr_m mrs / 2.
Proof.
  destruct mrs as [m r s]. cbn [shr_m]. intros H.
  destruct m as [|p|p]; [reflexivity| |lia].
  destruct p as [p|p|]; cbn [shr_1 shr_m].
  - rewrite Pos2Z.inj_xI. apply Z.div_unique with 1; lia.
  - rewrite Pos2Z.inj_xO. apply Z.div_unique with 0; lia.
  - reflexivity.
Qed.

Lemma iter_shr_1_m (k : positive) :
  forall mrs, 0 <= shr_m mrs ->
    shr_m (iter_pos shr_1 k mrs) = shr_m mrs / 2 ^ Zpos k.
Proof.
  induction k as [k IH|k IH|]; intros mrs H; cbn [iter_pos].
  - assert (Hp : 0 < 2 ^ Zpos k) by (apply Z.pow_pos_nonneg; lia).
    assert (H1 : 0 <= shr_m (shr_1 mrs))
      by (rewrite shr_1_m by exact H; apply Z.div_pos; lia).
    assert (H2 : 0 <= shr_m (iter_pos shr_1 k (shr_1 mrs)))
      by (rewrite IH by exact H1; apply Z.div_pos; lia).
    rewrite IH by exact H2. rewrite IH by exact H1. rewrite shr_1_m by exact H.
    rewrite !Z.div_div by lia.
    f_equal. replace (Zpos k~1) with (1 + Zpos k + Zpos k) by lia.
    rewrite !Z.pow_add_r by lia. lia.
  - assert (Hp : 0 < 2 ^ Zpos k) by (apply Z.pow_pos_nonneg; lia).
    assert (H2 : 0 <= shr_m (iter_pos shr_1 k mrs))
      by (rewrite IH by exact H; apply Z.div_pos; lia).
    rewrite IH by exact H2. rewrite IH by exact H.
    rewrite !Z.div_div by lia.
    f_equal. replace (Zpos k~0) with (Zpos k + Zpos k) by lia.
    rewrite !Z.pow_add_r by lia. lia.
  - rewrite shr_1_m by exact H. reflexivity.
Qed.

Lemma shr_record_of_loc_m (m : Z) (l : location) :
  shr_m (shr_record_of_loc m l) = m.
Proof. destruct l as [|[| |]]; reflexivity. Qed.

(** Rounding to the format keeps a positive mantissa positive, when the
    exponent is one of the format. *)
Lemma shr_fexp_positive (m e : Z) (l : location) :
  0 < m -> -1074 <= e ->
  0 < shr_m (fst (shr_fexp prec emax m e l)) /\
  -1074 <= snd (shr_fexp prec emax m e l).
Proof.
  intros Hm He. unfold shr_fexp, shr.
  destruct m as [|p|p]; try lia.
  cbn [Zdigits2]. unfold fexp, emin. change prec with 53. change emax with 1024.
  pose proof (digits2_pos_bounds p) as Hd.
  set (d := Zpos (digits2_pos p)) in *.
  destruct (Z.max (d + e - 53) (3 - 1024 - 53) - e) as [|k|k] eqn:E;
    cbn [fst snd]; rewrite ?shr_record_of_loc_m; try lia.
  split; [|lia].
  rewrite iter_shr_1_m by (rewrite shr_record_of_loc_m; lia).
  rewrite shr_record_of_loc_m.
  assert (Hk : Zpos k <= d - 1) by lia.
  apply Z.div_str_pos. split; [apply Z.pow_pos_nonneg; lia|].
  eapply Z.le_trans; [|apply Hd].
  apply Z.pow_le_mono_r; lia.
Qed.

Lemma round_nearest_even_positive (m : Z) (l : location) :
  0 < m -> 0 < round_nearest_even m l.
Proof.
  intros H. destruct l as [|[| |]]; cbn [round_nearest_even]; try lia.
  destruct (Z.even m); lia.
Qed.

Lemma binary_round_aux_positive (m e : Z) (l : location) :
  0 < m -> -1074 <= e ->
  positiveSF (binary_round_aux prec emax false m e l).
Proof.
  intros Hm He. unfold binary_round_aux.
  pose proof (shr_fexp_positive m e l Hm He) as [H1 H1'].
  destruct (shr_fexp prec emax m e l) as [mrs' e'] eqn:E1. cbn [fst snd] in *.
  pose proof (shr_fexp_positive _ e' loc_Exact
                (round_nearest_even_positive _ (loc_of_shr_record mrs') H1) H1')
    as [H2 _].
  destruct (shr_fexp prec emax _ e' loc_Exact) as [mrs'' e''] eqn:E2.
  cbn [fst] in H2.
  destruct (shr_m mrs'') as [|q|q]; try lia.
  destruct (e'' <=? emax - prec); exact I.
Qed.

Lemma binary_normalize_positive (m e : Z) :
  0 < m -> -1074 <= e ->
  positiveSF (binary_normalize prec emax m e false).
Proof.
  intros Hm He. destruct m as [|p|p]; try lia.
  cbn [binary_normalize]. unfold binary_round.
  destruct (shl_align p e (fexp prec emax (Zpos (digits2_pos p) + e)))
    as [mz ez] eqn:E.
  apply binary_round_aux_positive; [lia|].
  unfold shl_align in E.
  assert (Hf : -1074 <= fexp prec emax (Zpos (digits2_pos p) + e)).
  { unfold fexp, emin. change prec with 53. change emax with 1024. lia. }
  destruct (fexp prec emax (Zpos (digits2_pos p) + e) - e);
    injection E as _ Ez; rewrite <- Ez; (exact Hf || exact He).
Qed.

(** A mantissa of full length is at least [2^52]; any mantissa is below
    [2^53]. *)
Lemma mantissa_bounds (s : bool) (m : positive) (e : Z) :
  valid_binary prec emax (S754_finite s m e) = true ->
  -1074 <= e /\ Zpos m < 2 ^ 53 /\ (-1074 < e -> 2 ^ 52 <= Zpos m).
Proof.
  intros H. apply valid_finite in H. destruct H as (He & Hd & Hn).
  pose proof (digits2_pos_bounds m) as [Hl Hu].
  split; [exact He|]. split.
  - eapply Z.lt_le_trans; [exact Hu|]. apply Z.pow_le_mono_r; lia.
  - intros H. rewrite (Hn H) in Hl. exact Hl.
Qed.

Lemma shifted_above (m m' : positive) (e e' : Z) :
  e' < e -> 2 ^ 52 <= Zpos m -> Zpos m' < 2 ^ 53 ->
  Zpos m' < Zpos m * 2 ^ (e - e').
Proof.
  intros He Hm Hm'.
  assert (H2 : 2 ^ 1 <= 2 ^ (e - e')) by (apply Z.pow_le_mono_r; lia).
  change (2 ^ 1) with 2 in H2.
  change (2 ^ 53) with (2 ^ 52 * 2) in Hm'. nia.
Qed.

(** The difference of two doubles, the larger first, is more than zero. *)
Lemma SFsub_positive (x y : spec_float) :
  valid_binary prec emax x = true -> valid_binary prec emax y = true ->
  SFltb y x = true -> positiveSF (SFsub prec emax x y).
Proof.
  intros Vx Vy. unfold SFltb.
  destruct x as [sx|sx| |sx mx ex]; destruct y as [sy|sy| |sy my ey];
    try (destruct sx; destruct sy; cbn; intros; (discriminate || exact I));
    try (destruct sx; cbn; intros; (discriminate || exact I));
    try (destruct sy; cbn; intros; (discriminate || exact I));
    try (cbn; intros; discriminate).
  cbn [SFcompare SFsub]. intros H.
  apply mantissa_bounds in Vx, Vy.
  destruct Vx as (Ex & Ux & Lx). destruct Vy as (Ey & Uy & Ly).
  assert (Hx : Zpos (fst (shl_align mx ex (Z.min ex ey)))
               = Zpos mx * 2 ^ (ex - Z.min ex ey))
    by (apply shl_align_value; lia).
  assert (Hy : Zpos (fst (shl_align my ey (Z.min ex ey)))
               = Zpos my * 2 ^ (ey - Z.min ex ey))
    by (apply shl_align_value; lia).
  assert (Px : 0 < 2 ^ (ex - Z.min ex ey)) by (apply Z.pow_pos_nonneg; lia).
  assert (Py : 0 < 2 ^ (ey - Z.min ex ey)) by (apply Z.pow_pos_nonneg; lia).
  apply binary_normalize_positive; [|lia].
  rewrite Hx, Hy.
  destruct sx; destruct sy; cbn [cond_Zopp]; try discriminate.
  - (* both negative: [y < x] is [|x| < |y|] *)
    destruct (Z.compare_spec ey ex) as [E|E|E]; try discriminate.
    + subst ey. rewrite Z.min_id, Z.sub_diag in *.
      rewrite Pos.compare_cont_spec in H. cbn [Pos.switch_Eq] in H.
      destruct (Pos.compare_spec my mx) as [C|C|C]; try discriminate.
      change (2 ^ 0) with 1. lia.
    + replace (Z.min ex ey) with ex in * by lia.
      rewrite Z.sub_diag. change (2 ^ 0) with 1.
      pose proof (shifted_above my mx ey ex E (Ly ltac:(lia)) Ux). lia.
  - (* [x] positive, [y] negative *) nia.
  - (* both positive *)
    destruct (Z.compare_spec ey ex) as [E|E|E]; try discriminate.
    + subst ey. rewrite Z.min_id, Z.sub_diag in *.
      rewrite Pos.compare_cont_spec in H. cbn [Pos.switch_Eq] in H.
      destruct (Pos.compare_spec my mx) as [C|C|C]; try discriminate.
      change (2 ^ 0) with 1. lia.
    + replace (Z.min ex ey) with ey in * by lia.
      rewrite Z.sub_diag. change (2 ^ 0) with 1.
      pose proof (shifted_above mx my ex ey E (Lx ltac:(lia)) Uy). lia.
Qed.

(** What is at least a double that is more than zero is more than zero. *)
Lemma SFleb_positive (x y : spec_float) :
  positiveSF x -> SFleb x y = true -> positiveSF y.
Proof.
  unfold SFleb.
  destruct x as [sx|sx| |sx mx ex]; destruct y as [sy|sy| |sy my ey];
    try (destruct sx); try (destruct sy); cbn; intros; try tauto;
    try discriminate.
Qed.

Lemma Prim2SF_zero : FloatOps.Prim2SF PrimFloat.zero = S754_zero false.
Proof. reflexivity. Qed.

Lemma ltb_zero (f : PrimFloat.float) :
  PrimFloat.ltb PrimFloat.zero f = true <-> positiveSF (FloatOps.Prim2SF f).
Proof.
  rewrite FloatAxioms.ltb_spec, Prim2SF_zero. unfold SFltb.
  destruct (FloatOps.Prim2SF f) as [s|s| |s m e]; try (destruct s); cbn;
    split; intros; try tauto; try discriminate.
Qed.

(** [a < b] gives [0 < b - a], on doubles. *)
Lemma sub_positive (a b : PrimFloat.float) :
  PrimFloat.ltb a b = true ->
  PrimFloat.ltb PrimFloat.zero (PrimFloat.sub b a) = true.
Proof.
  intros H. apply ltb_zero. rewrite FloatAxioms.sub_spec.
  apply SFsub_positive; try apply FloatAxioms.Prim2SF_valid.
  now rewrite <- FloatAxioms.ltb_spec.
Qed.

(** [0 < a] and [a <= b] give [0 < b], on doubles. *)
Lemma leb_positive (a b : PrimFloat.float) :
  PrimFloat.ltb PrimFloat.zero a = true -> PrimFloat.leb a b = true ->
  PrimFloat.ltb PrimFloat.zero b = true.
Proof.
  intros Ha Hab. apply ltb_zero. apply ltb_zero in Ha.
  rewrite FloatAxioms.leb_spec in Hab. eapply SFleb_positive; eauto.
Qed.

End DoubleFacts.

(** * The naive version in doubles: the scan and the loop *)
Module NaiveDFacts.
Import Doubles NaiveD.

(** What the scan returns is what it was handed, or an element of the
    array that the item fits, with its index. *)
Lemma scan_found (game : SizedGame) :
  forall frs i0 best i node,
    snd (scan game frs i0 best) = Some (i, node) ->
    snd best = Some (i, node) \/
    exists t, (i0 <= i)%nat /\ nth_error frs (i - i0) = Some t /\
      node = mkRect (x t) (y t) (sg_width game) (sg_height game) /\
      PrimFloat.leb (sg_width game) (width t) = true /\
      PrimFloat.leb (sg_height game) (height t) = true.
Proof.
  induction frs as [|freeRect frs IH]; intros i0 best i node H; cbn [scan] in H;
    [now left|].
  apply IH in H. destruct H as [H|(t & Hi & Ht & Hn & Hf)].
  - destruct (PrimFloat.leb (sg_width game) (width freeRect)) eqn:Ew;
      destruct (PrimFloat.leb (sg_height game) (height freeRect)) eqn:Eh;
      cbn [andb] in H; auto.
    destruct (PrimFloat.ltb _ (fst best)); auto.
    cbn [snd] in H. inversion H; subst. right. exists freeRect.
    rewrite Nat.sub_diag. repeat split; auto.
  - right. exists t. split; [lia|]. split; auto.
    replace (i - i0)%nat with (S (i - S i0)) by lia. exact Ht.
Qed.

Lemma chosen_found (game : SizedGame) (frs : list Rect) (i : nat) (node : Rect) :
  chosen game frs = Some (i, node) ->
  exists t, nth_error frs i = Some t /\
    node = mkRect (x t) (y t) (sg_width game) (sg_height game) /\
    PrimFloat.leb (sg_width game) (width t) = true /\
    PrimFloat.leb (sg_height game) (height t) = true.
Proof.
  unfold chosen. intros H. apply scan_found in H.
  destruct H as [H|(t & _ & Ht & Hn & Hf)]; [discriminate|].
  rewrite Nat.sub_0_r in Ht. eauto.
Qed.

(** Beside an item with positive sides, in a rectangle it fits, no
    remainder has a side that is zero, negative or [NaN]. *)
Lemma remainders_positive (fr : Rect) (w h : float) :
  PrimFloat.ltb (ofZ 0) w = true -> PrimFloat.ltb (ofZ 0) h = true ->
  PrimFloat.leb w (width fr) = true -> PrimFloat.leb h (height fr) = true ->
  Forall (fun r => PrimFloat.ltb (ofZ 0) (width r) = true /\
                   PrimFloat.ltb (ofZ 0) (height r) = true)
         (remainders fr w h).
Proof.
  change (ofZ 0) with PrimFloat.zero. intros Hw Hh Fw Fh.
  pose proof (DoubleFacts.leb_positive _ _ Hw Fw) as HW.
  pose proof (DoubleFacts.leb_positive _ _ Hh Fh) as HH.
  unfold remainders.
  destruct (PrimFloat.ltb w (width fr)) eqn:E1;
    destruct (PrimFloat.ltb h (height fr)) eqn:E2;
    cbn [app]; repeat (apply Forall_cons || apply Forall_nil);
    cbn [width height]; split; auto using DoubleFacts.sub_positive.
Qed.

(** A turn of the loop that finds a rectangle takes it out of the array
    and pushes its remainders. *)
Lemma placeStep_chosen (st : Pack) (game : SizedGame) (i : nat) (node : Rect) :
  chosen game (freeRects st) = Some (i, node) ->
  exists toSplit,
    nth_error (freeRects st) i = Some toSplit /\
    node = mkRect (x toSplit) (y toSplit) (sg_width game) (sg_height game) /\
    placeStep st game
    = mkPack (removeAt i (freeRects st)
                ++ remainders toSplit (sg_width game) (sg_height game))
             (results st ++ [mkLayout game (x toSplit) (y toSplit)]).
Proof.
  intros H. destruct (chosen_found _ _ _ _ H) as (t & Ht & Hn & _).
  exists t. split; auto. split; auto.
  unfold placeStep. rewrite H, Ht, Hn. reflexivity.
Qed.

End NaiveDFacts.

(** * The run and the heap *)
Module RunFacts.
Import Run.

Lemma assign_other (a : list SteamGame) :
  forall h r r', r <> r' -> deref (assign r a h) r' = deref h r'.
Proof.
  unfold deref. induction h as [|b h IH]; intros r r' Hr;
    [destruct r; reflexivity|].
  destruct r as [|r]; destruct r' as [|r']; cbn [assign nth]; auto;
    congruence.
Qed.

Lemma assign_same (a : list SteamGame) :
  forall h r, (r < List.length h)%nat -> deref (assign r a h) r = a.
Proof.
  unfold deref. induction h as [|b h IH]; intros r Hr; [simpl in Hr; lia|].
  destruct r as [|r]; cbn [assign nth]; auto.
  apply IH. simpl in Hr. lia.
Qed.

Lemma deref_new (h : Heap) (a : list SteamGame) :
  deref (h ++ [a]) (List.length h) = a.
Proof. unfold deref. now rewrite nth_middle. Qed.

(** An array that has elements is an array of the heap. *)
Lemma deref_valid (h : Heap) (r : Ref) :
  deref h r <> [] -> (r < List.length h)%nat.
Proof.
  unfold deref. intros H. destruct (Nat.lt_ge_cases r (List.length h)); auto.
  exfalso. apply H. now apply nth_overflow.
Qed.

Lemma deref_old (h : Heap) (a : list SteamGame) (r : Ref) :
  (r < List.length h)%nat -> deref (h ++ [a]) r = deref h r.
Proof. unfold deref. intros H. now apply app_nth1. Qed.

Lemma sortBy_nil {A : Type} (cmp : A -> A -> comparison) (l : list A) :
  sortBy cmp l = [] -> l = [].
Proof.
  intros H. pose proof (sortBy_Permutation cmp l) as P. rewrite H in P.
  now apply Permutation_nil in P.
Qed.

(** The rest of the body computes what [Tiered.layoutGames] does. *)
Lemma fromBaseList_sorted (jitter : Z -> Q) (games : list SteamGame)
    (canvasDimensions : Z * Z) :
  fromBaseList jitter (sortBy Tiered.byPlaytimeDesc games) canvasDimensions
  = Tiered.layoutGames jitter games canvasDimensions.
Proof.
  unfold fromBaseList, Tiered.layoutGames.
  destruct (sortBy Tiered.byPlaytimeDesc games) as [|g0 rest] eqn:E.
  - apply sortBy_nil in E. now subst.
  - destruct games as [|g games]; [discriminate|].
    rewrite <- E. unfold Tiered.layoutFill.
    change (Tiered.tierItems (g :: games))
      with (tierItemsOf (sortBy Tiered.byPlaytimeDesc (g :: games))).
    destruct (Tiered.unitCell _ _) as [bw bh]. reflexivity.
Qed.

(** One run: what it returns, and the heap it leaves. *)
Lemma layoutGames_run (jitter : Z -> Q) (initialGames : Ref)
    (canvasDimensions : Z * Z) (h : Heap) :
  fst (layoutGames jitter initialGames canvasDimensions h)
  = Tiered.layoutGames jitter (deref h initialGames) canvasDimensions /\
  deref (snd (layoutGames jitter initialGames canvasDimensions h)) initialGames
  = deref h initialGames /\
  exists fresh,
    snd (layoutGames jitter initialGames canvasDimensions h) = h ++ fresh.
Proof.
  unfold layoutGames, bind, elements, ret, spread, sortInPlace.
  destruct (deref h initialGames) as [|g games] eqn:E.
  - cbn [fst snd]. repeat split; auto. exists []. now rewrite app_nil_r.
  - assert (Hv : (initialGames < List.length h)%nat)
      by (apply deref_valid; rewrite E; discriminate).
    cbn [fst snd]. rewrite !E. rewrite deref_new.
    assert (Hl : (List.length h < List.length (h ++ [g :: games]))%nat)
      by (rewrite length_app; simpl; lia).
    rewrite (assign_same _ _ _ Hl). split; [|split].
    + apply fromBaseList_sorted.
    + rewrite assign_other by lia. rewrite deref_old by exact Hv. exact E.
    + exists [sortBy Tiered.byPlaytimeDesc (g :: games)].
      clear. induction h as [|b h IH]; [reflexivity|].
      cbn [List.length assign app]. now rewrite IH.
Qed.

End RunFacts.

(** * The properties of the layout engine *)

Lemma layoutSized_results (items : list Naive.SizedGame) (canvas : Q * Q) :
  Naive.layoutSized items canvas
  = Naive.results (Naive.packSized items (fst canvas) (snd canvas)).
Proof. destruct items; reflexivity. Qed.

(** C1 fails on the naive version.  Three games with playtimes of 32355,
    3864 and 14301 minutes get the canvas of 1100 by 1920.  The code, in
    doubles, returns the third game at [y = 98.52157124203816], with the
    height [65.50038167827726], and the second game below it at
    [y = 164.0219529203154]; both start at [x = 0].  The bottom edge of the
    one lies [2^-46] below the top edge of the other: the interiors meet.
    The free rectangle the second game went into starts at the rounded sum
    [y + height]. *)
Lemma naive_rounding_overlap :
  Rounding.canvasOf Rounding.three = (1100, 1920) /\
  exists a b c rb rc,
    NaiveD.layoutGames Rounding.three (1100, 1920) = [a; b; c] /\
    appid (NaiveD.sg_game (NaiveD.lg_item b)) = 3 /\
    appid (NaiveD.sg_game (NaiveD.lg_item c)) = 2 /\
    NaiveD.exactRect (NaiveD.rectOf b) = Some rb /\
    NaiveD.exactRect (NaiveD.rectOf c) = Some rc /\
    (Naive.y rb + Naive.height rb - Naive.y rc == 1 # 70368744177664)%Q /\
    Naive.interiorsMeet rb rc.
Proof.
  split; [vm_compute; reflexivity|].
  do 5 eexists.
  split; [vm_compute; reflexivity|].
  split; [reflexivity|]. split; [reflexivity|].
  split; [vm_compute; reflexivity|]. split; [vm_compute; reflexivity|].
  split; [vm_compute; reflexivity|].
  match goal with |- Naive.interiorsMeet _ ?rc =>
    exists 1%Q, (Naive.y rc + (1 # 140737488355328))%Q end.
  repeat split; vm_compute; reflexivity.
Qed.

(** C2 fails on the naive version.  Ten games, each played between 1373 and
    2407 hours, get the canvas of 1100 by 1920.  The code, in doubles,
    returns the tenth game at [y = 1762.7397062192751] with the height
    [157.26029378072522]: its bottom edge is [13 * 2^-45] below the bottom
    of the canvas, and is so too when the sum is taken in doubles.  The
    height of the free rectangle it went into is a rounded difference. *)
Lemma naive_rounding_out_of_canvas :
  Rounding.canvasOf Rounding.ten = (1100, 1920) /\
  exists g r,
    nth_error (NaiveD.layoutGames Rounding.ten (1100, 1920)) 9 = Some g /\
    appid (NaiveD.sg_game (NaiveD.lg_item g)) = 10 /\
    NaiveD.exactRect (NaiveD.rectOf g) = Some r /\
    (Naive.y r + Naive.height r - 1920 == 13 # 35184372088832)%Q /\
    ~ (Naive.y r + Naive.height r <= 1920)%Q /\
    PrimFloat.ltb (Doubles.ofZ 1920)
      (PrimFloat.add (NaiveD.lg_y g) (NaiveD.sg_height (NaiveD.lg_item g)))
    = true.
Proof.
  split; [vm_compute; reflexivity|].
  do 2 eexists.
  split; [vm_compute; reflexivity|].
  split; [reflexivity|].
  split; [vm_compute; reflexivity|].
  split; [vm_compute; reflexivity|].
  split; [|vm_compute; reflexivity].
  intros H. vm_compute in H. now apply H.
Qed.

(** No overlap in the tiered version: in the list the packer returns, the
    interiors of two rectangles at different positions never meet (they
    may share an edge).  This covers the rectangles placed by the first
    phase and by the shelf fill-in pass, for sized items with positive
    sides. *)
Theorem tiered_no_overlap
    (W H bw bh : Z) (prepared : list Tiered.Prepared) :
  Forall Tiered.positiveItem prepared ->
  Tiered.NoOverlap (Tiered.f_results (Tiered.packPrepared W H bw bh prepared)).
Proof.
  intros Hp.
  eapply TieredFacts.tiling_NoOverlap, TieredFacts.packPrepared_tiling; eauto.
Qed.

Lemma tiered_no_overlap_witness :
  Tiered.NoOverlap
    (Tiered.f_results
       (Tiered.packPrepared 1100 1920 110 165
          (Tiered.preparedOf Scenario.jitter Scenario.library Scenario.canvas))).
Proof.
  apply tiered_no_overlap.
  repeat constructor; vm_compute; reflexivity.
Defined.

(** The same for [layoutGames] as the page calls it. *)
Corollary layoutGames_no_overlap (jitter : Z -> Q)
    (initialGames : list SteamGame) (W H : Z) :
  Tiered.NoOverlap (Tiered.layoutGames jitter initialGames (W, H)).
Proof.
  eapply TieredFacts.tiling_NoOverlap, TieredFacts.layoutGames_tiling.
Qed.

(** In bounds in the tiered version: every rectangle the packer returns
    lies in the canvas: [x >= 0], [y >= 0], [x + width <= canvas.width] and
    [y + height <= canvas.height]. *)
Theorem tiered_in_bounds
    (W H bw bh : Z) (prepared : list Tiered.Prepared) :
  Forall Tiered.positiveItem prepared ->
  Forall (Tiered.InBounds W H)
         (Tiered.f_results (Tiered.packPrepared W H bw bh prepared)).
Proof.
  intros Hp.
  eapply TieredFacts.tiling_InBounds, TieredFacts.packPrepared_tiling; eauto.
Qed.

Lemma tiered_in_bounds_witness :
  Forall (Tiered.InBounds 1100 1920)
    (Tiered.f_results
       (Tiered.packPrepared 1100 1920 110 165
          (Tiered.preparedOf Scenario.jitter Scenario.library Scenario.canvas))).
Proof.
  apply (tiered_in_bounds 1100 1920 110 165
           (Tiered.preparedOf Scenario.jitter Scenario.library Scenario.canvas)).
  repeat constructor; vm_compute; reflexivity.
Defined.

Corollary layoutGames_in_bounds (jitter : Z -> Q)
    (initialGames : list SteamGame) (W H : Z) :
  Forall (Tiered.InBounds W H) (Tiered.layoutGames jitter initialGames (W, H)).
Proof.
  eapply TieredFacts.tiling_InBounds, TieredFacts.layoutGames_tiling.
Qed.

(** C10.  The header strip: in the tiered version the first free
    rectangle starts at [headerInfoHeight], which is
    [max(60, round(min(0.06 * canvasHeight, 100)))], and every rectangle
    placed, in either phase, has [y >= headerInfoHeight]. *)
Theorem placed_below_header
    (W H bw bh : Z) (prepared : list Tiered.Prepared) :
  Forall Tiered.positiveItem prepared ->
  Tiered.headerInfoHeight H
    = Z.max 60 (jsRound (Qmin (inject_Z H * (6 # 100)) 100)) /\
  map Tiered.shape (Tiered.freeRects (Tiered.initialStore W H))
    = [Tiered.mkRect 0 (Tiered.headerInfoHeight H) W
         (Z.max 0 (H - Tiered.headerInfoHeight H))] /\
  Forall (fun g => Tiered.headerInfoHeight H <= Tiered.lg_y g)
         (Tiered.f_results (Tiered.packPrepared W H bw bh prepared)).
Proof.
  intros Hp. split; [reflexivity|]. split; [reflexivity|].
  eapply TieredFacts.tiling_below_header, TieredFacts.packPrepared_tiling; eauto.
Qed.

Lemma placed_below_header_witness :
  Tiered.headerInfoHeight 1920 = 100 /\
  Forall (fun g => 100 <= Tiered.lg_y g)
    (Tiered.f_results
       (Tiered.packPrepared 1100 1920 110 165
          (Tiered.preparedOf Scenario.jitter Scenario.library Scenario.canvas))).
Proof.
  split; [reflexivity|].
  apply (placed_below_header 1100 1920 110 165
           (Tiered.preparedOf Scenario.jitter Scenario.library Scenario.canvas)).
  repeat constructor; vm_compute; reflexivity.
Defined.

Corollary layoutGames_below_header (jitter : Z -> Q)
    (initialGames : list SteamGame) (W H : Z) :
  Forall (fun g => Tiered.headerInfoHeight H <= Tiered.lg_y g)
         (Tiered.layoutGames jitter initialGames (W, H)).
Proof.
  eapply TieredFacts.tiling_below_header, TieredFacts.layoutGames_tiling.
Qed.

(** C8.  Conservation: the games drawn by the two phases together with
    the games left in [remainingAsc] are the games handed in, each as often
    as it was handed in and with its record unchanged; so no id occurs more
    often among the drawn games than in the input. *)
Theorem items_conserved
    (W H bw bh : Z) (prepared : list Tiered.Prepared)
    (jitter : Z -> Q) (initialGames : list SteamGame) (canvas : Z * Z) (id : Z) :
  Permutation
    (map Tiered.lg_game
       (Tiered.f_results (Tiered.packPrepared W H bw bh prepared))
     ++ map Tiered.it_game
          (Tiered.remainingAsc (Tiered.packPrepared W H bw bh prepared)))
    (map Tiered.it_game prepared) /\
  Permutation
    (map Tiered.lg_game (Tiered.layoutGames jitter initialGames canvas)
     ++ Tiered.droppedGames jitter initialGames canvas)
    initialGames /\
  (count_occ Z.eq_dec
     (map appid (map Tiered.lg_game (Tiered.layoutGames jitter initialGames canvas)))
     id
   + count_occ Z.eq_dec
       (map appid (Tiered.droppedGames jitter initialGames canvas)) id
   = count_occ Z.eq_dec (map appid initialGames) id)%nat.
Proof.
  split; [apply TieredFacts.packPrepared_bag|].
  split; [apply TieredFacts.layoutGames_bag|].
  rewrite <- count_occ_app, <- map_app.
  apply Permutation_count_occ, Permutation_map, TieredFacts.layoutGames_bag.
Qed.

(** C9.  Empty input: the layout of no games is the empty list, and the
    canvas for no games is 1080 by 1920. *)
Theorem empty_input (jitter : Z -> Q) (canvas : Z * Z) (qcanvas : Q * Q) :
  Tiered.layoutGames jitter [] canvas = [] /\
  Naive.layoutSized [] qcanvas = [] /\
  calculateCanvasDimensions (Z.of_nat (@List.length SteamGame [])) = (1080, 1920).
Proof. repeat split. Qed.

(** C5.  Determinism.  The memo body reads the array [initialGames] and
    sorts a copy of it, so it leaves the array, and every other array of
    the heap, as it found them: run again on the same array and canvas, on
    the heap the first run left, it returns the same list, in the same
    order and with the same coordinates, and that list is a function of
    the elements of the array and of the canvas alone: another array with
    the same elements, in any heap, gives it too.  The jitter of an
    item is [Math.abs(Math.sin(appid * 1337.123))], the engine's sine being
    a function of its argument: it is the same for two items of one id in
    any two runs, whatever their position, name or playtime, and whatever
    the other games and the canvas are. *)
Theorem layout_deterministic
    (Math_sin : Doubles.float -> Doubles.float) (initialGames : Run.Ref)
    (canvasDimensions : Z * Z) (h : Run.Heap) :
  snd (fst (Run.twice (Jitter.rnd Math_sin) initialGames canvasDimensions h))
  = fst (fst (Run.twice (Jitter.rnd Math_sin) initialGames canvasDimensions h)) /\
  fst (fst (Run.twice (Jitter.rnd Math_sin) initialGames canvasDimensions h))
  = Tiered.layoutGames (Jitter.rnd Math_sin) (Run.deref h initialGames)
      canvasDimensions /\
  (forall r, (r < List.length h)%nat ->
     Run.deref
       (snd (Run.twice (Jitter.rnd Math_sin) initialGames canvasDimensions h)) r
     = Run.deref h r) /\
  Run.deref
    (snd (Run.twice (Jitter.rnd Math_sin) initialGames canvasDimensions h))
    initialGames
  = Run.deref h initialGames /\
  (forall other h',
     Run.deref h' other = Run.deref h initialGames ->
     fst (Run.layoutGames (Jitter.rnd Math_sin) other canvasDimensions h')
     = fst (fst (Run.twice (Jitter.rnd Math_sin) initialGames canvasDimensions h))) /\
  Forall
    (fun it =>
       Tiered.it_rnd it = Jitter.rnd Math_sin (appid (Tiered.it_game it)))
    (Tiered.preparedOf (Jitter.rnd Math_sin) (Run.deref h initialGames)
       canvasDimensions) /\
  (forall games canvas games' canvas' it it',
     In it (Tiered.preparedOf (Jitter.rnd Math_sin) games canvas) ->
     In it' (Tiered.preparedOf (Jitter.rnd Math_sin) games' canvas') ->
     appid (Tiered.it_game it) = appid (Tiered.it_game it') ->
     Tiered.it_rnd it = Tiered.it_rnd it').
Proof.
  set (jitter := Jitter.rnd Math_sin).
  pose proof (RunFacts.layoutGames_run jitter initialGames canvasDimensions h)
    as (E1 & D1 & fresh1 & F1).
  set (r1 := Run.layoutGames jitter initialGames canvasDimensions h) in *.
  pose proof (RunFacts.layoutGames_run jitter initialGames canvasDimensions (snd r1))
    as (E2 & D2 & fresh2 & F2).
  assert (Et : Run.twice jitter initialGames canvasDimensions h
               = ((fst r1,
                   fst (Run.layoutGames jitter initialGames canvasDimensions (snd r1))),
                  snd (Run.layoutGames jitter initialGames canvasDimensions (snd r1)))).
  { unfold Run.twice, Run.bind, Run.ret. fold r1.
    destruct r1 as [o1 h1]. cbn [fst snd].
    destruct (Run.layoutGames jitter initialGames canvasDimensions h1).
    reflexivity. }
  assert (Hrnd : forall games canvas it,
             In it (Tiered.preparedOf jitter games canvas) ->
             Tiered.it_rnd it = jitter (appid (Tiered.it_game it))).
  { intros games canvas it Hit. apply TieredFacts.preparedOf_In in Hit.
    destruct Hit as (bw & bh & _ & _ & _ & _ & _ & _ & Hr). exact Hr. }
  rewrite Et. cbn [fst snd].
  split; [rewrite E2, D1, <- E1; reflexivity|].
  split; [exact E1|].
  split; [|split; [rewrite D2; exact D1|split; [|split]]].
  - intros r Hr. rewrite F2, F1. unfold Run.deref.
    rewrite <- app_assoc. now apply app_nth1.
  - intros other h' Ho.
    destruct (RunFacts.layoutGames_run jitter other canvasDimensions h')
      as (Eo & _). rewrite Eo, Ho, <- E1. reflexivity.
  - apply Forall_forall. intros it Hit. eapply Hrnd; eauto.
  - intros games canvas games' canvas' it it' Hit Hit' Eid.
    rewrite (Hrnd _ _ _ Hit), (Hrnd _ _ _ Hit'). now rewrite Eid.
Qed.




(** C4 as the specification words it fails, twice, on the naive version.
    A game of 4107000 minutes is sized 740 by 1110; placed in the canvas of
    1100 by 1920 it leaves the right remainder [(740, 0, 360, 1920)], which
    has the height of the canvas, not the height of the item.  A game that
    was never played is sized 0 by 0; placed in the canvas it leaves the
    bottom remainder [(0, 0, 0, 1920)], of width zero and so of area
    zero. *)
Lemma naive_remainders_off_the_rule :
  (exists right bottom,
     NaiveD.freeRects
       (NaiveD.packLoop [NaiveD.sizeOf (mkGame 1 "one" 4107000)]
          (Doubles.ofZ 1100) (Doubles.ofZ 1920))
     = [right; bottom] /\
     Doubles.exact (NaiveD.sg_width (NaiveD.sizeOf (mkGame 1 "one" 4107000)))
     = Some 740%Q /\
     Doubles.exact (NaiveD.sg_height (NaiveD.sizeOf (mkGame 1 "one" 4107000)))
     = Some 1110%Q /\
     NaiveD.exactRect right = Some (Naive.mkRect 740 0 360 1920) /\
     NaiveD.exactRect bottom = Some (Naive.mkRect 0 1110 740 810)) /\
  (exists right bottom,
     NaiveD.freeRects
       (NaiveD.packLoop [NaiveD.sizeOf (mkGame 9 "idle" 0)]
          (Doubles.ofZ 1100) (Doubles.ofZ 1920))
     = [right; bottom] /\
     Doubles.exact (NaiveD.sg_width (NaiveD.sizeOf (mkGame 9 "idle" 0)))
     = Some 0%Q /\
     Doubles.exact (NaiveD.sg_height (NaiveD.sizeOf (mkGame 9 "idle" 0)))
     = Some 0%Q /\
     NaiveD.exactRect right = Some (Naive.mkRect 0 0 1100 1920) /\
     NaiveD.exactRect bottom = Some (Naive.mkRect 0 0 0 1920)).
Proof.
  split; do 2 eexists; (split; [vm_compute; reflexivity|]);
    repeat split; vm_compute; reflexivity.
Qed.

(** C4, amended.  Placing an item at the corner of a free rectangle
    removes that rectangle from the free set and pushes remainders.
    Tiered version, for an item with positive sides in a rectangle it fits:
    the right remainder [(x + w, y, W - w, h)] iff [w < W], then the bottom
    remainder [(x, y + h, W, H - h)], of the full width, iff [h < H]; none
    has a zero side; and the free set is pruned.  Naive version, for any
    item the scan finds a rectangle for: the right remainder
    [(x + w, y, W - w, H)], of the full height, iff [w < W], then the bottom
    remainder [(x, y + h, w', H - h)] iff [h < H], where [w'] is the width of
    the item when there is a right remainder and the full width otherwise;
    the sums and differences are those of doubles.  When the item has
    positive sides no remainder has a zero side; the naive version has no
    other guard. *)
Theorem split_remainders
    (fr : Tiered.FreeRect) (w h : Z) (st : Tiered.Store)
    (g : NaiveD.SizedGame) (nst : NaiveD.Pack) (i : nat)
    (bestNode : NaiveD.Rect) :
  (0 < w -> 0 < h ->
   Tiered.eligible w h fr ->
   Tiered.idsOk st -> In fr (Tiered.freeRects st) ->
   Tiered.splitFreeRect fr
     (Tiered.mkRect (Tiered.x (Tiered.shape fr)) (Tiered.y (Tiered.shape fr)) w h)
     st
   = Tiered.pruneFreeRects
       (fold_left (fun s r => Tiered.push r s)
          (Tiered.remainders (Tiered.shape fr) w h)
          (Tiered.forget fr st)) /\
   ~ In fr (Tiered.freeRects
              (Tiered.splitFreeRect fr
                 (Tiered.mkRect (Tiered.x (Tiered.shape fr))
                                (Tiered.y (Tiered.shape fr)) w h) st)) /\
   Forall (fun r => 0 < Tiered.width r /\ 0 < Tiered.height r)
          (Tiered.remainders (Tiered.shape fr) w h)) /\
  (NaiveD.chosen g (NaiveD.freeRects nst) = Some (i, bestNode) ->
   exists toSplit,
     nth_error (NaiveD.freeRects nst) i = Some toSplit /\
     bestNode
     = NaiveD.mkRect (NaiveD.x toSplit) (NaiveD.y toSplit)
         (NaiveD.sg_width g) (NaiveD.sg_height g) /\
     NaiveD.freeRects (NaiveD.placeStep nst g)
     = removeAt i (NaiveD.freeRects nst)
       ++ NaiveD.remainders toSplit (NaiveD.sg_width g) (NaiveD.sg_height g) /\
     (PrimFloat.ltb (Doubles.ofZ 0) (NaiveD.sg_width g) = true ->
      PrimFloat.ltb (Doubles.ofZ 0) (NaiveD.sg_height g) = true ->
      Forall (fun r =>
                PrimFloat.ltb (Doubles.ofZ 0) (NaiveD.width r) = true /\
                PrimFloat.ltb (Doubles.ofZ 0) (NaiveD.height r) = true)
        (NaiveD.remainders toSplit (NaiveD.sg_width g) (NaiveD.sg_height g)))).
Proof.
  split.
  - intros Hw Hh [Ew Eh] Hids Hin. split; [|split].
    + apply TieredFacts.splitFreeRect_pushes; lia.
    + now apply TieredFacts.splitFreeRect_removes.
    + unfold Tiered.remainders.
      destruct (w <? Tiered.width (Tiered.shape fr)) eqn:E1;
        destruct (h <? Tiered.height (Tiered.shape fr)) eqn:E2;
        cbn [app]; repeat (apply Forall_cons || apply Forall_nil);
        cbn [Tiered.width Tiered.height]; lia.
  - intros Hc.
    destruct (NaiveDFacts.chosen_found g _ i bestNode Hc)
      as (toSplit & Hi & Hn & Fw & Fh).
    exists toSplit. split; auto. split; auto. split.
    + unfold NaiveD.placeStep. rewrite Hc, Hi, Hn. reflexivity.
    + intros Gw Gh. now apply NaiveDFacts.remainders_positive.
Qed.

Lemma split_remainders_witness :
  Tiered.freeRects
    (Tiered.splitFreeRect
       (Tiered.mkFree 0 (Tiered.mkRect 0 100 1100 1820))
       (Tiered.mkRect 0 100 880 1320) (Tiered.initialStore 1100 1920))
  = [Tiered.mkFree 1 (Tiered.mkRect 880 100 220 1320);
     Tiered.mkFree 2 (Tiered.mkRect 0 1420 1100 500)] /\
  map NaiveD.exactRect
    (NaiveD.freeRects
       (NaiveD.placeStep
          (NaiveD.mkPack
             [NaiveD.mkRect (Doubles.ofZ 0) (Doubles.ofZ 0)
                (Doubles.ofZ 1100) (Doubles.ofZ 1920)] [])
          (NaiveD.sizeOf (mkGame 1 "one" 4107000))))
  = [Some (Naive.mkRect 740 0 360 1920); Some (Naive.mkRect 0 1110 740 810)].
Proof.
  pose proof
    (split_remainders
       (Tiered.mkFree 0 (Tiered.mkRect 0 100 1100 1820)) 880 1320
       (Tiered.initialStore 1100 1920)
       (NaiveD.sizeOf (mkGame 1 "one" 4107000))
       (NaiveD.mkPack
          [NaiveD.mkRect (Doubles.ofZ 0) (Doubles.ofZ 0)
             (Doubles.ofZ 1100) (Doubles.ofZ 1920)] [])
       0%nat
       (NaiveD.mkRect (Doubles.ofZ 0) (Doubles.ofZ 0)
          (Doubles.ofZ 740) (Doubles.ofZ 1110))) as [Ht Hn].
  split.
  - destruct Ht as [Ht _]; try lia.
    + split; simpl; lia.
    + split; simpl; repeat constructor; simpl; auto.
    + left. reflexivity.
    + apply (f_equal Tiered.freeRects) in Ht.
      etransitivity; [eassumption|vm_compute; reflexivity].
  - destruct Hn as (toSplit & Hi & _ & Hn & _); [vm_compute; reflexivity|].
    cbn [NaiveD.freeRects nth_error] in Hi. inversion Hi; subst toSplit.
    rewrite Hn. vm_compute. reflexivity.
Defined.

(** C6 as the specification words it fails.  A library of one game gets
    the canvas of 1100 by 1920.  With a playtime of 599 minutes the game is
    of tier 1 and the unit cell is the whole width: it is drawn 1100 by
    1650.  With 600 minutes it is of tier 8 and the unit cell is quantised
    to 137 by 206: it is drawn 1096 by 1648, which is less.  Nothing but
    the weight differs between the two runs. *)
Lemma lone_game_area_shrinks :
  calculateCanvasDimensions 1 = (1100, 1920) /\
  map Tiered.rectOf
    (Tiered.layoutGames Scenario.jitter [mkGame 1 "one" 599] (1100, 1920))
  = [Tiered.mkRect 0 100 1100 1650] /\
  map Tiered.rectOf
    (Tiered.layoutGames Scenario.jitter [mkGame 1 "one" 600] (1100, 1920))
  = [Tiered.mkRect 0 100 1096 1648] /\
  Tiered.unitCell (Tiered.tierItems [mkGame 1 "one" 599]) (1100, 1920)
  = (1100, 1650) /\
  Tiered.unitCell (Tiered.tierItems [mkGame 1 "one" 600]) (1100, 1920)
  = (137, 206) /\
  exists a b,
    Tiered.layoutGames Scenario.jitter [mkGame 1 "one" 599] (1100, 1920) = [a] /\
    Tiered.layoutGames Scenario.jitter [mkGame 1 "one" 600] (1100, 1920) = [b] /\
    playtime_forever (Tiered.lg_game a) < playtime_forever (Tiered.lg_game b) /\
    Tiered.lg_width b * Tiered.lg_height b
      < Tiered.lg_width a * Tiered.lg_height a.
Proof.
  repeat (split; [vm_compute; reflexivity|]).
  do 2 eexists.
  split; [vm_compute; reflexivity|].
  split; [vm_compute; reflexivity|].
  split; vm_compute; reflexivity.
Qed.

(** C6, amended.  Monotonic sizing holds among the items of one run and
    for the size formula of the naive version.  Tiered version: of two
    items of one run, which share the longest playtime and the unit cell,
    the one with the smaller playtime has the smaller or equal multiplier,
    and so the smaller or equal area.  Naive version: for weights
    [0 <= w1 < w2] the area of the rectangle of [w1] is at most that of
    [w2]. *)
Theorem size_monotone_in_weight
    (jitter : Z -> Q) (initialGames : list SteamGame) (canvas : Z * Z)
    (a b : Tiered.Prepared) (w1 w2 : Z) :
  In a (Tiered.preparedOf jitter initialGames canvas) ->
  In b (Tiered.preparedOf jitter initialGames canvas) ->
  playtime_forever (Tiered.it_game a) < playtime_forever (Tiered.it_game b) ->
  0 <= w1 -> w1 < w2 ->
  Tiered.it_mult a <= Tiered.it_mult b /\
  Tiered.it_width a * Tiered.it_height a
    <= Tiered.it_width b * Tiered.it_height b /\
  exists s1 s2,
    LinearSize.sizeOf w1 = Some s1 /\ LinearSize.sizeOf w2 = Some s2 /\
    (LinearSize.rectArea s1 <= LinearSize.rectArea s2)%R.
Proof.
  intros Ha Hb Hlt H1 H12. split; [|split].
  - apply TieredFacts.preparedOf_In in Ha, Hb.
    destruct Ha as (_ & _ & _ & _ & _ & -> & _).
    destruct Hb as (_ & _ & _ & _ & _ & -> & _).
    apply TieredFacts.multOf_mono; [apply TieredFacts.maxTimeOf_pos|lia].
  - eapply TieredFacts.preparedOf_monotone; eauto.
  - destruct (LinearFacts.sizeOf_area w1 H1) as (s1 & E1 & A1).
    destruct (LinearFacts.sizeOf_area w2 ltac:(lia)) as (s2 & E2 & A2).
    exists s1, s2. repeat split; auto. rewrite A1, A2.
    apply LinearFacts.areaOf_mono. lia.
Qed.

Lemma size_monotone_in_weight_witness :
  330 * 495 <= 880 * 1320 /\
  exists s1 s2,
    LinearSize.sizeOf 0 = Some s1 /\ LinearSize.sizeOf 600 = Some s2 /\
    (LinearSize.rectArea s1 <= LinearSize.rectArea s2)%R.
Proof.
  apply (size_monotone_in_weight Scenario.jitter Scenario.library Scenario.canvas
           (Tiered.mkPrepared (mkGame 5 "five" 700) 3 330 495 (Scenario.jitter 5))
           (Tiered.mkPrepared (mkGame 1 "one" 6000) 8 880 1320 (Scenario.jitter 1))
           0 600).
  - vm_compute. do 4 right. left. reflexivity.
  - vm_compute. left. reflexivity.
  - simpl. lia.
  - lia.
  - lia.
Defined.

Lemma multOf_clamped (maxTime playtime : Z) :
  Tiered.multOf maxTime playtime = Tiered.multOf maxTime (Z.max playtime 1).
Proof.
  unfold Tiered.multOf. cbv zeta.
  replace (Z.max (Z.max playtime 1) 1) with (Z.max playtime 1) by lia.
  destruct (Z.max_spec playtime 1) as [[Hle Hm]|[Hle Hm]]; rewrite Hm; auto.
  assert (Hlow : forall t, t <= 1 -> Qle_bool 10 (inject_Z t / 60) = false).
  { intros t Ht. apply not_true_iff_false. rewrite Qle_bool_iff. intros H.
    assert (Hq : (inject_Z t / 60 <= 1 / 60)%Q).
    { apply Qmult_le_compat_r; [|discriminate].
      unfold Qle; simpl; lia. }
    assert (Hc : (10 <= 1 / 60)%Q) by (eapply Qle_trans; eauto).
    vm_compute in Hc. now apply Hc. }
  rewrite (Hlow playtime) by lia. rewrite (Hlow 1) by lia. reflexivity.
Qed.

(** C7 as the specification words it fails.  The size formula of the
    naive version gives weight 0 a rectangle of 0 by 0, which the packer
    places, and gives a negative weight no size at all. *)
Lemma linear_size_of_zero_weight :
  LinearSize.sizeOf 0 = Some (0%R, 0%R) /\
  LinearSize.sizeOf (-1) = None /\
  Naive.layoutSized
    [Naive.mkSized (mkGame 9 "idle" 0) 0 0 (buildAlbumUrl 9)]
    Scenario.shelfCanvas
  = [Naive.mkLayout (Naive.mkSized (mkGame 9 "idle" 0) 0 0 (buildAlbumUrl 9))
       0 0].
Proof.
  split; [apply LinearFacts.sizeOf_zero|].
  split; [apply LinearFacts.sizeOf_negative; lia|].
  vm_compute. reflexivity.
Qed.

(** C7, amended.  In the tiered version every item, whatever its weight,
    gets a multiplier of at least one and strictly positive width and
    height; a weight below 1 counts as 1.  In the naive version an item of
    strictly positive weight gets strictly positive width and height. *)
Theorem size_strictly_positive
    (jitter : Z -> Q) (initialGames : list SteamGame) (canvas : Z * Z)
    (maxTime playtime weight : Z) :
  0 < weight ->
  Forall (fun it => 1 <= Tiered.it_mult it /\
                    0 < Tiered.it_width it /\ 0 < Tiered.it_height it)
         (Tiered.preparedOf jitter initialGames canvas) /\
  Tiered.multOf maxTime playtime = Tiered.multOf maxTime (Z.max playtime 1) /\
  1 <= Tiered.multOf maxTime playtime /\
  exists w h, LinearSize.sizeOf weight = Some (w, h) /\ (0 < w)%R /\ (0 < h)%R.
Proof.
  intros Hw. split; [|split; [|split]].
  - apply Forall_forall. intros a Ha.
    pose proof (TieredFacts.preparedOf_positive jitter initialGames canvas) as Hp.
    rewrite Forall_forall in Hp. split; [|now apply Hp].
    apply TieredFacts.preparedOf_In in Ha.
    destruct Ha as (_ & _ & _ & _ & _ & -> & _). apply TieredFacts.multOf_ge_1.
  - apply multOf_clamped.
  - apply TieredFacts.multOf_ge_1.
  - now apply LinearFacts.sizeOf_positive.
Qed.

Lemma size_strictly_positive_witness :
  Forall (fun it => 1 <= Tiered.it_mult it /\
                    0 < Tiered.it_width it /\ 0 < Tiered.it_height it)
         (Tiered.preparedOf Scenario.jitter Scenario.library Scenario.canvas) /\
  Tiered.multOf 6000 (-5) = Tiered.multOf 6000 (Z.max (-5) 1) /\
  1 <= Tiered.multOf 6000 (-5) /\
  exists w h, LinearSize.sizeOf 600 = Some (w, h) /\ (0 < w)%R /\ (0 < h)%R.
Proof.
  apply (size_strictly_positive Scenario.jitter Scenario.library Scenario.canvas
           6000 (-5) 600).
  lia.
Defined.

(** * Order: what the sort and the loops keep *)

Section SortedFacts.
Context {A : Type}.
Variable cmp : A -> A -> comparison.
Variable le : A -> A -> Prop.
Hypothesis le_trans : forall a b c, le a b -> le b c -> le a c.
Hypothesis cmp_le : forall a b, cmp a b <> Gt -> le a b.
Hypothesis cmp_gt : forall a b, cmp a b = Gt -> le b a.

Lemma insertBy_sorted (a : A) (l : list A) :
  StronglySorted le l -> StronglySorted le (insertBy cmp a l).
Proof.
  induction l as [|b l IH]; intros Hl; simpl.
  - constructor; constructor.
  - inversion Hl as [|? ? Hs Hb]; subst.
    destruct (cmp a b) eqn:E.
    + constructor; auto. constructor.
      * apply cmp_le. congruence.
      * eapply Forall_impl; [|exact Hb]. intros c Hc.
        eapply le_trans; [|exact Hc]. apply cmp_le. congruence.
    + constructor; auto. constructor.
      * apply cmp_le. congruence.
      * eapply Forall_impl; [|exact Hb]. intros c Hc.
        eapply le_trans; [|exact Hc]. apply cmp_le. congruence.
    + constructor; auto.
      eapply Permutation_Forall; [symmetry; apply insertBy_Permutation|].
      constructor; auto.
Qed.

Lemma sortBy_sorted (l : list A) : StronglySorted le (sortBy cmp l).
Proof.
  induction l as [|a l IH]; simpl; [constructor|].
  now apply insertBy_sorted.
Qed.

End SortedFacts.

Lemma StronglySorted_refine {A : Type} (R R' : A -> A -> Prop) (P : A -> Prop)
    (l : list A) :
  (forall a b, P a -> P b -> R a b -> R' a b) ->
  Forall P l -> StronglySorted R l -> StronglySorted R' l.
Proof.
  intros HR HP Hs. induction Hs as [|a l Hs IH Ha]; [constructor|].
  inversion HP; subst. constructor; auto.
  rewrite Forall_forall in *. intros b Hb. apply HR; auto.
Qed.

Lemma subseq_refl {A : Type} (l : list A) : subseq l l.
Proof. induction l; [apply subseq_nil|now apply subseq_take]. Qed.

Lemma subseq_app {A : Type} (s1 l1 s2 l2 : list A) :
  subseq s1 l1 -> subseq s2 l2 -> subseq (s1 ++ s2) (l1 ++ l2).
Proof.
  induction 1; intros H2; simpl; auto;
    [apply subseq_skip|apply subseq_take]; auto.
Qed.

Lemma subseq_In {A : Type} (s l : list A) (a : A) :
  subseq s l -> In a s -> In a l.
Proof. induction 1; simpl; intuition. Qed.

Lemma subseq_sorted {A : Type} (R : A -> A -> Prop) (s l : list A) :
  subseq s l -> StronglySorted R l -> StronglySorted R s.
Proof.
  induction 1 as [|a s l Hs IH|a s l Hs IH]; intros Hl; auto;
    inversion Hl as [|? ? Hl' Ha]; subst; auto.
  constructor; auto.
  rewrite Forall_forall in *. intros b Hb. apply Ha. eapply subseq_In; eauto.
Qed.

Lemma subseq_subPerm {A : Type} (s l : list A) : subseq s l -> subPerm s l.
Proof.
  induction 1 as [|a s l Hs [d Hd]|a s l Hs [d Hd]].
  - exists []. reflexivity.
  - exists (a :: d). rewrite <- Permutation_middle. now constructor.
  - exists d. simpl. now constructor.
Qed.

(** * The tiered packer: what is drawn of an item, and where *)
Module GridFacts.
Import Tiered Grid.

Section Drawn.
Variable LAYOUT_WIDTH LAYOUT_HEIGHT : Z.
Variable baseUnitWidth baseUnitHeight : Z.
Set Default Proof Using "Type".

Lemma fillRow_drawn (rectY rowHeight : Z) :
  forall fuel r,
    Permutation
      (map drawnAs (row_results (fillRow baseUnitWidth fuel rectY rowHeight r))
       ++ map toDraw (row_remaining (fillRow baseUnitWidth fuel rectY rowHeight r)))
      (map drawnAs (row_results r) ++ map toDraw (row_remaining r)).
Proof.
  induction fuel as [|fuel IH]; intros r; cbn [fillRow]; auto.
  destruct (findNarrowest _ _ _ _ _) as [[k it]|] eqn:E; auto.
  apply TieredFacts.findNarrowest_found in E. destruct E as (Hk & _).
  apply removeAt_Permutation in Hk.
  match goal with |- context [if _ then ?r' else _] =>
    assert (Hr' : Permutation
              (map drawnAs (row_results r') ++ map toDraw (row_remaining r'))
              (map drawnAs (row_results r) ++ map toDraw (row_remaining r))) end.
  { cbn [row_results row_remaining]. rewrite map_app, <- app_assoc.
    apply Permutation_app_head. rewrite (Permutation_map toDraw Hk).
    reflexivity. }
  destruct (_ <? baseUnitWidth); auto.
  rewrite IH. exact Hr'.
Qed.

Lemma shelfLoop_drawn :
  forall fuel s,
    Permutation
      (map drawnAs (sh_results (shelfLoop baseUnitWidth baseUnitHeight fuel s))
       ++ map toDraw (sh_remaining (shelfLoop baseUnitWidth baseUnitHeight fuel s)))
      (map drawnAs (sh_results s) ++ map toDraw (sh_remaining s)).
Proof.
  induction fuel as [|fuel IH]; intros s; cbn [shelfLoop]; auto.
  destruct (baseUnitHeight <=? height (rect s)); auto.
  destruct (filter _ _) as [|c cs]; auto.
  match goal with |- context [fillRow _ ?f ?yy ?rh ?r] =>
    pose proof (fillRow_drawn yy rh f r) as Hb;
    set (row := fillRow baseUnitWidth f yy rh r) in * end.
  cbn [row_results row_remaining] in Hb.
  destruct (rowPlaced row); [exact Hb|].
  rewrite IH. exact Hb.
Qed.

Lemma fold_fillRectWithShelf_drawn (pending : list FreeRect) :
  forall st,
    Permutation
      (map drawnAs
         (f_results
            (fold_left (fillRectWithShelf baseUnitWidth baseUnitHeight) pending st))
       ++ map toDraw
            (remainingAsc
               (fold_left (fillRectWithShelf baseUnitWidth baseUnitHeight) pending st)))
      (map drawnAs (f_results st) ++ map toDraw (remainingAsc st)).
Proof.
  induction pending as [|fr pending IH]; intros st; simpl; auto.
  rewrite IH. unfold fillRectWithShelf. cbn [f_results remainingAsc].
  apply shelfLoop_drawn.
Qed.

Lemma placeStep_drawn (st : Pack) (it : Prepared) :
  Permutation
    (map drawnAs (results (placeStep LAYOUT_WIDTH st it))
     ++ map toDraw (overflow (placeStep LAYOUT_WIDTH st it)))
    (toDraw it :: map drawnAs (results st) ++ map toDraw (overflow st)).
Proof.
  unfold placeStep. destruct (chooseBestRect _ _ _ _); cbn [results overflow].
  - rewrite map_app, <- app_assoc. simpl. symmetry. apply Permutation_middle.
  - rewrite map_app, app_assoc. simpl.
    rewrite Permutation_app_comm. reflexivity.
Qed.

Lemma fold_placeStep_drawn (l : list Prepared) :
  forall st,
    Permutation
      (map drawnAs (results (fold_left (placeStep LAYOUT_WIDTH) l st))
       ++ map toDraw (overflow (fold_left (placeStep LAYOUT_WIDTH) l st)))
      (map toDraw l ++ map drawnAs (results st) ++ map toDraw (overflow st)).
Proof.
  induction l as [|it l IH]; intros st; simpl; auto.
  rewrite IH, placeStep_drawn. symmetry. apply Permutation_middle.
Qed.

(** Every sized item ends up drawn, with its own sides and the album URL
    of its id, or left in [remainingAsc], once. *)
Lemma packPrepared_drawn (prepared : list Prepared) :
  Permutation
    (map drawnAs
       (f_results
          (packPrepared LAYOUT_WIDTH LAYOUT_HEIGHT baseUnitWidth baseUnitHeight
             prepared))
     ++ map toDraw
          (remainingAsc
             (packPrepared LAYOUT_WIDTH LAYOUT_HEIGHT baseUnitWidth baseUnitHeight
                prepared)))
    (map toDraw prepared).
Proof.
  unfold packPrepared, phase2. rewrite fold_fillRectWithShelf_drawn.
  cbn [f_results remainingAsc].
  rewrite (Permutation_map toDraw (sortBy_Permutation _ _)).
  unfold phase1. rewrite fold_placeStep_drawn. simpl. rewrite app_nil_r.
  apply Permutation_map, sortBy_Permutation.
Qed.

End Drawn.

Section Aligned.
Variable LAYOUT_WIDTH LAYOUT_HEIGHT : Z.
Variable baseUnitWidth baseUnitHeight : Z.
Variable bw bh : Z.
Set Default Proof Using "Type".

Abbreviation hdr := (headerInfoHeight LAYOUT_HEIGHT).
Abbreviation onGrid := (aligned bw bh (headerInfoHeight LAYOUT_HEIGHT)).
Abbreviation cells := (unitSized bw bh).

Lemma placeStep_aligned (st : Pack) (it : Prepared) :
  cells it ->
  Forall onGrid (map shape (freeRects (store st))) ->
  Forall (fun g => onGrid (rectOf g)) (results st) ->
  Forall onGrid (map shape (freeRects (store (placeStep LAYOUT_WIDTH st it)))) /\
  Forall (fun g => onGrid (rectOf g)) (results (placeStep LAYOUT_WIDTH st it)).
Proof.
  intros [Cw Ch] Hf Hr. unfold placeStep.
  destruct (chooseBestRect _ _ _ _) as [t|] eqn:E; cbn [store results]; auto.
  apply TieredFacts.chooseBestRect_Some in E. destruct E as [Hin _].
  assert (Ht : onGrid (shape t)).
  { rewrite Forall_forall in Hf. apply Hf. now apply in_map. }
  destruct Ht as [Tx Ty]. split.
  - eapply subPerm_Forall; [apply TieredFacts.splitFreeRect_shapes|].
    cbn [x y width height app].
    apply Forall_cons; [|apply Forall_cons].
    + split; cbn [x y]; [now apply Z.divide_add_r|assumption].
    + split; cbn [x y]; [assumption|].
      replace (y (shape t) + it_height it - hdr)
        with ((y (shape t) - hdr) + it_height it) by lia.
      now apply Z.divide_add_r.
    + eapply subPerm_Forall; [|apply Hf].
      apply subPerm_map, TieredFacts.spliceOut_subPerm.
  - apply Forall_app. split; auto.
    apply Forall_cons; [|apply Forall_nil].
    split; assumption.
Qed.

Lemma fold_placeStep_aligned (l : list Prepared) :
  forall st,
    Forall cells l ->
    Forall onGrid (map shape (freeRects (store st))) ->
    Forall (fun g => onGrid (rectOf g)) (results st) ->
    Forall onGrid
      (map shape (freeRects (store (fold_left (placeStep LAYOUT_WIDTH) l st)))) /\
    Forall (fun g => onGrid (rectOf g))
      (results (fold_left (placeStep LAYOUT_WIDTH) l st)) /\
    (Forall cells (overflow st) ->
     Forall cells (overflow (fold_left (placeStep LAYOUT_WIDTH) l st))).
Proof.
  induction l as [|it l IH]; intros st Hl Hf Hr; simpl; auto.
  inversion Hl; subst.
  destruct (placeStep_aligned st it) as [Hf' Hr']; auto.
  destruct (IH (placeStep LAYOUT_WIDTH st it)) as (A & B & C); auto.
  split; [|split]; auto.
  intros Ho. apply C. unfold placeStep.
  destruct (chooseBestRect _ _ _ _); cbn [overflow]; auto.
  apply Forall_app. split; auto.
Qed.

Lemma fillRow_aligned (rectY rowHeight : Z) :
  (bh | rectY - hdr) ->
  forall fuel r,
    (bw | localX r) -> (bh | rowMaxH r) ->
    Forall (fun g => onGrid (rectOf g)) (row_results r) ->
    Forall cells (row_remaining r) ->
    let r' := fillRow baseUnitWidth fuel rectY rowHeight r in
    (bw | localX r') /\ (bh | rowMaxH r') /\
    Forall (fun g => onGrid (rectOf g)) (row_results r') /\
    Forall cells (row_remaining r').
Proof.
  intros Hy. induction fuel as [|fuel IH]; intros r Hx Hm Hr Hc; cbn [fillRow];
    [cbv zeta; auto|].
  destruct (findNarrowest _ _ _ _ _) as [[k it]|] eqn:E; [|cbv zeta; auto].
  apply TieredFacts.findNarrowest_found in E. destruct E as (Hk & _).
  assert (Hit : cells it).
  { rewrite Forall_forall in Hc. eapply Hc, nth_error_In; eauto. }
  destruct Hit as [Cw Ch].
  assert (Hmax : (bh | Z.max (rowMaxH r) (it_height it))).
  { destruct (Z.max_spec (rowMaxH r) (it_height it)) as [[_ ->]|[_ ->]]; auto. }
  assert (Hres : Forall (fun g => onGrid (rectOf g))
                   (row_results r ++ [place it (localX r) rectY])).
  { apply Forall_app. split; auto.
    apply Forall_cons; [|apply Forall_nil]. split; assumption. }
  assert (Hrem : Forall cells (removeAt k (row_remaining r)))
    by now apply TieredFacts.removeAt_Forall.
  destruct (_ <? baseUnitWidth).
  - cbv zeta. cbn [localX rowMaxH row_results row_remaining].
    repeat split; auto. now apply Z.divide_add_r.
  - apply IH; cbn [localX rowMaxH row_results row_remaining]; auto.
    now apply Z.divide_add_r.
Qed.

Lemma shelfLoop_aligned :
  forall fuel s,
    onGrid (rect s) ->
    Forall (fun g => onGrid (rectOf g)) (sh_results s) ->
    Forall cells (sh_remaining s) ->
    Forall (fun g => onGrid (rectOf g))
      (sh_results (shelfLoop baseUnitWidth baseUnitHeight fuel s)) /\
    Forall cells (sh_remaining (shelfLoop baseUnitWidth baseUnitHeight fuel s)).
Proof.
  induction fuel as [|fuel IH]; intros s Hs Hr Hc; cbn [shelfLoop]; auto.
  destruct (baseUnitHeight <=? height (rect s)); auto.
  destruct (filter _ _) as [|c cs]; auto.
  destruct Hs as [Sx Sy].
  match goal with |- context [fillRow _ ?f ?yy ?rh ?r] =>
    destruct (fillRow_aligned yy rh Sy f r) as (Rx & Rm & Rr & Rc);
      cbn [localX rowMaxH row_results row_remaining]; auto;
      [apply Z.divide_0_r|];
      set (row := fillRow baseUnitWidth f yy rh r) in * end.
  destruct (rowPlaced row); cbn [sh_results sh_remaining]; auto.
  apply IH; cbn [rect sh_results sh_remaining]; auto.
  split; cbn [x y]; auto.
  replace (y (rect s) + rowMaxH row - hdr)
    with ((y (rect s) - hdr) + rowMaxH row) by lia.
  now apply Z.divide_add_r.
Qed.

Lemma fold_fillRectWithShelf_aligned (pending : list FreeRect) :
  forall st,
    Forall onGrid (map shape pending) ->
    Forall (fun g => onGrid (rectOf g)) (f_results st) ->
    Forall cells (remainingAsc st) ->
    Forall (fun g => onGrid (rectOf g))
      (f_results
         (fold_left (fillRectWithShelf baseUnitWidth baseUnitHeight) pending st)).
Proof.
  induction pending as [|fr pending IH]; intros st Hp Hr Hc; simpl; auto.
  simpl in Hp. inversion Hp; subst.
  apply IH; auto; unfold fillRectWithShelf; cbn [f_results remainingAsc];
    apply shelfLoop_aligned; auto.
Qed.

(** The corner of every drawn rectangle is on the grid. *)
Lemma packPrepared_aligned (prepared : list Prepared) :
  Forall cells prepared ->
  Forall (fun g => onGrid (rectOf g))
    (f_results
       (packPrepared LAYOUT_WIDTH LAYOUT_HEIGHT baseUnitWidth baseUnitHeight
          prepared)).
Proof.
  intros Hc. unfold packPrepared, phase2, phase1.
  destruct (fold_placeStep_aligned
              (sortBy byJitteredMult prepared)
              (mkPack (initialStore LAYOUT_WIDTH LAYOUT_HEIGHT) [] []))
    as (A & B & C).
  - eapply Permutation_Forall; [symmetry; apply sortBy_Permutation|exact Hc].
  - simpl. apply Forall_cons; [|apply Forall_nil].
    split; cbn [x y]; [apply Z.divide_0_r|].
    replace (hdr - hdr) with 0 by lia. apply Z.divide_0_r.
  - apply Forall_nil.
  - apply fold_fillRectWithShelf_aligned; cbn [f_results remainingAsc]; auto.
    + eapply Permutation_Forall; [|exact A].
      apply Permutation_map. symmetry. apply sortBy_Permutation.
    + eapply Permutation_Forall; [symmetry; apply sortBy_Permutation|].
      apply C. apply Forall_nil.
Qed.

End Aligned.

End GridFacts.

(** * [pruneFreeRects] *)
Module PruneFacts.
Import Tiered Grid.

Lemma contains_refl (a : Rect) : contains a a = true.
Proof.
  unfold contains. repeat (apply andb_true_intro; split); apply Z.leb_le; lia.
Qed.

Lemma contains_trans (a b c : Rect) :
  contains a b = true -> contains b c = true -> contains a c = true.
Proof.
  unfold contains. intros H1 H2.
  repeat (apply andb_prop in H1; destruct H1 as [H1 ?]).
  repeat (apply andb_prop in H2; destruct H2 as [H2 ?]).
  repeat match goal with H : (_ <=? _) = true |- _ => apply Z.leb_le in H end.
  repeat (apply andb_true_intro; split); apply Z.leb_le; lia.
Qed.

Lemma existsb_contains (l : list FreeRect) (a : Rect) :
  existsb (fun rj => contains (shape rj) a) l = true <->
  exists b, In b l /\ contains (shape b) a = true.
Proof. apply existsb_exists. Qed.

(** Every rectangle met so far lies within one that is kept or still to
    come. *)
Lemma pruneLoop_covers (rest : list FreeRect) :
  forall kept (a : Rect),
    (exists b, In b (kept ++ rest) /\ contains (shape b) a = true) ->
    exists b, In b (pruneLoop kept rest) /\ contains (shape b) a = true.
Proof.
  induction rest as [|ri rest IH]; intros kept a (b & Hb & Hc); simpl.
  - rewrite app_nil_r in Hb. eauto.
  - destruct (existsb _ (kept ++ rest)) eqn:E.
    + apply IH. apply existsb_contains in E. destruct E as (rj & Hj & Hcj).
      apply in_app_or in Hb. destruct Hb as [Hb|[<-|Hb]].
      * exists b. split; auto. apply in_or_app. now left.
      * exists rj. split; auto. eapply contains_trans; eauto.
      * exists b. split; auto. apply in_or_app. now right.
    + apply IH. exists b. split; auto.
      rewrite <- app_assoc. exact Hb.
Qed.

Lemma snoc_split {A : Type} (kept : list A) (ri : A) (k1 : list A) (a : A)
    (k2 : list A) :
  kept ++ [ri] = k1 ++ a :: k2 ->
  (exists k2', k2 = k2' ++ [ri] /\ kept = k1 ++ a :: k2') \/
  (k2 = [] /\ a = ri /\ k1 = kept).
Proof.
  destruct k2 as [|z k2 _] using rev_ind; intros E.
  - right. apply app_inj_tail in E. destruct E; subst. auto.
  - left. exists k2.
    change (k1 ++ a :: k2 ++ [z]) with (k1 ++ (a :: k2) ++ [z]) in E.
    rewrite app_assoc in E. apply app_inj_tail in E.
    destruct E; subst. auto.
Qed.

Lemma existsb_perm_false {A : Type} (f : A -> bool) (l l' : list A) :
  (forall u, In u l' -> In u l) ->
  existsb f l = false -> existsb f l' = false.
Proof.
  intros Hsub H. apply not_true_iff_false. intros H'.
  apply existsb_exists in H'. destruct H' as (u & Hu & Hf).
  assert (existsb f l = true) by (apply existsb_exists; eauto).
  congruence.
Qed.

(** The kept part stays free of contained rectangles, whatever is still
    to come. *)
Lemma pruneLoop_noneContained (rest : list FreeRect) :
  forall kept,
    (forall k1 a k2, kept = k1 ++ a :: k2 ->
       existsb (fun rj => contains (shape rj) (shape a)) (k1 ++ k2 ++ rest)
       = false) ->
    noneContained (pruneLoop kept rest).
Proof.
  induction rest as [|ri rest IH]; intros kept Hk; simpl.
  - intros l1 a l2 E. specialize (Hk l1 a l2 E).
    now rewrite app_nil_r in Hk.
  - destruct (existsb _ (kept ++ rest)) eqn:E.
    + apply IH. intros k1 a k2 Ek. specialize (Hk k1 a k2 Ek).
      eapply existsb_perm_false; [|exact Hk].
      intros u Hu. rewrite !in_app_iff in *. simpl. tauto.
    + apply IH. intros k1 a k2 Ek.
      destruct (snoc_split kept ri k1 a k2 Ek) as [(k2' & E2 & E1)|(E2 & Ea & E1)];
        subst.
      * specialize (Hk k1 a k2' eq_refl).
        eapply existsb_perm_false; [|exact Hk].
        intros u Hu. rewrite !in_app_iff in *. simpl in *. tauto.
      * exact E.
Qed.

End PruneFacts.

(** * The order of the output *)
Module OrderFacts.

Section TieredOrder.
Import Tiered.
Variable LAYOUT_WIDTH LAYOUT_HEIGHT : Z.
Variable baseUnitWidth baseUnitHeight : Z.
Set Default Proof Using "Type".

Lemma placeStep_grows (st : Pack) (it : Prepared) :
  exists tail, results (placeStep LAYOUT_WIDTH st it) = results st ++ tail.
Proof.
  unfold placeStep. destruct (chooseBestRect _ _ _ _); cbn [results]; eauto.
  exists []. now rewrite app_nil_r.
Qed.

Lemma fold_placeStep_grows (l : list Prepared) :
  forall st, exists tail,
    results (fold_left (placeStep LAYOUT_WIDTH) l st) = results st ++ tail.
Proof.
  induction l as [|it l IH]; intros st; simpl.
  - exists []. now rewrite app_nil_r.
  - destruct (IH (placeStep LAYOUT_WIDTH st it)) as [t1 E1].
    destruct (placeStep_grows st it) as [t2 E2].
    exists (t2 ++ t1). rewrite E1, E2. now rewrite app_assoc.
Qed.

Lemma fillRow_grows (rectY rowHeight : Z) :
  forall fuel r, exists tail,
    row_results (fillRow baseUnitWidth fuel rectY rowHeight r)
    = row_results r ++ tail.
Proof.
  induction fuel as [|fuel IH]; intros r; cbn [fillRow].
  - exists []. now rewrite app_nil_r.
  - destruct (findNarrowest _ _ _ _ _) as [[k it]|].
    + destruct (_ <? baseUnitWidth); cbn [row_results]; eauto.
      match goal with |- context [fillRow _ _ _ _ ?r'] =>
        destruct (IH r') as [t E] end.
      cbn [row_results] in E. rewrite E, <- app_assoc. eauto.
    + exists []. now rewrite app_nil_r.
Qed.

Lemma shelfLoop_grows :
  forall fuel s, exists tail,
    sh_results (shelfLoop baseUnitWidth baseUnitHeight fuel s)
    = sh_results s ++ tail.
Proof.
  induction fuel as [|fuel IH]; intros s; cbn [shelfLoop].
  - exists []. now rewrite app_nil_r.
  - destruct (baseUnitHeight <=? height (rect s));
      [|exists []; now rewrite app_nil_r].
    destruct (filter _ _) as [|c cs]; [exists []; now rewrite app_nil_r|].
    match goal with |- context [fillRow _ ?f ?yy ?rh ?r] =>
      destruct (fillRow_grows yy rh f r) as [t E];
      set (row := fillRow baseUnitWidth f yy rh r) in * end.
    cbn [row_results] in E.
    destruct (rowPlaced row); cbn [sh_results]; eauto.
    match goal with |- context [shelfLoop _ _ _ ?s'] =>
      destruct (IH s') as [t' E'] end.
    cbn [sh_results] in E'. rewrite E', E, <- app_assoc. eauto.
Qed.

Lemma fold_fillRectWithShelf_grows (pending : list FreeRect) :
  forall st, exists tail,
    f_results (fold_left (fillRectWithShelf baseUnitWidth baseUnitHeight) pending st)
    = f_results st ++ tail.
Proof.
  induction pending as [|fr pending IH]; intros st; simpl.
  - exists []. now rewrite app_nil_r.
  - destruct (IH (fillRectWithShelf baseUnitWidth baseUnitHeight st fr)) as [t1 E1].
    rewrite E1. unfold fillRectWithShelf at 1. cbn [f_results].
    match goal with |- context [shelfLoop _ _ ?f ?s] =>
      destruct (shelfLoop_grows f s) as [t2 E2] end.
    cbn [sh_results] in E2. rewrite E2, <- app_assoc. eauto.
Qed.

(** The rectangles of the first phase come first in the list, in the order
    the phase drew them. *)
Lemma packPrepared_grows (prepared : list Prepared) :
  exists tail,
    f_results
      (packPrepared LAYOUT_WIDTH LAYOUT_HEIGHT baseUnitWidth baseUnitHeight prepared)
    = results (phase1 LAYOUT_WIDTH LAYOUT_HEIGHT prepared) ++ tail.
Proof.
  unfold packPrepared, phase2.
  match goal with |- context [fold_left _ ?p ?st] =>
    destruct (fold_fillRectWithShelf_grows p st) as [t E] end.
  cbn [f_results] in E. eauto.
Qed.

Lemma chooseBestRect_initial (w h : Z) :
  w <= LAYOUT_WIDTH ->
  h <= LAYOUT_HEIGHT - headerInfoHeight LAYOUT_HEIGHT ->
  chooseBestRect LAYOUT_WIDTH
    (freeRects (initialStore LAYOUT_WIDTH LAYOUT_HEIGHT)) w h
  = Some (mkFree 0 (mkRect 0 (headerInfoHeight LAYOUT_HEIGHT) LAYOUT_WIDTH
                      (Z.max 0 (LAYOUT_HEIGHT - headerInfoHeight LAYOUT_HEIGHT)))).
Proof.
  intros Hw Hh. unfold chooseBestRect, initialStore. cbn [freeRects fold_left].
  unfold chooseStep. cbn [shape width height].
  replace (w <=? LAYOUT_WIDTH) with true by (symmetry; apply Z.leb_le; lia).
  replace (h <=? Z.max 0 (LAYOUT_HEIGHT - headerInfoHeight LAYOUT_HEIGHT))
    with true by (symmetry; apply Z.leb_le; lia).
  reflexivity.
Qed.

End TieredOrder.

Section NaiveOrder.
Import Naive.
Local Open Scope Q_scope.

Lemma naive_placeStep_taken (st : Pack) (g : SizedGame) :
  exists s, subseq s [g] /\
    map lg_item (results (placeStep st g)) = map lg_item (results st) ++ s.
Proof.
  unfold placeStep. destruct (scan _ _ _ _) as [[[s i] t]|]; cbn [results].
  - exists [g]. split; [apply subseq_refl|]. now rewrite map_app.
  - exists []. split; [repeat constructor|]. now rewrite app_nil_r.
Qed.

Lemma naive_fold_placeStep_taken (l : list SizedGame) :
  forall st, exists s, subseq s l /\
    map lg_item (results (fold_left placeStep l st))
    = map lg_item (results st) ++ s.
Proof.
  induction l as [|g l IH]; intros st; simpl.
  - exists []. split; [constructor|]. now rewrite app_nil_r.
  - destruct (IH (placeStep st g)) as (s1 & H1 & E1).
    destruct (naive_placeStep_taken st g) as (s2 & H2 & E2).
    exists (s2 ++ s1). split.
    + change (g :: l) with ([g] ++ l). now apply subseq_app.
    + rewrite E1, E2. now rewrite app_assoc.
Qed.

Lemma naive_fold_placeStep_grows (l : list SizedGame) :
  forall st, exists tail,
    results (fold_left placeStep l st) = results st ++ tail.
Proof.
  induction l as [|g l IH]; intros st; simpl.
  - exists []. now rewrite app_nil_r.
  - destruct (IH (placeStep st g)) as [t1 E1]. rewrite E1.
    unfold placeStep at 1. destruct (scan _ _ _ _) as [[[s i] t]|]; cbn [results].
    + rewrite <- app_assoc. eauto.
    + eauto.
Qed.

Lemma byHeightDesc_sorted (items : list SizedGame) :
  StronglySorted (fun a b => sg_height b <= sg_height a)
    (sortBy byHeightDesc items).
Proof.
  apply sortBy_sorted.
  - intros a b c H1 H2. lra.
  - intros a b H. unfold byHeightDesc, sgnQ in H.
    destruct (Qlt_le_dec (sg_height a) (sg_height b)) as [Hlt|Hle]; auto.
    exfalso. apply H. apply Qgt_alt. lra.
  - intros a b H. unfold byHeightDesc, sgnQ in H.
    apply Qgt_alt in H. lra.
Qed.

End NaiveOrder.

Section NaiveDOrder.
Import Doubles NaiveD.

Lemma placeStep_taken (st : Pack) (g : SizedGame) :
  exists s, subseq s [g] /\
    map lg_item (results (placeStep st g)) = map lg_item (results st) ++ s.
Proof.
  unfold placeStep.
  destruct (chosen _ _) as [[i node]|];
    [destruct (nth_error _ _)|]; cbn [results].
  - exists [g]. split; [apply subseq_refl|]. now rewrite map_app.
  - exists []. split; [repeat constructor|]. now rewrite app_nil_r.
  - exists []. split; [repeat constructor|]. now rewrite app_nil_r.
Qed.

Lemma fold_placeStep_taken (l : list SizedGame) :
  forall st, exists s, subseq s l /\
    map lg_item (results (fold_left placeStep l st))
    = map lg_item (results st) ++ s.
Proof.
  induction l as [|g l IH]; intros st; simpl.
  - exists []. split; [constructor|]. now rewrite app_nil_r.
  - destruct (IH (placeStep st g)) as (s1 & H1 & E1).
    destruct (placeStep_taken st g) as (s2 & H2 & E2).
    exists (s2 ++ s1). split.
    + change (g :: l) with ([g] ++ l). now apply subseq_app.
    + rewrite E1, E2. now rewrite app_assoc.
Qed.

End NaiveDOrder.

Section JitterOrder.
Import Tiered.
Local Open Scope Q_scope.

Lemma byJitteredMult_sorted (prepared : list Prepared) :
  StronglySorted (fun a b => jitterKey a <= jitterKey b)
    (sortBy byJitteredMult prepared).
Proof.
  apply sortBy_sorted.
  - intros a b c H1 H2. lra.
  - intros a b H. unfold byJitteredMult, sgnQ in H.
    destruct (Qlt_le_dec (jitterKey b) (jitterKey a)) as [Hlt|Hle]; auto.
    exfalso. apply H. apply Qgt_alt. lra.
  - intros a b H. unfold byJitteredMult, sgnQ in H.
    apply Qgt_alt in H. lra.
Qed.

Lemma jitterKey_tiers (a b : Prepared) :
  0 <= it_rnd a <= 1 -> 0 <= it_rnd b <= 1 ->
  jitterKey a <= jitterKey b -> (it_mult b <= it_mult a)%Z.
Proof.
  unfold jitterKey, RANDOM_JITTER. intros Ha Hb H.
  destruct (Z_le_gt_dec (it_mult b) (it_mult a)) as [|Hgt]; auto.
  exfalso.
  assert (Hq : inject_Z (it_mult a) + 1 <= inject_Z (it_mult b)).
  { change 1 with (inject_Z 1).
    rewrite <- (inject_Z_plus (it_mult a) 1), <- Zle_Qle. lia. }
  rewrite !inject_Z_opp in H. lra.
Qed.

End JitterOrder.

End OrderFacts.

(** * [getServerSideProps]: the merged library *)
Module ServerFacts.
Import Js Server.

Lemma addTo_cons (a b : Z) (s : list Z) :
  addTo a (b :: s) = if a =? b then b :: s else b :: addTo a s.
Proof.
  unfold addTo. simpl. destruct (a =? b); simpl; auto.
  destruct (existsb _ s); auto.
Qed.

Lemma addTo_In (a b : Z) (s : list Z) :
  In b (addTo a s) <-> b = a \/ In b s.
Proof.
  unfold addTo. destruct (existsb _ s) eqn:E.
  - apply existsb_exists in E. destruct E as (c & Hc & Ec).
    apply Z.eqb_eq in Ec. subst c. intuition (subst; auto).
  - rewrite in_app_iff. simpl. intuition.
Qed.

Lemma addTo_NoDup (a : Z) (s : list Z) : NoDup s -> NoDup (addTo a s).
Proof.
  intros H. unfold addTo. destruct (existsb _ s) eqn:E; auto.
  apply NoDup_app; auto.
  - repeat constructor. intros [].
  - intros b Hb [Hab|[]]. subst b.
    assert (existsb (Z.eqb a) s = true)
      by (apply existsb_exists; exists a; split; auto; apply Z.eqb_refl).
    congruence.
Qed.

Lemma fold_addTo_In (l : list Z) :
  forall s b, In b (fold_left (fun s a => addTo a s) l s) <-> In b l \/ In b s.
Proof.
  induction l as [|a l IH]; intros s b; simpl; [tauto|].
  rewrite IH, addTo_In. intuition.
Qed.

Lemma fold_addTo_NoDup (l : list Z) :
  forall s, NoDup s -> NoDup (fold_left (fun s a => addTo a s) l s).
Proof.
  induction l as [|a l IH]; intros s H; simpl; auto.
  apply IH. now apply addTo_NoDup.
Qed.

Lemma absorb_ids (g : SteamGame) (aggregated : list SteamGame) :
  map appid (absorb g aggregated) = addTo (appid g) (map appid aggregated).
Proof.
  induction aggregated as [|prev rest IH]; simpl; auto.
  rewrite addTo_cons. rewrite (Z.eqb_sym (appid g) (appid prev)).
  destruct (appid prev =? appid g); simpl; auto.
  now rewrite IH.
Qed.

Lemma absorb_playtime (id : Z) (g : SteamGame) (aggregated : list SteamGame) :
  playtimeOf id (absorb g aggregated)
  = playtimeOf id aggregated + (if appid g =? id then playtime_forever g else 0).
Proof.
  unfold playtimeOf.
  induction aggregated as [|prev rest IH]; simpl.
  - destruct (appid g =? id); simpl; lia.
  - destruct (appid prev =? appid g) eqn:E; simpl.
    + apply Z.eqb_eq in E. rewrite <- E.
      destruct (appid prev =? id); simpl; lia.
    + destruct (appid prev =? id); simpl; rewrite IH; lia.
Qed.

Lemma absorb_name (id : Z) (g : SteamGame) (aggregated : list SteamGame) :
  nameOf id (absorb g aggregated)
  = match nameOf id aggregated with
    | Some n => Some n
    | None => if appid g =? id then Some (name g) else None
    end.
Proof.
  unfold nameOf.
  induction aggregated as [|prev rest IH]; simpl.
  - destruct (appid g =? id); reflexivity.
  - destruct (appid prev =? appid g) eqn:E; simpl.
    + apply Z.eqb_eq in E.
      destruct (appid prev =? id) eqn:E'; simpl; auto.
      rewrite <- E, E'. destruct (find _ rest); reflexivity.
    + destruct (appid prev =? id); simpl; auto.
Qed.

Lemma absorb_total (g : SteamGame) (aggregated : list SteamGame) :
  totalPlaytime (absorb g aggregated)
  = totalPlaytime aggregated + playtime_forever g.
Proof.
  unfold totalPlaytime.
  induction aggregated as [|prev rest IH]; simpl; [lia|].
  destruct (appid prev =? appid g); simpl; [lia|]. rewrite IH. lia.
Qed.

Lemma playtimeOf_app (id : Z) (l l' : list SteamGame) :
  playtimeOf id (l ++ l') = playtimeOf id l + playtimeOf id l'.
Proof.
  unfold playtimeOf. rewrite filter_app, map_app.
  induction (map playtime_forever (filter _ l)); simpl; lia.
Qed.

Lemma totalPlaytime_app (l l' : list SteamGame) :
  totalPlaytime (l ++ l') = totalPlaytime l + totalPlaytime l'.
Proof.
  unfold totalPlaytime. rewrite map_app.
  induction (map playtime_forever l); simpl; lia.
Qed.

Lemma nameOf_app (id : Z) (l l' : list SteamGame) :
  nameOf id (l ++ l')
  = match nameOf id l with Some n => Some n | None => nameOf id l' end.
Proof.
  unfold nameOf. induction l as [|g l IH]; simpl; auto.
  destruct (appid g =? id); simpl; auto.
Qed.

Lemma playtimeOf_cons (id : Z) (g : SteamGame) (l : list SteamGame) :
  playtimeOf id (g :: l)
  = (if appid g =? id then playtime_forever g else 0) + playtimeOf id l.
Proof. unfold playtimeOf. simpl. destruct (appid g =? id); simpl; lia. Qed.

Lemma nameOf_cons (id : Z) (g : SteamGame) (l : list SteamGame) :
  nameOf id (g :: l) = if appid g =? id then Some (name g) else nameOf id l.
Proof. unfold nameOf. simpl. destruct (appid g =? id); reflexivity. Qed.

Lemma totalPlaytime_cons (g : SteamGame) (l : list SteamGame) :
  totalPlaytime (g :: l) = playtime_forever g + totalPlaytime l.
Proof. reflexivity. Qed.

(** What [absorbAll] makes of a list of games, on top of what was there. *)
Lemma absorbAll_spec (games : list SteamGame) :
  forall aggregated,
    map appid (absorbAll games aggregated)
    = fold_left (fun s a => addTo a s) (map appid games) (map appid aggregated) /\
    (forall id,
       playtimeOf id (absorbAll games aggregated)
       = playtimeOf id (aggregated ++ games) /\
       nameOf id (absorbAll games aggregated) = nameOf id (aggregated ++ games)) /\
    totalPlaytime (absorbAll games aggregated)
    = totalPlaytime (aggregated ++ games).
Proof.
  unfold absorbAll.
  induction games as [|g games IH]; intros aggregated; simpl.
  - rewrite app_nil_r. auto.
  - destruct (IH (absorb g aggregated)) as (I1 & I2 & I3).
    split; [|split].
    + rewrite I1, absorb_ids. reflexivity.
    + intros id. destruct (I2 id) as [P N]. split.
      * rewrite P, !playtimeOf_app, absorb_playtime, playtimeOf_cons. lia.
      * rewrite N, !nameOf_app, absorb_name, nameOf_cons.
        destruct (nameOf id aggregated); auto.
        destruct (appid g =? id); auto.
    + rewrite I3, !totalPlaytime_app, absorb_total, totalPlaytime_cons. lia.
Qed.

Lemma collect_games (results : list Settled) :
  forall idx resolvedPairs aggregated fetchErrors,
    fst (collect results idx resolvedPairs aggregated fetchErrors)
    = absorbAll (fulfilledGames results) aggregated.
Proof.
  induction results as [|res results IH]; intros; simpl; auto.
  destruct res; rewrite IH; auto.
  unfold absorbAll. now rewrite fold_left_app.
Qed.

Lemma collect_errors (results : list Settled) :
  forall idx resolvedPairs aggregated fetchErrors,
    List.length (snd (collect results idx resolvedPairs aggregated fetchErrors))
    = (List.length fetchErrors
       + List.length (filter (fun res => match res with
                                         | Rejected _ => true
                                         | Fulfilled _ => false
                                         end) results))%nat.
Proof.
  induction results as [|res results IH]; intros; simpl; [lia|].
  destruct res; rewrite IH; simpl; auto.
  rewrite length_app. simpl. lia.
Qed.

Lemma fetchFailed_truthy (sid : str) (message : option str) :
  truthy (fetchFailed sid message) = true.
Proof. reflexivity. Qed.

End ServerFacts.

(** * [getServerSideProps]: the achievement checks *)
Module GoldFacts.
Import Js Server.

Lemma firstn_In {A : Type} (n : nat) (l : list A) (a : A) :
  In a (firstn n l) -> In a l.
Proof.
  intros H. rewrite <- (firstn_skipn n l). apply in_or_app. now left.
Qed.

Lemma skipn_In {A : Type} (n : nat) (l : list A) (a : A) :
  In a (skipn n l) -> In a l.
Proof.
  intros H. rewrite <- (firstn_skipn n l). apply in_or_app. now right.
Qed.

Section Loop.
Variable ok : nat -> bool.
Variable tasks : list (nat * (Z * Resolved)).
Variable maxRequests : nat.
Set Default Proof Using "Type".

Lemma goldLoop_fuel :
  forall fuel fuel' st,
    (List.length tasks - gold_i st < fuel)%nat ->
    (List.length tasks - gold_i st < fuel')%nat ->
    goldLoop ok tasks maxRequests fuel st = goldLoop ok tasks maxRequests fuel' st.
Proof.
  induction fuel as [|fuel IH]; intros [|fuel'] st H1 H2; try lia.
  cbn [goldLoop].
  destruct (gold_i st <? List.length tasks)%nat eqn:E; cbn [andb]; auto.
  destruct (issued st <? maxRequests)%nat; auto.
  apply Nat.ltb_lt in E.
  apply IH; cbn [gold_i]; unfold CONCURRENCY; lia.
Qed.

Lemma batch_length (i : nat) (seen : list Z) :
  (List.length
     (filter (fun t : nat * (Z * Resolved) =>
                negb (existsb (Z.eqb (fst (snd t))) seen))
        (firstn CONCURRENCY (skipn i tasks)))
   <= Nat.min CONCURRENCY (List.length tasks - i))%nat.
Proof.
  etransitivity; [apply filter_length_le|].
  rewrite length_firstn, length_skipn. lia.
Qed.

(** What every turn of the loop keeps. *)
Lemma goldLoop_keeps :
  forall fuel st,
    (issued st <= maxRequests + (CONCURRENCY - 1))%nat ->
    (issued st <= Nat.min (gold_i st) (List.length tasks))%nat ->
    NoDup (goldSet st) ->
    Forall (fun a => exists k rp, In (k, (a, rp)) tasks /\ ok k = true)
           (goldSet st) ->
    let st' := goldLoop ok tasks maxRequests fuel st in
    (issued st' <= maxRequests + (CONCURRENCY - 1))%nat /\
    (issued st' <= List.length tasks)%nat /\
    NoDup (goldSet st') /\
    Forall (fun a => exists k rp, In (k, (a, rp)) tasks /\ ok k = true)
           (goldSet st').
Proof.
  induction fuel as [|fuel IH]; intros st H1 H2 H3 H4; cbn [goldLoop]; cbv zeta.
  - repeat split; auto. lia.
  - destruct (gold_i st <? List.length tasks)%nat eqn:E; cbn [andb];
      [|repeat split; auto; lia].
    destruct (issued st <? maxRequests)%nat eqn:E';
      [|repeat split; auto; lia].
    apply Nat.ltb_lt in E, E'.
    pose proof (batch_length (gold_i st) (seenApps st)) as Hb.
    apply IH; cbn [gold_i issued goldSet].
    + unfold CONCURRENCY in *. lia.
    + unfold CONCURRENCY in *. lia.
    + now apply ServerFacts.fold_addTo_NoDup.
    + apply Forall_forall. intros a Ha.
      apply ServerFacts.fold_addTo_In in Ha. destruct Ha as [Ha|Ha].
      * apply in_map_iff in Ha. destruct Ha as ([k [a' rp]] & <- & Hin).
        apply filter_In in Hin. destruct Hin as [Hin Hok].
        apply filter_In in Hin. destruct Hin as [Hin _].
        apply firstn_In, skipn_In in Hin.
        exists k, rp. split; auto.
      * rewrite Forall_forall in H4. now apply H4.
Qed.

End Loop.

Lemma topGames_incl (aggregatedGames : list SteamGame) (g : SteamGame) :
  In g (topGames aggregatedGames) -> In g aggregatedGames.
Proof.
  unfold topGames. intros H. apply firstn_In in H.
  eapply Permutation_in; [apply sortBy_Permutation|exact H].
Qed.

Lemma tasksOf_ids (aggregatedGames : list SteamGame)
    (resolvedPairs : list Resolved) (k : nat) (a : Z) (rp : Resolved) :
  In (k, (a, rp)) (tasksOf aggregatedGames resolvedPairs) ->
  exists g, In g (topGames aggregatedGames) /\ appid g = a.
Proof.
  unfold tasksOf. intros H. apply in_combine_r in H.
  apply in_flat_map in H. destruct H as (g & Hg & H).
  apply in_map_iff in H. destruct H as (rp' & E & _).
  inversion E; subst. eauto.
Qed.

Lemma tasksOf_length (aggregatedGames : list SteamGame)
    (resolvedPairs : list Resolved) :
  List.length (tasksOf aggregatedGames resolvedPairs)
  = (LIMIT aggregatedGames * List.length resolvedPairs)%nat.
Proof.
  unfold tasksOf. rewrite length_combine, length_seq, Nat.min_id.
  assert (Hl : List.length (topGames aggregatedGames) = LIMIT aggregatedGames).
  { unfold topGames. rewrite length_firstn.
    rewrite (Permutation_length (sortBy_Permutation _ _)).
    unfold LIMIT. lia. }
  rewrite <- Hl. clear Hl.
  induction (topGames aggregatedGames) as [|g l IH]; simpl; auto.
  rewrite length_app, length_map, IH. reflexivity.
Qed.

End GoldFacts.

(** * [getServerSideProps]: the props *)
Module PropsFacts.
Import Js Server.

Lemma join_truthy (sep a : str) (l : list str) :
  truthy a = true -> truthy (join sep (a :: l)) = true.
Proof.
  destruct a as [|c a]; [discriminate|]. intros _. destruct l; reflexivity.
Qed.

Lemma orStr_nil (s : str) : orStr s [] = s.
Proof. destruct s; reflexivity. Qed.

Lemma orStr_same (s : str) : orStr s s = s.
Proof. destruct s; reflexivity. Qed.

Lemma mapi_length {A B : Type} (f : A -> nat -> B) (l : list A) :
  forall idx, List.length (mapi f idx l) = List.length l.
Proof. induction l; intros; simpl; auto. Qed.

Lemma mapi_map {A B C : Type} (f : A -> nat -> B) (h : B -> C) (k : A -> C)
    (l : list A) :
  (forall a idx, h (f a idx) = k a) ->
  forall idx, map h (mapi f idx l) = map k l.
Proof.
  intros H. induction l as [|a l IH]; intros idx; simpl; auto.
  now rewrite H, IH.
Qed.

Lemma mapi_Forall {A B : Type} (f : A -> nat -> B) (P : B -> Prop) (l : list A) :
  (forall a idx, P (f a idx)) -> forall idx, Forall P (mapi f idx l).
Proof.
  intros H. induction l as [|a l IH]; intros idx; simpl; constructor; auto.
Qed.

Lemma resolveAll_errors (resolution : nat -> Resolution) (pairs : list Pair) :
  forall k resolvedPairs resolveErrors resolvedPairs' resolveErrors',
    resolveAll resolution k pairs resolvedPairs resolveErrors
    = Some (resolvedPairs', resolveErrors') ->
    Forall (fun e => truthy e = true) resolveErrors ->
    Forall (fun e => truthy e = true) resolveErrors' /\
    (List.length resolvedPairs' + List.length resolveErrors'
     = List.length resolvedPairs + List.length resolveErrors + List.length pairs)%nat /\
    (Forall (fun rp => truthy (rp_id rp) = true) resolvedPairs ->
     Forall (fun rp => truthy (rp_id rp) = true) resolvedPairs').
Proof.
  induction pairs as [|p pairs IH]; intros k rps errs rps' errs' E He; simpl in E.
  - inversion E; subst. repeat split; auto; simpl; lia.
  - assert (Hcannot : Forall (fun e => truthy e = true)
                        (errs ++ [cannotResolve (pair_input p)])).
    { apply Forall_app. split; auto. }
    destruct (resolution k) as [[[|c id]|]|]; try discriminate.
    + apply IH in E; auto. destruct E as (E1 & E2 & E3).
      rewrite length_app in E2. simpl in *. repeat split; auto. lia.
    + apply IH in E; auto. destruct E as (E1 & E2 & E3).
      rewrite length_app in E2. simpl in *. repeat split; auto; [lia|].
      intros H. apply E3. apply Forall_app. split; auto.
    + apply IH in E; auto. destruct E as (E1 & E2 & E3).
      rewrite length_app in E2. simpl in *. repeat split; auto. lia.
Qed.

Lemma collect_errors_truthy (results : list Settled) :
  forall idx resolvedPairs aggregated fetchErrors,
    Forall (fun e => truthy e = true) fetchErrors ->
    Forall (fun e => truthy e = true)
      (snd (collect results idx resolvedPairs aggregated fetchErrors)).
Proof.
  induction results as [|res results IH]; intros; simpl; auto.
  destruct res; apply IH; auto.
  apply Forall_app. split; auto.
Qed.

(** The ways [getServerSideProps] returns. *)
Lemma getServerSideProps_cases
    (resolution : nat -> Resolution) (fetched : nat -> Fetched)
    (profile : option Profile) (ok : nat -> bool)
    (rawSteamId rawApiKey : QueryValue) (props : Props) :
  getServerSideProps resolution fetched profile ok rawSteamId rawApiKey
  = Some props ->
  initialAccounts props
  = initialAccountsOf (asList rawSteamId) (asList rawApiKey) /\
  ((initialGames props = [] /\ goldAppids props = [] /\
    initialProfile props = None /\
    (((asList rawSteamId = [] \/ asList rawApiKey = []) /\ error props = None) \/
     (asList rawSteamId <> [] /\ asList rawApiKey <> [] /\
      exists e, error props = Some e /\ truthy e = true))) \/
   (exists resolvedPairs resolveErrors,
      resolveAll resolution 0
        (pairsOf (asList rawSteamId) (asList rawApiKey)) [] []
      = Some (resolvedPairs, resolveErrors) /\
      resolvedPairs <> [] /\
      initialGames props
      = fst (collect (mapi (fun _ idx => fetchOwned (fetched idx)) 0 resolvedPairs)
               0 resolvedPairs [] []) /\
      initialGames props <> [] /\
      goldAppids props
      = goldSet (goldAppidsOf ok (initialGames props) resolvedPairs) /\
      initialProfile props = profile)).
Proof.
  unfold getServerSideProps. cbv zeta.
  destruct (asList rawSteamId) as [|s0 ss] eqn:Es.
  { simpl. intros E. inversion E; subst; cbn. split; auto. left.
    repeat split; auto. }
  destruct (asList rawApiKey) as [|k0 ks] eqn:Ek.
  { simpl. intros E. inversion E; subst; cbn. split; auto. left.
    repeat split; auto. }
  cbn [List.length Nat.eqb orb].
  destruct (pairsOf (s0 :: ss) (k0 :: ks)) as [|p pairs] eqn:Ep.
  { intros E. inversion E; subst; cbn. split; auto. left.
    repeat split; auto. right. repeat split; try discriminate. eauto. }
  destruct (resolveAll resolution 0 (p :: pairs) [] [])
    as [[resolvedPairs resolveErrors]|] eqn:Er; [|discriminate].
  pose proof (resolveAll_errors _ _ _ _ _ _ _ Er (Forall_nil _))
    as (Herr & Hlen & _).
  destruct resolvedPairs as [|rp rps].
  { intros E. inversion E; subst; cbn. split; auto. left.
    repeat split; auto. right. repeat split; try discriminate.
    destruct resolveErrors as [|e es]; [simpl in Hlen; lia|].
    eexists. split; [reflexivity|].
    inversion Herr; subst. now apply join_truthy. }
  destruct (collect _ 0 (rp :: rps) [] []) as [aggregatedGames fetchErrors] eqn:Ec.
  pose proof (collect_errors_truthy
                (mapi (fun _ idx => fetchOwned (fetched idx)) 0 (rp :: rps))
                0 (rp :: rps) [] [] (Forall_nil _)) as Hf.
  rewrite Ec in Hf. cbn [snd] in Hf.
  destruct aggregatedGames as [|g gs].
  { intros E. inversion E; subst; cbn. split; auto. left.
    repeat split; auto. right. repeat split; try discriminate.
    destruct fetchErrors as [|e es]; [eexists; split; reflexivity|].
    eexists. split; [reflexivity|].
    inversion Hf; subst. now apply join_truthy. }
  intros E. inversion E; subst; cbn. split; auto. right.
  exists (rp :: rps), resolveErrors. repeat split; auto; try discriminate.
  now rewrite Ec.
Qed.

Lemma fulfilledGames_filter (results : list Settled) :
  fulfilledGames
    (filter (fun res => match res with
                        | Fulfilled _ => true
                        | Rejected _ => false
                        end) results)
  = fulfilledGames results.
Proof.
  induction results as [|res results IH]; simpl; auto.
  destruct res; simpl; now rewrite IH.
Qed.

End PropsFacts.

(** * [fetchJsonWithRetry]: the loop *)
Module RetryFacts.
Import Js Retry.

Section Loop.
Variable J : Type.
Variable attemptAt : Z -> Attempt J.
Variable retries : Z.
Set Default Proof Using "Type".

Abbreviation transient := (transientAt J attemptAt).
Abbreviation run := (loop J attemptAt retries).

Lemma caught_Body (a : Attempt J) :
  caught J a = None <-> exists json, a = Body J json.
Proof.
  destruct a; simpl; split; intros H; try discriminate; eauto;
    destruct H as [j Hj]; discriminate.
Qed.

(** The turn at [attempt], when it is not the last to be made. *)
Lemma loop_goes_on (fuel : nat) (attempt : Z) (lastError : option (option str))
    (f s : nat) :
  attempt < retries -> transient attempt ->
  exists e,
    run (S fuel) attempt lastError f s
    = run fuel (attempt + 1) (Some e) (S f) (S s).
Proof.
  intros Hlt (e & Hc & Ht). cbn [loop].
  replace (attempt <=? retries) with true by (symmetry; apply Z.leb_le; lia).
  replace (attempt =? retries) with false by (symmetry; apply Z.eqb_neq; lia).
  destruct (attemptAt attempt) as [m|st tx|j]; simpl in Hc; inversion Hc; subst;
    cbv zeta; rewrite Ht; simpl; eauto.
Qed.

(** The turn at [attempt], when it is the last to be made. *)
Lemma loop_decides (fuel : nat) (attempt : Z) (lastError : option (option str))
    (f s : nat) :
  attempt <= retries ->
  (forall json, attemptAt attempt = Body J json ->
     run (S fuel) attempt lastError f s = mkRun J (Returned J json) (S f) s) /\
  (forall e, caught J (attemptAt attempt) = Some e ->
     isTransient (messageOf e) = false \/ attempt = retries ->
     run (S fuel) attempt lastError f s = mkRun J (Thrown J e) (S f) s).
Proof.
  intros Hle. cbn [loop].
  replace (attempt <=? retries) with true by (symmetry; apply Z.leb_le; lia).
  split.
  - intros json ->. reflexivity.
  - intros e Hc Hd.
    assert (Hb : negb (isTransient (messageOf e)) || (attempt =? retries) = true).
    { destruct Hd as [-> | ->]; [reflexivity|].
      rewrite Z.eqb_refl. apply orb_true_r. }
    destruct (attemptAt attempt) as [m|st tx|j]; simpl in Hc; inversion Hc; subst;
      cbv zeta; rewrite Hb; reflexivity.
Qed.

Lemma loop_first_decisive (k : Z) :
  k <= retries ->
  forall fuel attempt lastError f s,
    attempt <= k ->
    (Z.to_nat (k - attempt) < fuel)%nat ->
    (forall i, attempt <= i < k -> transient i) ->
    (forall json, attemptAt k = Body J json ->
       run fuel attempt lastError f s
       = mkRun J (Returned J json)
           (S (f + Z.to_nat (k - attempt))) (s + Z.to_nat (k - attempt))) /\
    (forall e, caught J (attemptAt k) = Some e ->
       isTransient (messageOf e) = false \/ k = retries ->
       run fuel attempt lastError f s
       = mkRun J (Thrown J e)
           (S (f + Z.to_nat (k - attempt))) (s + Z.to_nat (k - attempt))).
Proof.
  intros Hk. induction fuel as [|fuel IH]; intros attempt le f s Ha Hf Ht; [lia|].
  destruct (Z.eq_dec attempt k) as [->|Hne].
  - replace (k - k) with 0 by lia. simpl. rewrite !Nat.add_0_r.
    apply loop_decides. lia.
  - destruct (loop_goes_on fuel attempt le f s) as [e E];
      [lia|apply Ht; lia|].
    rewrite E.
    replace (Z.to_nat (k - attempt)) with (S (Z.to_nat (k - (attempt + 1))))
      by lia.
    destruct (IH (attempt + 1) (Some e) (S f) (S s)) as [I1 I2];
      [lia|lia|intros i Hi; apply Ht; lia|].
    split.
    + intros json Hj. rewrite (I1 json Hj). f_equal; lia.
    + intros e' Hc Hd. rewrite (I2 e' Hc Hd). f_equal; lia.
Qed.

(** From [attempt] on there is a first turn that decides. *)
Lemma loop_decisive_exists :
  forall (n : nat) (attempt : Z),
    attempt <= retries -> Z.to_nat (retries - attempt) = n ->
    exists k, attempt <= k <= retries /\
      (forall i, attempt <= i < k -> transient i) /\
      ((exists json, attemptAt k = Body J json) \/
       (exists e, caught J (attemptAt k) = Some e /\
                  (isTransient (messageOf e) = false \/ k = retries))).
Proof.
  induction n as [|n IH]; intros attempt Hle Hn.
  - exists attempt. split; [lia|]. split; [intros; lia|].
    destruct (caught J (attemptAt attempt)) as [e|] eqn:E.
    + right. exists e. split; auto. right. lia.
    + left. now apply caught_Body.
  - destruct (caught J (attemptAt attempt)) as [e|] eqn:E.
    + destruct (isTransient (messageOf e)) eqn:Et.
      * destruct (IH (attempt + 1)) as (k & Hk & Hb & Hd); [lia|lia|].
        exists k. split; [lia|]. split; auto.
        intros i Hi. destruct (Z.eq_dec i attempt) as [->|].
        -- exists e. auto.
        -- apply Hb. lia.
      * exists attempt. split; [lia|]. split; [intros; lia|].
        right. exists e. auto.
    + exists attempt. split; [lia|]. split; [intros; lia|].
      left. now apply caught_Body.
Qed.

End Loop.

End RetryFacts.

(** * [drawCollage]: the numbers *)
Module DrawFacts.
Import Draw.
Local Open Scope Q_scope.


Lemma Qlt_bool_ge (a b : Q) : Qlt_bool a b = false <-> b <= a.
Proof. unfold Qlt_bool. rewrite negb_false_iff. apply Qle_bool_iff. Qed.

(** [Math.round] keeps a number between two integers between them, and
    moves it by half at most. *)
Lemma jsRound_between (a b : Z) (q : Q) :
  inject_Z a <= q -> q <= inject_Z b -> (a <= jsRound q <= b)%Z.
Proof.
  intros Ha Hb. unfold jsRound. split.
  - replace a with (Qfloor (inject_Z a)) by apply Qfloor_Z.
    apply Qfloor_resp_le. lra.
  - assert (H : (Qfloor (q + (1 # 2)) <= Qfloor (inject_Z b + (1 # 2)))%Z)
      by (apply Qfloor_resp_le; lra).
    assert (Hf : Qfloor (inject_Z b + (1 # 2)) = b).
    { assert (H1 := Qfloor_le (inject_Z b + (1 # 2))).
      assert (H2 := Qlt_floor (inject_Z b + (1 # 2))).
      rewrite inject_Z_plus in H2.
      assert (H3 : inject_Z (Qfloor (inject_Z b + (1 # 2))) < inject_Z (b + 1)).
      { rewrite inject_Z_plus. eapply Qle_lt_trans; [exact H1|].
        change (inject_Z 1) with 1. lra. }
      assert (H4 : inject_Z (b - 1) < inject_Z (Qfloor (inject_Z b + (1 # 2)))).
      { unfold Z.sub. rewrite inject_Z_plus, inject_Z_opp.
        change (inject_Z 1) with 1 in *. lra. }
      rewrite <- Zlt_Qlt in H3, H4. lia. }
    lia.
Qed.

Lemma jsRound_near (q : Q) :
  q - (1 # 2) < inject_Z (jsRound q) /\ inject_Z (jsRound q) <= q + (1 # 2).
Proof.
  unfold jsRound.
  assert (H1 := Qfloor_le (q + (1 # 2))).
  assert (H2 := Qlt_floor (q + (1 # 2))).
  rewrite inject_Z_plus in H2. change (inject_Z 1) with 1 in H2.
  split; lra.
Qed.


Lemma fold_addTo_fresh (ids : list Z) :
  forall s,
    NoDup ids -> (forall a, In a ids -> ~ In a s) ->
    fold_left (fun s a => Server.addTo a s) ids s = s ++ ids.
Proof.
  induction ids as [|a ids IH]; intros s Hn Hs; simpl.
  - now rewrite app_nil_r.
  - inversion Hn; subst.
    assert (Ea : Server.addTo a s = s ++ [a]).
    { unfold Server.addTo. destruct (existsb _ s) eqn:E; auto.
      apply existsb_exists in E. destruct E as (b & Hb & Eb).
      apply Z.eqb_eq in Eb. subst b. exfalso. apply (Hs a); simpl; auto. }
    rewrite Ea, IH; auto.
    + now rewrite <- app_assoc.
    + intros b Hb Hin. apply in_app_or in Hin. destruct Hin as [Hin|[<-|[]]].
      * apply (Hs b); simpl; auto.
      * contradiction.
Qed.

Lemma remember_ids (game : Tiered.LayoutGame)
    (uniqueGames : list (Z * (string * string))) :
  map fst (remember game uniqueGames)
  = Server.addTo (appid (Tiered.lg_game game)) (map fst uniqueGames).
Proof.
  unfold remember, Server.addTo.
  assert (E : existsb (fun entry => (fst entry =? appid (Tiered.lg_game game))%Z)
                uniqueGames
              = existsb (Z.eqb (appid (Tiered.lg_game game))) (map fst uniqueGames)).
  { induction uniqueGames as [|e l IH]; simpl; auto.
    now rewrite IH, Z.eqb_sym. }
  rewrite E. destruct (existsb _ (map fst uniqueGames)); auto.
  now rewrite map_app.
Qed.

Lemma entriesOf_ids (layoutGames : list Tiered.LayoutGame) :
  map fst (entriesOf layoutGames)
  = Server.idsOnce (map (fun g => appid (Tiered.lg_game g)) layoutGames).
Proof.
  unfold entriesOf, Server.idsOnce.
  change (@nil Z) with (map fst (@nil (Z * (string * string)))).
  generalize (@nil (Z * (string * string))).
  induction layoutGames as [|g l IH]; intros m; simpl; auto.
  now rewrite IH, remember_ids.
Qed.

Lemma totalPlayMinutes_sum (initialGames : list SteamGame) :
  totalPlayMinutes initialGames = Server.totalPlaytime initialGames.
Proof.
  unfold totalPlayMinutes, Server.totalPlaytime.
  assert (H : forall l acc,
             fold_left (fun acc g => (acc + playtime_forever g)%Z) l acc
             = (acc + fold_right Z.add 0%Z (map playtime_forever l))%Z).
  { induction l as [|g l IH]; intros acc; simpl; [lia|]. rewrite IH. lia. }
  rewrite H. lia.
Qed.

End DrawFacts.

(** * The form: trimming, and the rows *)
Module FormFacts.
Import Js Form.

(** A string that does not begin with white space. *)
Lemma trimStart_fixed (s : str) :
  match s with c :: _ => isWhite c = false | [] => True end ->
  trimStart s = s.
Proof. destruct s as [|c s]; simpl; auto. intros ->. reflexivity. Qed.

Lemma trimStart_head (s : str) :
  match trimStart s with c :: _ => isWhite c = false | [] => True end.
Proof.
  induction s as [|c s IH]; simpl; auto.
  destruct (isWhite c) eqn:E; simpl; auto.
Qed.

Lemma trimStart_suffix (s : str) : exists p, s = p ++ trimStart s.
Proof.
  induction s as [|c s [p IH]]; simpl.
  - exists []. reflexivity.
  - destruct (isWhite c).
    + exists (c :: p). simpl. now rewrite <- IH.
    + exists []. reflexivity.
Qed.

Lemma trimEnd_prefix (s : str) : exists q, s = trimEnd s ++ q.
Proof.
  unfold trimEnd. destruct (trimStart_suffix (rev s)) as [p Hp].
  exists (rev p). rewrite <- rev_app_distr, <- Hp. now rewrite rev_involutive.
Qed.

Lemma trimEnd_head (s : str) :
  match s with c :: _ => isWhite c = false | [] => True end ->
  match trimEnd s with c :: _ => isWhite c = false | [] => True end.
Proof.
  intros H. destruct (trimEnd_prefix s) as [q Hq].
  destruct (trimEnd s) as [|c t]; auto.
  rewrite Hq in H. exact H.
Qed.

Lemma trim_ends (s : str) :
  match trim s with c :: _ => isWhite c = false | [] => True end /\
  match rev (trim s) with c :: _ => isWhite c = false | [] => True end.
Proof.
  unfold trim. split.
  - apply trimEnd_head, trimStart_head.
  - unfold trimEnd. rewrite rev_involutive. apply trimStart_head.
Qed.

Lemma trim_idempotent (s : str) : trim (trim s) = trim s.
Proof.
  destruct (trim_ends s) as [Hh Hl].
  unfold trim at 1. rewrite (trimStart_fixed _ Hh).
  unfold trimEnd. rewrite (trimStart_fixed _ Hl). apply rev_involutive.
Qed.

Lemma removeFrom_out (idx : nat) (accounts : list str) :
  forall i, (idx < i)%nat -> removeFrom i idx accounts = accounts.
Proof.
  induction accounts as [|a l IH]; intros i Hi; simpl; auto.
  replace (Nat.eqb i idx) with false by (symmetry; apply Nat.eqb_neq; lia).
  rewrite IH; auto.
Qed.

Lemma removeFrom_length (idx : nat) (accounts : list str) :
  forall i,
    (i <= idx < i + List.length accounts)%nat ->
    S (List.length (removeFrom i idx accounts)) = List.length accounts.
Proof.
  induction accounts as [|a l IH]; intros i Hi; simpl in *; [lia|].
  destruct (Nat.eqb i idx) eqn:E.
  - apply Nat.eqb_eq in E. subst idx. rewrite removeFrom_out; auto.
  - apply Nat.eqb_neq in E. simpl. rewrite IH; auto. lia.
Qed.

Lemma act_keeps_head (accounts : list str) (a : Action) :
  offered accounts a = true ->
  accounts <> [] ->
  act accounts a <> [] /\
  (forall idx, a = Remove idx ->
     S (List.length (act accounts a)) = List.length accounts /\
     hd [] (act accounts a) = hd [] accounts).
Proof.
  intros Ho Hne. destruct accounts as [|r rows]; [contradiction|].
  destruct a as [|idx|idx value]; simpl in *.
  - split; [discriminate|]. intros idx E. discriminate.
  - apply andb_prop in Ho. destruct Ho as [H0 Hlt].
    apply Nat.ltb_lt in H0, Hlt.
    unfold removeAccount. destruct idx as [|idx]; [lia|]. cbn [removeFrom Nat.eqb].
    split; [discriminate|]. intros idx' E.
    split; [|reflexivity]. simpl in *. rewrite removeFrom_length; auto; lia.
  - unfold updateAccount. simpl. split; [discriminate|].
    intros idx' E. discriminate.
Qed.

End FormFacts.

(** * Further properties *)

Lemma roundSqrt_mono (n n' d : Z) :
  0 < d -> n <= n' -> roundSqrt n d <= roundSqrt n' d.
Proof.
  intros Hd Hn. unfold roundSqrt, floorSqrt.
  apply Z.div_le_mono; [lia|]. apply Z.add_le_mono_r.
  apply Z.sqrt_le_mono. apply Z.div_le_mono; lia.
Qed.

(** The shelf loops end by themselves.  A turn of the inner [for (;;)]
    that goes on has taken an item out of [remainingAsc], and so has a turn
    of the [while] loop; a count of turns beyond the length of
    [remainingAsc] is never used up: with any more turns allowed the loops
    return the same state.  In a row, the items placed are the items taken
    out of [remainingAsc]. *)
Theorem shelf_loops_end
    (baseUnitWidth baseUnitHeight rectY rowHeight : Z) (more : nat)
    (r : Tiered.Row) (s : Tiered.Shelf) :
  Tiered.fillRow baseUnitWidth
    (S (List.length (Tiered.row_remaining r)) + more) rectY rowHeight r
  = Tiered.fillRow baseUnitWidth
      (S (List.length (Tiered.row_remaining r))) rectY rowHeight r /\
  Tiered.shelfLoop baseUnitWidth baseUnitHeight
    (S (List.length (Tiered.sh_remaining s)) + more) s
  = Tiered.shelfLoop baseUnitWidth baseUnitHeight
      (S (List.length (Tiered.sh_remaining s))) s /\
  (List.length
     (Tiered.row_remaining
        (Tiered.fillRow baseUnitWidth
           (S (List.length (Tiered.row_remaining r))) rectY rowHeight r))
   + Tiered.rowPlaced
       (Tiered.fillRow baseUnitWidth
          (S (List.length (Tiered.row_remaining r))) rectY rowHeight r)
   = List.length (Tiered.row_remaining r) + Tiered.rowPlaced r)%nat.
Proof.
  split; [apply TieredFacts.fillRow_fuel; lia|].
  split; [apply TieredFacts.shelfLoop_fuel; lia|].
  apply TieredFacts.fillRow_count.
Qed.

(** The canvas grows with the number of games: both sides, and so the
    area, are non-decreasing in [gameCount], and stay between 1080 by 1920
    and 4320 by 7680. *)
Theorem canvas_monotone (gameCount gameCount' : Z) :
  0 <= gameCount -> gameCount <= gameCount' ->
  fst (calculateCanvasDimensions gameCount)
    <= fst (calculateCanvasDimensions gameCount') /\
  snd (calculateCanvasDimensions gameCount)
    <= snd (calculateCanvasDimensions gameCount') /\
  fst (calculateCanvasDimensions gameCount)
    * snd (calculateCanvasDimensions gameCount)
    <= fst (calculateCanvasDimensions gameCount')
       * snd (calculateCanvasDimensions gameCount') /\
  1080 <= fst (calculateCanvasDimensions gameCount) <= 4320 /\
  1920 <= snd (calculateCanvasDimensions gameCount) <= 7680.
Proof.
  intros H0 Hle.
  assert (Hb : forall n,
             1080 <= fst (calculateCanvasDimensions n) <= 4320 /\
             1920 <= snd (calculateCanvasDimensions n) <= 7680).
  { intros n. unfold calculateCanvasDimensions.
    destruct (n =? 0); cbn [fst snd]; lia. }
  assert (Hm : fst (calculateCanvasDimensions gameCount)
                 <= fst (calculateCanvasDimensions gameCount') /\
               snd (calculateCanvasDimensions gameCount)
                 <= snd (calculateCanvasDimensions gameCount')).
  { unfold calculateCanvasDimensions.
    destruct (gameCount =? 0) eqn:E0.
    - destruct (gameCount' =? 0); cbn [fst snd]; lia.
    - apply Z.eqb_neq in E0.
      destruct (gameCount' =? 0) eqn:E0'; [apply Z.eqb_eq in E0'; lia|].
      cbv zeta. cbn [fst snd].
      set (a := 1080 * 1920 + (if 10 <? gameCount
                               then (gameCount - 10) * 50000 else 0)).
      set (a' := 1080 * 1920 + (if 10 <? gameCount'
                                then (gameCount' - 10) * 50000 else 0)).
      assert (Ha : a <= a').
      { unfold a, a'.
        destruct (10 <? gameCount) eqn:E1; destruct (10 <? gameCount') eqn:E2;
          try apply Z.ltb_lt in E1; try apply Z.ltb_lt in E2;
          try apply Z.ltb_ge in E1; try apply Z.ltb_ge in E2; lia. }
      pose proof (roundSqrt_mono (a * 9) (a' * 9) (16 * 10000)
                    ltac:(lia) ltac:(lia)).
      pose proof (roundSqrt_mono (a * 16) (a' * 16) (9 * 10000)
                    ltac:(lia) ltac:(lia)).
      lia. }
  destruct Hm as [Hw Hh].
  destruct (Hb gameCount) as [[Hw0 _] [Hh0 _]].
  repeat split; try apply Hb; auto.
  apply Z.mul_le_mono_nonneg; lia.
Qed.

Lemma canvas_monotone_witness :
  calculateCanvasDimensions 5 = (1100, 1920) /\
  calculateCanvasDimensions 50 = (1500, 2700) /\
  fst (calculateCanvasDimensions 5) * snd (calculateCanvasDimensions 5)
    <= fst (calculateCanvasDimensions 50) * snd (calculateCanvasDimensions 50).
Proof.
  split; [reflexivity|]. split; [reflexivity|].
  apply (canvas_monotone 5 50); lia.
Defined.

(** Games can be left out of the picture.  Of the eight games of
    [Scenario.library] five are drawn; the three of 1500 minutes, 440 by
    660 each, fit no void in either phase and stay in [remainingAsc]. *)
Theorem library_games_left_out :
  map (fun g => appid (Tiered.lg_game g))
    (Tiered.layoutGames Scenario.jitter Scenario.library Scenario.canvas)
  = [1; 5; 6; 7; 8] /\
  map appid (Tiered.droppedGames Scenario.jitter Scenario.library Scenario.canvas)
  = [3; 2; 4] /\
  map (fun it => (appid (Tiered.it_game it),
                  Tiered.it_width it, Tiered.it_height it))
    (Tiered.remainingAsc
       (Tiered.layoutFill Scenario.jitter Scenario.library Scenario.canvas))
  = [(3, 440, 660); (2, 440, 660); (4, 440, 660)].
Proof.
  split; [vm_compute; reflexivity|].
  split; vm_compute; reflexivity.
Qed.

(** ** The tiered packer *)

Lemma tiered_placeStep_taken (W : Z) (st : Tiered.Pack) (it : Tiered.Prepared) :
  exists s, subseq s [it] /\
    map Grid.drawnAs (Tiered.results (Tiered.placeStep W st it))
    = map Grid.drawnAs (Tiered.results st) ++ map Grid.toDraw s.
Proof.
  unfold Tiered.placeStep.
  destruct (Tiered.chooseBestRect _ _ _ _); cbn [Tiered.results].
  - exists [it]. split; [apply subseq_refl|]. now rewrite map_app.
  - exists []. split; [repeat constructor|]. simpl. now rewrite app_nil_r.
Qed.

Lemma tiered_fold_placeStep_taken (W : Z) (l : list Tiered.Prepared) :
  forall st, exists s, subseq s l /\
    map Grid.drawnAs (Tiered.results (fold_left (Tiered.placeStep W) l st))
    = map Grid.drawnAs (Tiered.results st) ++ map Grid.toDraw s.
Proof.
  induction l as [|it l IH]; intros st; simpl.
  - exists []. split; [constructor|]. simpl. now rewrite app_nil_r.
  - destruct (IH (Tiered.placeStep W st it)) as (s1 & H1 & E1).
    destruct (tiered_placeStep_taken W st it) as (s2 & H2 & E2).
    exists (s2 ++ s1). split.
    + change (it :: l) with ([it] ++ l). now apply subseq_app.
    + rewrite E1, E2. now rewrite map_app, app_assoc.
Qed.

(** An item too wide for the canvas, or too high for the part of the
    canvas below the header, is never drawn: when [layoutGames] returns it
    is still in [remainingAsc], and no rectangle of the result has its game
    and its sides. *)
Theorem oversized_left_out
    (W H bw bh : Z) (prepared : list Tiered.Prepared) (it : Tiered.Prepared) :
  Forall Tiered.positiveItem prepared ->
  In it prepared ->
  W < Tiered.it_width it \/
  Z.max 0 (H - Tiered.headerInfoHeight H) < Tiered.it_height it ->
  In (Grid.toDraw it)
     (map Grid.toDraw (Tiered.remainingAsc (Tiered.packPrepared W H bw bh prepared))) /\
  ~ In (Grid.toDraw it)
       (map Grid.drawnAs (Tiered.f_results (Tiered.packPrepared W H bw bh prepared))).
Proof.
  intros Hpos Hin Hbig.
  assert (Hno : ~ In (Grid.toDraw it)
                  (map Grid.drawnAs
                     (Tiered.f_results (Tiered.packPrepared W H bw bh prepared)))).
  { intros Hd. apply in_map_iff in Hd. destruct Hd as (g & Eg & Hg).
    pose proof (TieredFacts.packPrepared_tiling W H bw bh prepared Hpos)
      as (_ & Hins & _).
    simpl in Hins. rewrite Forall_forall in Hins.
    specialize (Hins (Tiered.rectOf g) (in_map _ _ _ Hg)).
    unfold Tiered.inside, Tiered.region, Tiered.rectOf in Hins.
    cbn [Tiered.x Tiered.y Tiered.width Tiered.height] in Hins.
    unfold Grid.drawnAs, Grid.toDraw in Eg. inversion Eg. lia. }
  split; auto.
  pose proof (GridFacts.packPrepared_drawn W H bw bh prepared) as Hp.
  assert (Hd : In (Grid.toDraw it) (map Grid.toDraw prepared))
    by now apply in_map.
  apply (Permutation_in _ (Permutation_sym Hp)) in Hd.
  apply in_app_or in Hd. tauto.
Qed.

Lemma oversized_left_out_witness :
  In (Grid.toDraw (Tiered.mkPrepared (mkGame 1 "one" 6000) 8 1200 1800 0))
     (map Grid.toDraw
        (Tiered.remainingAsc
           (Tiered.packPrepared 1100 1920 150 225
              [Tiered.mkPrepared (mkGame 2 "two" 700) 1 150 225 0;
               Tiered.mkPrepared (mkGame 1 "one" 6000) 8 1200 1800 0]))) /\
  ~ In (Grid.toDraw (Tiered.mkPrepared (mkGame 1 "one" 6000) 8 1200 1800 0))
       (map Grid.drawnAs
          (Tiered.f_results
             (Tiered.packPrepared 1100 1920 150 225
                [Tiered.mkPrepared (mkGame 2 "two" 700) 1 150 225 0;
                 Tiered.mkPrepared (mkGame 1 "one" 6000) 8 1200 1800 0]))).
Proof.
  apply oversized_left_out.
  - repeat constructor.
  - right. left. reflexivity.
  - left. reflexivity.
Defined.

(** Every rectangle the tiered packer returns is one of the sized items it
    was given, as it was given: it shows the game of the item, has the
    width and the height of the item, and its album URL is the one of the
    game's id.  The packer moves items; it does not resize them, and it
    makes up none. *)
Theorem tiles_show_their_game
    (W H bw bh : Z) (prepared : list Tiered.Prepared) :
  Forall
    (fun g =>
       exists it, In it prepared /\
         Tiered.lg_game g = Tiered.it_game it /\
         Tiered.lg_width g = Tiered.it_width it /\
         Tiered.lg_height g = Tiered.it_height it /\
         Tiered.albumUrl g = buildAlbumUrl (appid (Tiered.lg_game g)))
    (Tiered.f_results (Tiered.packPrepared W H bw bh prepared)).
Proof.
  apply Forall_forall. intros g Hg.
  pose proof (GridFacts.packPrepared_drawn W H bw bh prepared) as Hp.
  assert (Hd : In (Grid.drawnAs g) (map Grid.toDraw prepared)).
  { apply (Permutation_in _ Hp). apply in_or_app. left. now apply in_map. }
  apply in_map_iff in Hd. destruct Hd as (it & Eit & Hit).
  unfold Grid.drawnAs, Grid.toDraw in Eit.
  assert (E1 : Tiered.lg_game g = Tiered.it_game it) by congruence.
  assert (E2 : Tiered.lg_width g = Tiered.it_width it) by congruence.
  assert (E3 : Tiered.lg_height g = Tiered.it_height it) by congruence.
  assert (E4 : Tiered.albumUrl g = buildAlbumUrl (appid (Tiered.it_game it)))
    by congruence.
  exists it. rewrite E1. auto.
Qed.

(** The rectangles the tiered packer returns sit on one grid.  When the
    sides of every sized item are whole numbers of unit cells, as
    [mult * baseUnitWidth] and [mult * baseUnitHeight] are, every [x] is a
    whole number of unit widths, and every [y] is the header height plus a
    whole number of unit heights. *)
Theorem tiles_on_grid
    (W H baseUnitWidth baseUnitHeight : Z) (prepared : list Tiered.Prepared) :
  Forall (fun it => (baseUnitWidth | Tiered.it_width it) /\
                    (baseUnitHeight | Tiered.it_height it)) prepared ->
  Forall
    (fun g =>
       (baseUnitWidth | Tiered.lg_x g) /\
       (baseUnitHeight | Tiered.lg_y g - Tiered.headerInfoHeight H))
    (Tiered.f_results
       (Tiered.packPrepared W H baseUnitWidth baseUnitHeight prepared)).
Proof.
  intros Hc.
  apply (GridFacts.packPrepared_aligned W H baseUnitWidth baseUnitHeight
           baseUnitWidth baseUnitHeight prepared Hc).
Qed.

Lemma tiles_on_grid_witness :
  Forall
    (fun g => (110 | Tiered.lg_x g) /\ (165 | Tiered.lg_y g - 100))
    (Tiered.f_results
       (Tiered.packPrepared 1100 1920 110 165
          (Tiered.preparedOf Scenario.jitter Scenario.library Scenario.canvas))).
Proof.
  apply (tiles_on_grid 1100 1920 110 165
           (Tiered.preparedOf Scenario.jitter Scenario.library Scenario.canvas)).
  repeat constructor;
    match goal with
    | |- (_ | ?n) => exists (n / 110); vm_compute; reflexivity
    end || match goal with
    | |- (_ | ?n) => exists (n / 165); vm_compute; reflexivity
    end.
Defined.

(** [pruneFreeRects] takes out only rectangles that lie within one it
    keeps, adds none, and leaves no rectangle that lies within another. *)
Theorem prune_keeps_cover (st : Tiered.Store) :
  Grid.noneContained (Tiered.freeRects (Tiered.pruneFreeRects st)) /\
  (forall a, In a (Tiered.freeRects st) ->
     exists b, In b (Tiered.freeRects (Tiered.pruneFreeRects st)) /\
               Tiered.contains (Tiered.shape b) (Tiered.shape a) = true) /\
  subPerm (Tiered.freeRects (Tiered.pruneFreeRects st)) (Tiered.freeRects st).
Proof.
  split; [|split].
  - apply PruneFacts.pruneLoop_noneContained.
    intros k1 a k2 E. destruct k1; discriminate.
  - intros a Ha. apply PruneFacts.pruneLoop_covers.
    exists a. split; auto. apply PruneFacts.contains_refl.
  - apply TieredFacts.pruneFreeRects_subPerm.
Qed.

(** The jitter reorders items of one tier only.  With [rnd] between 0 and
    1, as the absolute value of a sine is, the first phase takes the items
    in order of non-increasing multiplier, and draws them in that order. *)
Theorem jitter_keeps_tiers (W H : Z) (prepared : list Tiered.Prepared) :
  Forall (fun it => (0 <= Tiered.it_rnd it <= 1)%Q) prepared ->
  StronglySorted (fun a b => Tiered.it_mult b <= Tiered.it_mult a)
    (sortBy Tiered.byJitteredMult prepared) /\
  exists drawn,
    subseq drawn (sortBy Tiered.byJitteredMult prepared) /\
    map Grid.drawnAs (Tiered.results (Tiered.phase1 W H prepared))
    = map Grid.toDraw drawn.
Proof.
  intros Hr. split.
  - eapply StronglySorted_refine;
      [|eapply Permutation_Forall; [symmetry; apply sortBy_Permutation|exact Hr]
       |apply OrderFacts.byJitteredMult_sorted].
    intros a b Ha Hb. now apply OrderFacts.jitterKey_tiers.
  - unfold Tiered.phase1.
    destruct (tiered_fold_placeStep_taken W (sortBy Tiered.byJitteredMult prepared)
                (Tiered.mkPack (Tiered.initialStore W H) [] [])) as (s & Hs & E).
    exists s. split; auto.
Qed.

Lemma jitter_keeps_tiers_witness :
  StronglySorted (fun a b => Tiered.it_mult b <= Tiered.it_mult a)
    (sortBy Tiered.byJitteredMult
       (Tiered.preparedOf Scenario.jitter Scenario.library Scenario.canvas)) /\
  exists drawn,
    subseq drawn
      (sortBy Tiered.byJitteredMult
         (Tiered.preparedOf Scenario.jitter Scenario.library Scenario.canvas)) /\
    map Grid.drawnAs
      (Tiered.results
         (Tiered.phase1 1100 1920
            (Tiered.preparedOf Scenario.jitter Scenario.library Scenario.canvas)))
    = map Grid.toDraw drawn.
Proof.
  apply jitter_keeps_tiers.
  repeat constructor; vm_compute; discriminate.
Defined.

(** ** The naive packer *)

(** The placement loop of the naive version returns the games in the order
    it is handed them, which is the order the sort left, and leaves out
    those it found no rectangle for: it returns no game twice and none it
    was not given, whatever the sizes are, [NaN] included.  So the list
    [layoutGames] returns holds games of the input, each with the size the
    formula gives it, and none more often than the input does. *)
Theorem naive_keeps_order
    (items : list NaiveD.SizedGame) (LAYOUT_WIDTH LAYOUT_HEIGHT : Doubles.float)
    (initialGames : list SteamGame) (canvasDimensions : Z * Z) :
  subseq
    (map NaiveD.lg_item
       (NaiveD.results (NaiveD.packLoop items LAYOUT_WIDTH LAYOUT_HEIGHT)))
    items /\
  subPerm (map NaiveD.lg_item (NaiveD.layoutGames initialGames canvasDimensions))
    (map NaiveD.sizeOf initialGames).
Proof.
  assert (Hs : forall l W H,
             subseq (map NaiveD.lg_item (NaiveD.results (NaiveD.packLoop l W H))) l).
  { intros l W H. unfold NaiveD.packLoop.
    match goal with |- context [fold_left _ ?l ?st] =>
      destruct (OrderFacts.fold_placeStep_taken l st) as (s & Hs & E) end.
    rewrite E. exact Hs. }
  split; [apply Hs|].
  unfold NaiveD.layoutGames. destruct initialGames as [|g0 games].
  - apply subPerm_nil.
  - eapply subPerm_trans; [apply subseq_subPerm, Hs|].
    apply subPerm_perm. symmetry. apply sortBy_Permutation.
Qed.

(** ** The first rectangle *)

(** The item a packer takes first goes to the top-left corner of the free
    area when it fits there: to [(0, headerInfoHeight)] in the tiered
    version, to [(0, 0)] in the naive one, and it is the first rectangle of
    the list returned. *)
Theorem first_in_the_corner
    (W H bw bh : Z) (prepared : list Tiered.Prepared)
    (it0 : Tiered.Prepared) (later : list Tiered.Prepared)
    (sized : list Naive.SizedGame) (canvas : Q * Q)
    (g0 : Naive.SizedGame) (glater : list Naive.SizedGame) :
  sortBy Tiered.byJitteredMult prepared = it0 :: later ->
  Tiered.it_width it0 <= W ->
  Tiered.it_height it0 <= H - Tiered.headerInfoHeight H ->
  sortBy Naive.byHeightDesc sized = g0 :: glater ->
  Naive.fits g0 (Naive.canvasRect (fst canvas) (snd canvas)) = true ->
  (exists rest,
     Tiered.f_results (Tiered.packPrepared W H bw bh prepared)
     = Tiered.place it0 0 (Tiered.headerInfoHeight H) :: rest) /\
  (exists rest,
     Naive.layoutSized sized canvas = Naive.mkLayout g0 0 0 :: rest).
Proof.
  intros Es Hw Hh Eg Hfit. split.
  - destruct (OrderFacts.packPrepared_grows W H bw bh prepared) as [t1 E1].
    rewrite E1. unfold Tiered.phase1. rewrite Es. cbn [fold_left].
    match goal with |- context [fold_left _ later ?st] =>
      destruct (OrderFacts.fold_placeStep_grows W later st) as [t2 E2] end.
    rewrite E2. unfold Tiered.placeStep at 1. cbn [Tiered.store].
    rewrite (OrderFacts.chooseBestRect_initial W H) by assumption.
    cbn [Tiered.results Tiered.shape Tiered.x Tiered.y app].
    eauto.
  - rewrite layoutSized_results. unfold Naive.packSized. rewrite Eg.
    cbn [fold_left].
    match goal with |- context [fold_left _ glater ?st] =>
      destruct (OrderFacts.naive_fold_placeStep_grows glater st) as [t E] end.
    rewrite E. unfold Naive.placeStep at 1. cbn [Naive.freeRects Naive.scan].
    unfold Naive.canvasRect in Hfit. rewrite Hfit.
    cbn [Naive.results Naive.bestNodeOf Naive.x Naive.y app]. eauto.
Qed.

Lemma first_in_the_corner_witness :
  (exists rest,
     Tiered.f_results
       (Tiered.packPrepared 1100 1920 110 165
          (Tiered.preparedOf Scenario.jitter Scenario.library Scenario.canvas))
     = Tiered.place
         (Tiered.mkPrepared (mkGame 1 "one" 6000) 8 880 1320 (Scenario.jitter 1))
         0 (Tiered.headerInfoHeight 1920) :: rest) /\
  (exists rest,
     Naive.layoutSized Scenario.shelf Scenario.shelfCanvas
     = Naive.mkLayout (Scenario.sized 1 370) 0 0 :: rest).
Proof.
  apply (first_in_the_corner 1100 1920 110 165
           (Tiered.preparedOf Scenario.jitter Scenario.library Scenario.canvas)
           (Tiered.mkPrepared (mkGame 1 "one" 6000) 8 880 1320 (Scenario.jitter 1))
           (tl (sortBy Tiered.byJitteredMult
                  (Tiered.preparedOf Scenario.jitter Scenario.library Scenario.canvas)))
           Scenario.shelf Scenario.shelfCanvas
           (Scenario.sized 1 370)
           (tl (sortBy Naive.byHeightDesc Scenario.shelf))).
  - vm_compute. reflexivity.
  - vm_compute. discriminate.
  - vm_compute. discriminate.
  - vm_compute. reflexivity.
  - vm_compute. reflexivity.
Defined.

(** ** The server: the merged library *)

(** The libraries of several accounts are merged into one list that holds
    every game id once, in the order the ids first come up. *)
Theorem library_ids_once
    (results : list Server.Settled) (idx : nat)
    (resolvedPairs : list Server.Resolved) :
  map appid (fst (Server.collect results idx resolvedPairs [] []))
  = Server.idsOnce (map appid (Server.fulfilledGames results)) /\
  NoDup (map appid (fst (Server.collect results idx resolvedPairs [] []))) /\
  (forall id,
     In id (map appid (fst (Server.collect results idx resolvedPairs [] [])))
     <-> In id (map appid (Server.fulfilledGames results))).
Proof.
  rewrite ServerFacts.collect_games.
  destruct (ServerFacts.absorbAll_spec (Server.fulfilledGames results) [])
    as (Hids & _ & _).
  simpl in Hids. split; [exact Hids|]. split.
  - rewrite Hids. apply ServerFacts.fold_addTo_NoDup. constructor.
  - intros id. rewrite Hids, ServerFacts.fold_addTo_In. simpl. tauto.
Qed.

(** In the merged list the playtime of a game is the sum of its playtimes
    over the accounts, its name is the one the first account gave, and the
    playtimes of the list add up to those of all the accounts. *)
Theorem library_playtime_summed
    (results : list Server.Settled) (idx : nat)
    (resolvedPairs : list Server.Resolved) (id : Z) :
  Server.playtimeOf id (fst (Server.collect results idx resolvedPairs [] []))
  = Server.playtimeOf id (Server.fulfilledGames results) /\
  Server.nameOf id (fst (Server.collect results idx resolvedPairs [] []))
  = Server.nameOf id (Server.fulfilledGames results) /\
  Server.totalPlaytime (fst (Server.collect results idx resolvedPairs [] []))
  = Server.totalPlaytime (Server.fulfilledGames results).
Proof.
  rewrite ServerFacts.collect_games.
  destruct (ServerFacts.absorbAll_spec (Server.fulfilledGames results) [])
    as (_ & Hid & Htot).
  destruct (Hid id). auto.
Qed.

(** An account whose request failed changes nothing in the merged list:
    it is the list the other accounts alone would give.  Each such account
    adds one message to [fetchErrors]. *)
Theorem failed_accounts_harmless
    (results : list Server.Settled) (idx idx' : nat)
    (resolvedPairs resolvedPairs' : list Server.Resolved) :
  fst (Server.collect results idx resolvedPairs [] [])
  = fst (Server.collect
           (filter (fun res => match res with
                               | Server.Fulfilled _ => true
                               | Server.Rejected _ => false
                               end) results)
           idx' resolvedPairs' [] []) /\
  List.length (snd (Server.collect results idx resolvedPairs [] []))
  = List.length (filter (fun res => match res with
                                    | Server.Rejected _ => true
                                    | Server.Fulfilled _ => false
                                    end) results).
Proof.
  split.
  - rewrite !ServerFacts.collect_games. now rewrite PropsFacts.fulfilledGames_filter.
  - rewrite ServerFacts.collect_errors. reflexivity.
Qed.

(** ** The server: the props *)

(** The page is never left without an explanation.  Without a query the
    props carry no games and no error; with a query, whenever no game
    comes out, [error] is a non-empty message. *)
Theorem props_never_silent
    (resolution : nat -> Server.Resolution) (fetched : nat -> Server.Fetched)
    (profile : option Server.Profile) (ok : nat -> bool)
    (rawSteamId rawApiKey : Server.QueryValue) (props : Server.Props) :
  Server.getServerSideProps resolution fetched profile ok rawSteamId rawApiKey
  = Some props ->
  (Server.asList rawSteamId = [] \/ Server.asList rawApiKey = [] ->
   Server.initialGames props = [] /\ Server.error props = None) /\
  (Server.asList rawSteamId <> [] -> Server.asList rawApiKey <> [] ->
   Server.initialGames props = [] ->
   exists e, Server.error props = Some e /\ Js.truthy e = true).
Proof.
  intros E.
  assert (E' := E). apply PropsFacts.getServerSideProps_cases in E'.
  destruct E' as (_ & [(Hg & _ & _ & [[Hq He]|(Hs & Hk & He)])
                      |(rps & errs & Hr & Hne & Hg & Hgne & _)]).
  - split; auto. intros Hs Hk. tauto.
  - split; auto. tauto.
  - split.
    + intros Hq. exfalso. apply Hgne.
      unfold Server.getServerSideProps in E. cbv zeta in E.
      destruct Hq as [Hq|Hq]; rewrite Hq in E; simpl in E;
        [|rewrite orb_true_r in E]; inversion E; reflexivity.
    + intros _ _ Hnil. congruence.
Qed.

Lemma props_never_silent_witness :
  exists props,
    Server.getServerSideProps
      (fun _ => Server.ResolvedTo None)
      (fun _ => Server.FetchGave None) None (fun _ => false)
      (Server.One (Js.lit "nobody")) (Server.One (Js.lit "KEY"))
    = Some props /\
    Server.initialGames props = [] /\
    exists e, Server.error props = Some e /\ Js.truthy e = true.
Proof.
  eexists. split; [vm_compute; reflexivity|]. split; [reflexivity|].
  refine (proj2 (props_never_silent
                   (fun _ => Server.ResolvedTo None)
                   (fun _ => Server.FetchGave None) None (fun _ => false)
                   (Server.One (Js.lit "nobody")) (Server.One (Js.lit "KEY"))
                   _ _) _ _ _).
  - vm_compute. reflexivity.
  - discriminate.
  - discriminate.
  - reflexivity.
Defined.

(** The games of the props have distinct ids.  The ids in [goldAppids]
    are distinct, are ids of games of the props, at most 50 of them, and
    each had a check that came back true. *)
Theorem props_games_and_gold
    (resolution : nat -> Server.Resolution) (fetched : nat -> Server.Fetched)
    (profile : option Server.Profile) (ok : nat -> bool)
    (rawSteamId rawApiKey : Server.QueryValue) (props : Server.Props) :
  Server.getServerSideProps resolution fetched profile ok rawSteamId rawApiKey
  = Some props ->
  NoDup (map appid (Server.initialGames props)) /\
  NoDup (Server.goldAppids props) /\
  incl (Server.goldAppids props) (map appid (Server.initialGames props)) /\
  (List.length (Server.goldAppids props) <= 50)%nat /\
  (forall id, In id (Server.goldAppids props) -> exists k, ok k = true).
Proof.
  intros E. apply PropsFacts.getServerSideProps_cases in E.
  destruct E as (_ & [(Hg & Hgold & _)
                     |(rps & errs & Hr & Hne & Hg & Hgne & Hgold & _)]).
  - rewrite Hg, Hgold. repeat split; try constructor; simpl; try lia;
      intros ? [].
  - assert (Hd : NoDup (map appid (Server.initialGames props))).
    { rewrite Hg, ServerFacts.collect_games.
      destruct (ServerFacts.absorbAll_spec
                  (Server.fulfilledGames
                     (Server.mapi (fun _ idx => Server.fetchOwned (fetched idx))
                        0 rps)) []) as (Hids & _).
      rewrite Hids. apply ServerFacts.fold_addTo_NoDup. constructor. }
    unfold Server.goldAppidsOf in Hgold. cbv zeta in Hgold.
    set (games := Server.initialGames props) in *.
    set (tasks := Server.tasksOf games rps) in *.
    destruct (GoldFacts.goldLoop_keeps ok tasks (Server.MAX_REQUESTS games rps)
                (S (List.length tasks)) (Server.mkGold 0 0 [] []))
      as (_ & _ & Hnd & Hall);
      [simpl; lia|simpl; lia|constructor|constructor|].
    rewrite <- Hgold in Hnd, Hall. rewrite Forall_forall in Hall.
    assert (Htop : incl (Server.goldAppids props)
                     (map appid (Server.topGames games))).
    { intros a Ha. destruct (Hall a Ha) as (k & rp & Hin & _).
      apply GoldFacts.tasksOf_ids in Hin. destruct Hin as (g & Hgin & <-).
      now apply in_map. }
    split; [exact Hd|]. split; [exact Hnd|]. split; [|split].
    + intros a Ha. apply Htop in Ha. apply in_map_iff in Ha.
      destruct Ha as (g & <- & Hgin). apply in_map.
      now apply GoldFacts.topGames_incl.
    + etransitivity; [apply (NoDup_incl_length Hnd Htop)|].
      rewrite length_map. unfold Server.topGames. rewrite length_firstn.
      unfold Server.LIMIT. lia.
    + intros a Ha. destruct (Hall a Ha) as (k & _ & _ & Hok). eauto.
Qed.

Lemma props_games_and_gold_witness :
  exists props,
    Server.getServerSideProps
      (fun _ => Server.ResolvedTo (Some (Js.lit "76561198000000000")))
      (fun _ =>
         Server.FetchGave
           (Some [Server.mkRaw 10 "ten" (Some 700);
                  Server.mkRaw 20 "twenty" None;
                  Server.mkRaw 10 "ten again" (Some 300)]))
      None (fun k => Nat.eqb k 0)
      (Server.One (Js.lit "76561198000000000")) (Server.One (Js.lit "KEY"))
    = Some props /\
    Server.initialGames props = [mkGame 10 "ten" 1000; mkGame 20 "twenty" 0] /\
    Server.goldAppids props = [10] /\
    NoDup (map appid (Server.initialGames props)) /\
    NoDup (Server.goldAppids props) /\
    incl (Server.goldAppids props) (map appid (Server.initialGames props)) /\
    (List.length (Server.goldAppids props) <= 50)%nat /\
    (forall id, In id (Server.goldAppids props) ->
       exists k, Nat.eqb k 0 = true).
Proof.
  eexists. split; [vm_compute; reflexivity|].
  split; [reflexivity|]. split; [reflexivity|].
  refine (props_games_and_gold
            (fun _ => Server.ResolvedTo (Some (Js.lit "76561198000000000")))
            (fun _ =>
               Server.FetchGave
                 (Some [Server.mkRaw 10 "ten" (Some 700);
                        Server.mkRaw 20 "twenty" None;
                        Server.mkRaw 10 "ten again" (Some 300)]))
            None (fun k => Nat.eqb k 0)
            (Server.One (Js.lit "76561198000000000")) (Server.One (Js.lit "KEY"))
            _ _).
  vm_compute. reflexivity.
Defined.

(** The achievement checks are bounded: the loop issues at most
    [MAX_REQUESTS + CONCURRENCY - 1] requests, so never more than 205, and
    never more than there are tasks; it ends by itself, within one turn per
    task. *)
Theorem achievement_requests_bounded
    (ok : nat -> bool) (aggregatedGames : list SteamGame)
    (resolvedPairs : list Server.Resolved) (more : nat) :
  (Server.issued (Server.goldAppidsOf ok aggregatedGames resolvedPairs)
   <= Server.MAX_REQUESTS aggregatedGames resolvedPairs + 5)%nat /\
  (Server.issued (Server.goldAppidsOf ok aggregatedGames resolvedPairs)
   <= 205)%nat /\
  (Server.issued (Server.goldAppidsOf ok aggregatedGames resolvedPairs)
   <= Server.LIMIT aggregatedGames * List.length resolvedPairs)%nat /\
  Server.goldLoop ok (Server.tasksOf aggregatedGames resolvedPairs)
    (Server.MAX_REQUESTS aggregatedGames resolvedPairs)
    (S (List.length (Server.tasksOf aggregatedGames resolvedPairs)) + more)
    (Server.mkGold 0 0 [] [])
  = Server.goldAppidsOf ok aggregatedGames resolvedPairs.
Proof.
  unfold Server.goldAppidsOf. cbv zeta.
  set (tasks := Server.tasksOf aggregatedGames resolvedPairs).
  destruct (GoldFacts.goldLoop_keeps ok tasks
              (Server.MAX_REQUESTS aggregatedGames resolvedPairs)
              (S (List.length tasks)) (Server.mkGold 0 0 [] []))
    as (H1 & H2 & _); [simpl; lia|simpl; lia|constructor|constructor|].
  cbv zeta in H1, H2. unfold Server.CONCURRENCY in H1.
  repeat split.
  - lia.
  - assert (Hmax : (Server.MAX_REQUESTS aggregatedGames resolvedPairs <= 200)%nat)
      by (unfold Server.MAX_REQUESTS; lia).
    lia.
  - rewrite <- (GoldFacts.tasksOf_length aggregatedGames resolvedPairs).
    exact H2.
  - apply GoldFacts.goldLoop_fuel; simpl; lia.
Qed.

(** The form is filled in again with what was asked: [initialAccounts] has
    the ids of the query, in order, and when the query has one key, every
    account carries it. *)
Theorem accounts_echoed
    (resolution : nat -> Server.Resolution) (fetched : nat -> Server.Fetched)
    (profile : option Server.Profile) (ok : nat -> bool)
    (rawSteamId rawApiKey : Server.QueryValue) (props : Server.Props) :
  Server.getServerSideProps resolution fetched profile ok rawSteamId rawApiKey
  = Some props ->
  map Server.acc_steamId (Server.initialAccounts props)
  = Server.asList rawSteamId /\
  (forall key, rawApiKey = Server.One key ->
     Forall (fun a => Server.acc_apiKey a = key) (Server.initialAccounts props)).
Proof.
  intros E. apply PropsFacts.getServerSideProps_cases in E.
  destruct E as (-> & _). unfold Server.initialAccountsOf. split.
  - rewrite (PropsFacts.mapi_map _ _ (fun id => id)); [apply map_id|].
    intros a idx. simpl. apply PropsFacts.orStr_nil.
  - intros key ->. apply PropsFacts.mapi_Forall. intros a idx. simpl.
    unfold Server.keyFor. rewrite PropsFacts.orStr_nil.
    destruct idx as [|[|idx]]; simpl; try apply PropsFacts.orStr_same;
      destruct key; reflexivity.
Qed.

Lemma accounts_echoed_witness :
  exists props,
    Server.getServerSideProps
      (fun _ => Server.ResolvedTo None)
      (fun _ => Server.FetchGave None) None (fun _ => false)
      (Server.Many [Js.lit "one"; Js.lit "two"]) (Server.One (Js.lit "KEY"))
    = Some props /\
    map Server.acc_steamId (Server.initialAccounts props)
    = [Js.lit "one"; Js.lit "two"] /\
    Forall (fun a => Server.acc_apiKey a = Js.lit "KEY")
           (Server.initialAccounts props).
Proof.
  eexists. split; [vm_compute; reflexivity|].
  destruct (accounts_echoed
              (fun _ => Server.ResolvedTo None)
              (fun _ => Server.FetchGave None) None (fun _ => false)
              (Server.Many [Js.lit "one"; Js.lit "two"])
              (Server.One (Js.lit "KEY")) _ eq_refl) as [H1 H2].
  split; [exact H1|]. apply H2. reflexivity.
Defined.

(** ** The requests *)

(** [fetchJsonWithRetry] is decided by the first turn that does not fail
    with a passing error.  When the turns before turn [k] all failed with
    an error whose message holds one of the six markers, a body parsed at
    turn [k] is returned, and an error at turn [k] is thrown when its
    message holds no marker or [k] is the last turn; either way [k + 1]
    requests were made and [k] waits. *)
Theorem retry_first_decisive
    (J : Type) (attemptAt : Z -> Retry.Attempt J) (retries k : Z) :
  0 <= k <= retries ->
  (forall i, 0 <= i < k -> Retry.transientAt J attemptAt i) ->
  (forall json, attemptAt k = Retry.Body J json ->
     Retry.fetchJsonWithRetry J attemptAt retries
     = Retry.mkRun J (Retry.Returned J json) (S (Z.to_nat k)) (Z.to_nat k)) /\
  (forall e, Retry.caught J (attemptAt k) = Some e ->
     Retry.isTransient (Retry.messageOf e) = false \/ k = retries ->
     Retry.fetchJsonWithRetry J attemptAt retries
     = Retry.mkRun J (Retry.Thrown J e) (S (Z.to_nat k)) (Z.to_nat k)).
Proof.
  intros Hk Ht. unfold Retry.fetchJsonWithRetry.
  destruct (RetryFacts.loop_first_decisive J attemptAt retries k (proj2 Hk)
              (S (Z.to_nat (retries + 1))) 0 None 0%nat 0%nat) as [H1 H2];
    [lia|lia|intros i Hi; apply Ht; lia|].
  replace (k - 0) with k in * by lia. cbn [Nat.add] in H1, H2. auto.
Qed.

Lemma retry_first_decisive_witness :
  Retry.fetchJsonWithRetry nat
    (fun i => if i =? 0 then Retry.Threw nat (Some (Js.lit "read ECONNRESET"))
              else Retry.Body nat 7%nat) 2
  = Retry.mkRun nat (Retry.Returned nat 7%nat) 2 1.
Proof.
  refine (proj1 (retry_first_decisive nat
                   (fun i => if i =? 0
                             then Retry.Threw nat (Some (Js.lit "read ECONNRESET"))
                             else Retry.Body nat 7%nat) 2 1 _ _) 7%nat _).
  - lia.
  - intros i Hi. replace i with 0 by lia.
    exists (Some (Js.lit "read ECONNRESET")). split; vm_compute; reflexivity.
  - reflexivity.
Defined.

(** [fetchJsonWithRetry] makes at most [retries + 1] requests and waits
    once between two of them; what it returns is the body of the last
    request it made, what it throws the error of that request.  With a
    negative [retries] it makes no request and throws [null]. *)
Theorem retry_bounded
    (J : Type) (attemptAt : Z -> Retry.Attempt J) (retries : Z) :
  (0 <= retries ->
   exists k, 0 <= k <= retries /\
     Retry.fetches J (Retry.fetchJsonWithRetry J attemptAt retries)
     = S (Z.to_nat k) /\
     Retry.sleeps J (Retry.fetchJsonWithRetry J attemptAt retries)
     = Z.to_nat k /\
     ((exists json, attemptAt k = Retry.Body J json /\
         Retry.outcome J (Retry.fetchJsonWithRetry J attemptAt retries)
         = Retry.Returned J json) \/
      (exists e, Retry.caught J (attemptAt k) = Some e /\
         Retry.outcome J (Retry.fetchJsonWithRetry J attemptAt retries)
         = Retry.Thrown J e))) /\
  (retries < 0 ->
   Retry.fetchJsonWithRetry J attemptAt retries
   = Retry.mkRun J (Retry.ThrownNull J) 0 0).
Proof.
  split.
  - intros Hr.
    destruct (RetryFacts.loop_decisive_exists J attemptAt retries
                (Z.to_nat retries) 0) as (k & Hk & Ht & Hd); [lia|f_equal; lia|].
    exists k. split; [lia|]. unfold Retry.fetchJsonWithRetry.
    destruct (RetryFacts.loop_first_decisive J attemptAt retries k (proj2 Hk)
                (S (Z.to_nat (retries + 1))) 0 None 0%nat 0%nat) as [H1 H2];
      [lia|lia|exact Ht|].
    replace (k - 0) with k in * by lia. cbn [Nat.add] in H1, H2.
    destruct Hd as [[json Hj]|(e & Hc & Hd)].
    + rewrite (H1 json Hj). simpl. repeat split; auto. left. eauto.
    + rewrite (H2 e Hc Hd). simpl. repeat split; auto. right. eauto.
  - intros Hr. unfold Retry.fetchJsonWithRetry.
    replace (Z.to_nat (retries + 1)) with 0%nat by lia.
    cbn [Retry.loop].
    replace (0 <=? retries) with false by (symmetry; apply Z.leb_gt; lia).
    reflexivity.
Qed.

(** ** Resolving an account *)

Lemma digits17_allDigits (s : Js.str) :
  Server.digits17 s = true -> Js.allDigits s = true.
Proof.
  unfold Server.digits17, Js.allDigits. intros H.
  apply andb_prop in H. destruct H as [Hl Hd]. rewrite Hd.
  destruct s; [discriminate|reflexivity].
Qed.

Lemma allDigits_no_url (s : Js.str) :
  Js.allDigits s = true -> Server.urlMatch s = None.
Proof.
  unfold Js.allDigits. intros H. apply andb_prop in H. destruct H as [Ht Hd].
  destruct s as [|c s]; [discriminate|]. simpl in Hd.
  apply andb_prop in Hd. destruct Hd as [Hc _].
  unfold Js.isDigit in Hc. apply andb_prop in Hc. destruct Hc as [_ Hc].
  apply N.leb_le in Hc.
  unfold Server.urlMatch. cbn [Js.lit list_ascii_of_string map Server.stripPrefix].
  replace (N_of_ascii "h" =? c)%N with false; [reflexivity|].
  symmetry. apply N.eqb_neq. intros <-. vm_compute in Hc. now apply Hc.
Qed.

(** Whatever [resolveOne] resolves an input to is a string of decimal
    digits, and not the empty one. *)
Theorem resolved_ids_are_numbers
    (decodeURIComponent encodeURIComponent : Js.str -> option Js.str)
    (lookup : Js.str -> Server.Lookup) (input apiKeyParam id : Js.str) :
  Server.resolveOne decodeURIComponent encodeURIComponent lookup input apiKeyParam
  = Server.ResolvedTo (Some id) ->
  Js.allDigits id = true.
Proof.
  assert (Hv : forall key value,
             Server.viaVanity encodeURIComponent lookup key value
             = Server.ResolvedTo (Some id) ->
             Js.allDigits id = true).
  { unfold Server.viaVanity. intros key value.
    destruct (Server.vanityEndpoint _ _ _); [|discriminate].
    unfold Server.readVanity.
    destruct (lookup s) as [|[|] [m|]]; try discriminate.
    destruct (Js.allDigits m) eqn:E; try discriminate.
    intros H. inversion H; subst. exact E. }
  unfold Server.resolveOne.
  destruct (Server.urlMatch input) as [[kind group]|].
  - destruct (decodeURIComponent group) as [value|]; [|discriminate].
    destruct kind; [apply Hv|].
    destruct (Server.digits17 value) eqn:E; [|discriminate].
    intros H. inversion H; subst. now apply digits17_allDigits.
  - destruct (Server.digits17 input) eqn:E.
    + intros H. inversion H; subst. now apply digits17_allDigits.
    + destruct (Js.allDigits input) eqn:E'; [|apply Hv].
      intros H. inversion H; subst. exact E'.
Qed.

Lemma resolved_ids_are_numbers_witness :
  Js.allDigits (Js.lit "76561198000000000") = true.
Proof.
  apply (resolved_ids_are_numbers
           (fun s => Some s) (fun s => Some s)
           (fun _ => Server.LookupSaid true (Some (Js.lit "76561198000000000")))
           (Js.lit "https://steamcommunity.com/id/somebody/")
           (Js.lit "KEY")).
  vm_compute. reflexivity.
Defined.

(** An input that is a string of decimal digits resolves to itself, and a
    link to [/profiles/...] resolves by what it holds alone: in both cases
    whatever the vanity request would give plays no part, and none is
    made. *)
Theorem numbers_need_no_request
    (decodeURIComponent encodeURIComponent : Js.str -> option Js.str)
    (lookup lookup' : Js.str -> Server.Lookup) (input apiKeyParam : Js.str) :
  (Js.allDigits input = true ->
   Server.resolveOne decodeURIComponent encodeURIComponent lookup input apiKeyParam
   = Server.ResolvedTo (Some input)) /\
  (forall group,
     Server.urlMatch input = Some (Server.KindProfiles, group) ->
     Server.resolveOne decodeURIComponent encodeURIComponent lookup input
       apiKeyParam
     = Server.resolveOne decodeURIComponent encodeURIComponent lookup' input
         apiKeyParam /\
     Server.resolveOne decodeURIComponent encodeURIComponent lookup input
       apiKeyParam
     = match decodeURIComponent group with
       | None => Server.ResolveThrows
       | Some value =>
           Server.ResolvedTo
             (if Server.digits17 value then Some value else None)
       end).
Proof.
  split.
  - intros H. unfold Server.resolveOne. rewrite (allDigits_no_url input H), H.
    destruct (Server.digits17 input); reflexivity.
  - intros group E. unfold Server.resolveOne. rewrite E. split; reflexivity.
Qed.

(** ** The drawing *)



(** The badge shows from 29970 minutes on, that is from 499.5 hours.  It
    never crosses the right or the bottom margin of its cell, and when the
    cell has room for it between the margins it lies within them on every
    side.  Its font size is between 12 and 24, its padding between 4 and
    12, and the margin is 4 at least. *)
Theorem badge_in_tile (playtime_forever : Z) (x y cellW cellH : Q) (textW : Z) :
  (Draw.showsBadge playtime_forever = true <-> 29970 <= playtime_forever) /\
  (let b := Draw.badge x y cellW cellH textW in
   (Draw.bx b + inject_Z (Draw.badgeW b)
    <= x + cellW - inject_Z (Draw.margin b))%Q /\
   (Draw.by_ b + inject_Z (Draw.badgeH b)
    <= y + cellH - inject_Z (Draw.margin b))%Q /\
   ((inject_Z (Draw.badgeW b) + 2 * inject_Z (Draw.margin b) <= cellW)%Q ->
    (x + inject_Z (Draw.margin b) <= Draw.bx b)%Q) /\
   ((inject_Z (Draw.badgeH b) + 2 * inject_Z (Draw.margin b) <= cellH)%Q ->
    (y + inject_Z (Draw.margin b) <= Draw.by_ b)%Q) /\
   12 <= Draw.fontSize b <= 24 /\ 4 <= Draw.padding b <= 12 /\
   4 <= Draw.margin b /\
   Draw.badgeW b = textW + 2 * Draw.padding b).
Proof.
  split.
  - unfold Draw.showsBadge, Draw.hoursOf, jsRound. rewrite Z.leb_le. split.
    + intros H.
      assert (H1 := Qfloor_le (inject_Z playtime_forever / 60 + (1 # 2))).
      assert (H2 : (inject_Z 500
                    <= inject_Z (Qfloor (inject_Z playtime_forever / 60 + (1 # 2))))%Q)
        by now rewrite <- Zle_Qle.
      assert (H3 : (inject_Z 500 - (1 # 2) <= inject_Z playtime_forever / 60)%Q)
        by lra.
      assert (H4 : ((inject_Z 500 - (1 # 2)) * 60
                    <= inject_Z playtime_forever / 60 * 60)%Q).
      { apply Qmult_le_compat_r; [exact H3|discriminate]. }
      assert (H5 : (inject_Z playtime_forever / 60 * 60
                    == inject_Z playtime_forever)%Q) by field.
      assert (H6 : (inject_Z 29970 <= inject_Z playtime_forever)%Q).
      { rewrite <- H5. eapply Qle_trans; [|exact H4].
        vm_compute. discriminate. }
      now rewrite <- Zle_Qle in H6.
    + intros H.
      replace 500 with (Qfloor (inject_Z 500)) by apply Qfloor_Z.
      apply Qfloor_resp_le.
      assert (H1 : (inject_Z 29970 <= inject_Z playtime_forever)%Q)
        by now rewrite <- Zle_Qle.
      assert (H2 : (inject_Z 29970 / 60 <= inject_Z playtime_forever / 60)%Q).
      { apply Qmult_le_compat_r; [exact H1|discriminate]. }
      assert (H3 : (inject_Z 29970 / 60 == inject_Z 500 - (1 # 2))%Q)
        by (vm_compute; reflexivity).
      lra.
  - cbv zeta. unfold Draw.badge. cbv zeta.
    cbn [Draw.bx Draw.by_ Draw.badgeW Draw.badgeH Draw.margin Draw.fontSize
         Draw.padding].
    set (base := Qmin cellW cellH).
    set (fs := jsRound (Qmax 12 (Qmin 24 (base * (8 # 100))))).
    set (pd := jsRound (Qmax 4 (Qmin 12 (base * (3 # 100))))).
    set (mg := jsRound (Qmax 4 (base * (2 # 100)))).
    set (bw := textW + pd * 2).
    set (bh := jsRound (inject_Z fs + inject_Z pd * (12 # 10))).
    set (bx0 := inject_Z (jsRound (x + cellW / 2 - inject_Z bw / 2))).
    set (by0 := inject_Z (jsRound (y + cellH * (66 # 100) - inject_Z bh / 2))).
    assert (Hfs : 12 <= fs <= 24).
    { apply DrawFacts.jsRound_between.
      - change (inject_Z 12) with 12%Q. apply Q.le_max_l.
      - change (inject_Z 24) with 24%Q. apply Q.max_lub; [discriminate|].
        apply Q.le_min_l. }
    assert (Hpd : 4 <= pd <= 12).
    { apply DrawFacts.jsRound_between.
      - change (inject_Z 4) with 4%Q. apply Q.le_max_l.
      - change (inject_Z 12) with 12%Q. apply Q.max_lub; [discriminate|].
        apply Q.le_min_l. }
    assert (Hmg : 4 <= mg).
    { destruct (DrawFacts.jsRound_near (Qmax 4 (base * (2 # 100)))) as [Hn _].
      fold mg in Hn.
      assert (H := Q.le_max_l 4 (base * (2 # 100))).
      assert (H3 : (inject_Z 3 < inject_Z mg)%Q)
        by (change (inject_Z 3) with 3%Q; lra).
      rewrite <- Zlt_Qlt in H3. lia. }
    repeat split; try lia.
    + destruct (Draw.Qlt_bool bx0 (x + inject_Z mg)) eqn:E1;
        match goal with |- context [Draw.Qlt_bool ?a ?b] =>
          destruct (Draw.Qlt_bool a b) eqn:E2 end;
        try apply DrawFacts.Qlt_bool_ge in E2; lra.
    + destruct (Draw.Qlt_bool by0 (y + inject_Z mg)) eqn:E1;
        match goal with |- context [Draw.Qlt_bool ?a ?b] =>
          destruct (Draw.Qlt_bool a b) eqn:E2 end;
        try apply DrawFacts.Qlt_bool_ge in E2; lra.
    + intros Hroom.
      destruct (Draw.Qlt_bool bx0 (x + inject_Z mg)) eqn:E1;
        match goal with |- context [Draw.Qlt_bool ?a ?b] =>
          destruct (Draw.Qlt_bool a b) eqn:E2 end;
        try apply DrawFacts.Qlt_bool_ge in E1; lra.
    + intros Hroom.
      destruct (Draw.Qlt_bool by0 (y + inject_Z mg)) eqn:E1;
        match goal with |- context [Draw.Qlt_bool ?a ?b] =>
          destruct (Draw.Qlt_bool a b) eqn:E2 end;
        try apply DrawFacts.Qlt_bool_ge in E1; lra.
Qed.

(** The gold frame of a cell whose sides are 6 at least lies within the
    cell, paint included: the rectangle stroked has sides that are not
    negative, and the stroke, half of [lineWidth] to either side of it,
    stays a pixel and a half away from the edges of the cell. *)
Theorem gold_frame_inside (x y cellW cellH : Q) :
  (6 <= cellW)%Q -> (6 <= cellH)%Q ->
  let f := Draw.goldFrame x y cellW cellH in
  2 <= Draw.lineWidth f /\
  (0 <= Draw.frameW f /\ 0 <= Draw.frameH f /\
   x + (3 # 2) <= Draw.frameX f - inject_Z (Draw.lineWidth f) / 2 /\
   y + (3 # 2) <= Draw.frameY f - inject_Z (Draw.lineWidth f) / 2 /\
   Draw.frameX f + Draw.frameW f + inject_Z (Draw.lineWidth f) / 2
   <= x + cellW - (3 # 2) /\
   Draw.frameY f + Draw.frameH f + inject_Z (Draw.lineWidth f) / 2
   <= y + cellH - (3 # 2))%Q.
Proof.
  intros Hw Hh f. subst f. unfold Draw.goldFrame. cbv zeta.
  cbn [Draw.lineWidth Draw.frameX Draw.frameY Draw.frameW Draw.frameH].
  set (m := Qmin cellW cellH).
  set (t := Z.max 2 (jsRound (m * (2 # 100)))).
  assert (Hm : (6 <= m)%Q) by (apply Q.min_glb; assumption).
  assert (Hmw : (m <= cellW)%Q) by apply Q.le_min_l.
  assert (Hmh : (m <= cellH)%Q) by apply Q.le_min_r.
  assert (Ht2 : 2 <= t) by (unfold t; lia).
  assert (Hdiv : t - 1 <= 2 * (t / 2) <= t).
  { pose proof (Z.div_mod t 2 ltac:(lia)) as Hd.
    pose proof (Z.mod_pos_bound t 2 ltac:(lia)). lia. }
  assert (Hin : (inject_Z t - 1 <= 2 * inject_Z (t / 2 + 2) - 4
                 /\ 2 * inject_Z (t / 2 + 2) - 4 <= inject_Z t)%Q).
  { assert (E : (2 * inject_Z (t / 2 + 2) - 4 == inject_Z (2 * (t / 2)))%Q).
    { rewrite !inject_Z_plus, inject_Z_mult.
      change (inject_Z 2) with 2%Q. ring. }
    rewrite E. split.
    - assert (Hq : (inject_Z (t - 1) <= inject_Z (2 * (t / 2)))%Q)
        by (rewrite <- Zle_Qle; lia).
      unfold Z.sub in Hq. rewrite inject_Z_plus, inject_Z_opp in Hq.
      change (inject_Z 1) with 1%Q in Hq. lra.
    - rewrite <- Zle_Qle. lia. }
  assert (Htm : (inject_Z t + 4 <= m)%Q).
  { unfold t. destruct (Z.max_spec 2 (jsRound (m * (2 # 100)))) as [[_ ->]|[_ ->]].
    - destruct (DrawFacts.jsRound_near (m * (2 # 100))) as [_ Hn]. lra.
    - change (inject_Z 2) with 2%Q. lra. }
  split; [exact Ht2|]. destruct Hin as [Hin1 Hin2].
  assert (Ehalf : (2 * (inject_Z t / 2) == inject_Z t)%Q) by field.
  set (half := (inject_Z t / 2)%Q) in *.
  repeat split; lra.
Qed.

Lemma gold_frame_inside_witness :
  Draw.lineWidth (Draw.goldFrame 0 100 880 1320) = 18 /\
  (0 <= Draw.frameW (Draw.goldFrame 0 100 880 1320))%Q /\
  (Draw.frameX (Draw.goldFrame 0 100 880 1320) == 11)%Q /\
  (Draw.frameW (Draw.goldFrame 0 100 880 1320) == 858)%Q.
Proof.
  split; [reflexivity|]. split; [|split; vm_compute; reflexivity].
  pose proof (gold_frame_inside 0 100 880 1320) as H. cbv zeta in H.
  apply H; vm_compute; discriminate.
Defined.

(** The avatar fits the header bar whatever the canvas: the bar is between
    60 and 100 high, the avatar sits 10 below its top and ends 10 above its
    bottom, and the text starts 10 to the right of the avatar.  In the
    tiered layout no rectangle of a game reaches up to the avatar. *)
Theorem header_holds_avatar
    (jitter : Z -> Q) (initialGames : list SteamGame) (W H : Z) :
  60 <= Tiered.headerInfoHeightOf H <= 100 /\
  (Draw.avatarY (Tiered.headerInfoHeightOf H) == 10)%Q /\
  Draw.avatarSize (Tiered.headerInfoHeightOf H) = Tiered.headerInfoHeightOf H - 20 /\
  Draw.textX (Tiered.headerInfoHeightOf H)
  = Draw.pad + Draw.avatarSize (Tiered.headerInfoHeightOf H) + 10 /\
  Forall (fun g =>
            (Draw.avatarY (Tiered.headerInfoHeightOf H)
             + inject_Z (Draw.avatarSize (Tiered.headerInfoHeightOf H)) + 10
             <= inject_Z (Tiered.lg_y g))%Q)
    (Tiered.layoutGames jitter initialGames (W, H)).
Proof.
  assert (Hh : 60 <= Tiered.headerInfoHeightOf H <= 100).
  { unfold Tiered.headerInfoHeightOf. split; [lia|].
    apply Z.max_lub; [lia|].
    destruct (DrawFacts.jsRound_near (Qmin (inject_Z H * (6 # 100)) 100))
      as [_ Hn].
    assert (Hmin := Q.le_min_r (inject_Z H * (6 # 100)) 100).
    assert (Hlt : (inject_Z (jsRound (Qmin (inject_Z H * (6 # 100)) 100))
                   < inject_Z 101)%Q)
      by (change (inject_Z 101) with 101%Q; lra).
    rewrite <- Zlt_Qlt in Hlt. lia. }
  set (h := Tiered.headerInfoHeightOf H) in *.
  assert (Hs : Draw.avatarSize h = h - 20).
  { unfold Draw.avatarSize, Draw.pad. lia. }
  assert (Hy : (Draw.avatarY h == 10)%Q).
  { unfold Draw.avatarY. rewrite Hs.
    replace (h - (h - 20)) with 20 by lia. vm_compute. reflexivity. }
  split; [exact Hh|]. split; [exact Hy|]. split; [exact Hs|]. split.
  - unfold Draw.textX, Draw.pad. lia.
  - eapply Forall_impl;
      [|apply (TieredFacts.tiling_below_header W H),
          TieredFacts.layoutGames_tiling].
    intros g Hg.
    change (Tiered.headerInfoHeight H) with h in Hg.
    rewrite Hy, Hs.
    assert (Hq : (inject_Z h <= inject_Z (Tiered.lg_y g))%Q)
      by now rewrite <- Zle_Qle.
    unfold Z.sub. rewrite inject_Z_plus, inject_Z_opp.
    change (inject_Z 20) with 20%Q. lra.
Qed.

Lemma totalPlaytime_Permutation (l l' : list SteamGame) :
  Permutation l l' -> Server.totalPlaytime l = Server.totalPlaytime l'.
Proof.
  unfold Server.totalPlaytime.
  induction 1; simpl; try lia.
Qed.

(** What the header bar says of a library whose ids are distinct, as the
    server hands it over.  The number of games shown is the number of
    rectangles drawn: a game that found no place is not counted.  The
    hours shown are those of all the games, drawn or not. *)
Theorem header_counts_drawn
    (jitter : Z -> Q) (initialGames : list SteamGame) (canvas : Z * Z) :
  NoDup (map appid initialGames) ->
  Draw.uniqueCount (Tiered.layoutGames jitter initialGames canvas)
  = List.length (Tiered.layoutGames jitter initialGames canvas) /\
  (Draw.uniqueCount (Tiered.layoutGames jitter initialGames canvas)
   + List.length (Tiered.droppedGames jitter initialGames canvas)
   = List.length initialGames)%nat /\
  Draw.totalPlayMinutes initialGames
  = Server.totalPlaytime
      (map Tiered.lg_game (Tiered.layoutGames jitter initialGames canvas))
    + Server.totalPlaytime (Tiered.droppedGames jitter initialGames canvas).
Proof.
  intros Hnd.
  pose proof (TieredFacts.layoutGames_bag jitter initialGames canvas) as Hbag.
  set (L := Tiered.layoutGames jitter initialGames canvas) in *.
  set (D := Tiered.droppedGames jitter initialGames canvas) in *.
  assert (Hids : NoDup (map (fun g => appid (Tiered.lg_game g)) L)).
  { assert (H : NoDup (map appid (map Tiered.lg_game L ++ D))).
    { eapply Permutation_NoDup; [|exact Hnd].
      apply Permutation_map. symmetry. exact Hbag. }
    rewrite map_app in H. apply NoDup_app_remove_r in H.
    now rewrite map_map in H. }
  assert (Hc : Draw.uniqueCount L = List.length L).
  { unfold Draw.uniqueCount.
    rewrite <- (length_map fst), DrawFacts.entriesOf_ids.
    unfold Server.idsOnce. rewrite DrawFacts.fold_addTo_fresh; auto.
    simpl. now rewrite length_map. }
  split; [exact Hc|]. split.
  - rewrite Hc. apply Permutation_length in Hbag.
    rewrite length_app, length_map in Hbag. exact Hbag.
  - rewrite DrawFacts.totalPlayMinutes_sum.
    rewrite <- (totalPlaytime_Permutation _ _ Hbag).
    apply ServerFacts.totalPlaytime_app.
Qed.

Lemma header_counts_drawn_witness :
  Draw.uniqueCount
    (Tiered.layoutGames Scenario.jitter Scenario.library Scenario.canvas)
  = 5%nat /\
  (Draw.uniqueCount
     (Tiered.layoutGames Scenario.jitter Scenario.library Scenario.canvas)
   + List.length
       (Tiered.droppedGames Scenario.jitter Scenario.library Scenario.canvas)
   = List.length Scenario.library)%nat /\
  Draw.totalHours Scenario.library = 210.
Proof.
  split; [vm_compute; reflexivity|]. split; [|vm_compute; reflexivity].
  apply (header_counts_drawn Scenario.jitter Scenario.library Scenario.canvas).
  repeat constructor; simpl; intuition discriminate.
Defined.

(** ** The form *)

Lemma filter_all {A : Type} (f : A -> bool) (l : list A) :
  Forall (fun a => f a = true) l -> filter f l = l.
Proof.
  induction 1 as [|a l Ha _ IH]; simpl; auto. now rewrite Ha, IH.
Qed.

(** When the button that submits is enabled, submitting pushes the route
    with every row of the form, trimmed, and the trimmed key: no row is
    left out and no message is shown instead. *)
Theorem submit_when_enabled (globalApiKey : Js.str) (accounts : list Js.str) :
  Form.canSubmit globalApiKey accounts = true ->
  Form.handleSubmit globalApiKey accounts
  = Form.Pushed (map Js.trim accounts) (Js.trim globalApiKey) /\
  accounts <> [].
Proof.
  unfold Form.canSubmit, Form.handleSubmit. intros H.
  apply andb_prop in H. destruct H as [H Hall].
  apply andb_prop in H. destruct H as [Hkey Hlen].
  apply Nat.ltb_lt in Hlen. cbv zeta.
  assert (Hf : filter Js.truthy (map Js.trim accounts) = map Js.trim accounts).
  { apply filter_all. apply Forall_forall. intros a Ha.
    apply in_map_iff in Ha. destruct Ha as (b & <- & Hb).
    rewrite forallb_forall in Hall. now apply Hall. }
  rewrite Hf, length_map, Hkey.
  replace (List.length accounts =? 0)%nat with false
    by (symmetry; apply Nat.eqb_neq; lia).
  split; [reflexivity|]. destruct accounts; [simpl in Hlen; lia|discriminate].
Qed.

Lemma submit_when_enabled_witness :
  Form.handleSubmit (Js.lit " KEY ") [Js.lit "76561198000000000 "; Js.lit "gabe"]
  = Form.Pushed [Js.lit "76561198000000000"; Js.lit "gabe"] (Js.lit "KEY").
Proof.
  destruct (submit_when_enabled (Js.lit " KEY ")
              [Js.lit "76561198000000000 "; Js.lit "gabe"] eq_refl) as [H _].
  exact H.
Defined.

(** The form always has a row.  It starts with one row at least, and
    whatever the user does with the buttons and fields that are drawn, a
    row is left: the first row has no button to remove it. *)
Theorem form_never_empty
    (initialAccounts : option (list Server.Account)) (initialSteamId : Js.str)
    (actions : list Form.Action) :
  Form.allOffered (Form.initialState initialAccounts initialSteamId) actions
  = true ->
  fold_left Form.act actions (Form.initialState initialAccounts initialSteamId)
  <> [].
Proof.
  assert (H0 : Form.initialState initialAccounts initialSteamId <> []).
  { unfold Form.initialState. destruct initialAccounts as [[|a l]|]; discriminate. }
  revert H0. generalize (Form.initialState initialAccounts initialSteamId).
  induction actions as [|a actions IH]; intros accounts Hne Ho; simpl in *; auto.
  apply andb_prop in Ho. destruct Ho as [Ha Hrest].
  apply IH; auto. now apply FormFacts.act_keeps_head.
Qed.

Lemma form_never_empty_witness :
  fold_left Form.act
    [Form.Add; Form.Update 1 (Js.lit "gabe"); Form.Remove 1]
    (Form.initialState None (Js.lit "76561198000000000"))
  <> [].
Proof.
  apply (form_never_empty None (Js.lit "76561198000000000")
           [Form.Add; Form.Update 1 (Js.lit "gabe"); Form.Remove 1]).
  reflexivity.
Defined.

(** What the form submits is what the server resolves.  When
    [handleSubmit] pushes the route, the ids are trimmed and not empty, and
    [getServerSideProps], reading that query back, makes one pair of every
    id with the key: none is dropped and none is changed. *)
Theorem submitted_is_resolved
    (globalApiKey : Js.str) (accounts : list Js.str)
    (steamId : list Js.str) (apiKey : Js.str)
    (rawSteamId : Server.QueryValue) :
  Form.handleSubmit globalApiKey accounts = Form.Pushed steamId apiKey ->
  Server.asList rawSteamId = steamId ->
  steamId <> [] /\
  Forall (fun id => Js.truthy id = true /\ Js.trim id = id) steamId /\
  Server.pairsOf (Server.asList rawSteamId) (Server.asList (Server.One apiKey))
  = map (fun id => Server.mkPair id apiKey) steamId.
Proof.
  unfold Form.handleSubmit. cbv zeta. intros H Hraw. rewrite Hraw. clear Hraw.
  destruct ((_ =? 0)%nat || _) eqn:E; [discriminate|].
  inversion H; subst steamId apiKey. clear H.
  apply orb_false_elim in E. destruct E as [El Ek].
  apply Nat.eqb_neq in El. apply negb_false_iff in Ek.
  set (ids := filter Js.truthy (map Js.trim accounts)) in *.
  set (key := Js.trim globalApiKey) in *.
  assert (Hids : Forall (fun id => Js.truthy id = true /\ Js.trim id = id) ids).
  { apply Forall_forall. intros id Hid. apply filter_In in Hid.
    destruct Hid as [Hin Ht]. split; auto.
    apply in_map_iff in Hin. destruct Hin as (a & <- & _).
    apply FormFacts.trim_idempotent. }
  split; [destruct ids; [simpl in El; lia|discriminate]|]. split; [exact Hids|].
  unfold Server.pairsOf. simpl Server.asList.
  assert (Hkey : forall idx, Server.keyFor [key] idx = key).
  { intros idx. unfold Server.keyFor. rewrite PropsFacts.orStr_nil.
    destruct idx as [|[|idx]]; simpl; try apply PropsFacts.orStr_same;
      destruct key; reflexivity. }
  assert (Hm : forall l n,
             Forall (fun id => Js.truthy id = true /\ Js.trim id = id) l ->
             Server.mapi
               (fun id idx =>
                  Server.mkPair (Js.trim (Js.orStr id []))
                    (Js.trim (Server.keyFor [key] idx))) n l
             = map (fun id => Server.mkPair id key) l).
  { induction l as [|id l IH]; intros n Hl; simpl; auto.
    inversion Hl as [|? ? [_ Hid] Hl']; subst.
    rewrite IH, Hkey, PropsFacts.orStr_nil, Hid; auto.
    unfold key. now rewrite FormFacts.trim_idempotent. }
  rewrite Hm; auto. apply filter_all.
  apply Forall_forall. intros p Hp. apply in_map_iff in Hp.
  destruct Hp as (id & <- & Hid). simpl.
  rewrite Forall_forall in Hids. destruct (Hids id Hid) as [-> _].
  exact Ek.
Qed.

Lemma submitted_is_resolved_witness :
  Server.pairsOf
    (Server.asList (Server.Many [Js.lit "76561198000000000"; Js.lit "gabe"]))
    (Server.asList (Server.One (Js.lit "KEY")))
  = [Server.mkPair (Js.lit "76561198000000000") (Js.lit "KEY");
     Server.mkPair (Js.lit "gabe") (Js.lit "KEY")].
Proof.
  destruct (submitted_is_resolved (Js.lit " KEY ")
              [Js.lit "76561198000000000 "; Js.lit "gabe"; Js.lit "  "]
              [Js.lit "76561198000000000"; Js.lit "gabe"] (Js.lit "KEY")
              (Server.Many [Js.lit "76561198000000000"; Js.lit "gabe"])
              eq_refl eq_refl) as (_ & _ & H).
  exact H.
Defined.
